(** * Orthogonal connector routing: a shallow embedding of [tools/generate-paths.py]

    The routing engine of the entity-relationship diagram generator:
    side selection, the direct elbow router, the obstacle-aware grid
    router (grid construction, A* search, collinear compression) and the
    serializer of a point sequence into move/line commands.

    Number model.  The program computes on Python floats.  Coordinates are
    modelled as exact rationals [Q]; the float comparison [a == b] is
    [Qeq_bool], [a < b] is [Qltb], and so on.  Rounding error, infinities
    and NaN are outside the model.  Two rationals that are equal as numbers
    may differ as terms, as two Python floats that compare equal are the
    same number: every test the program makes is therefore embedded with the
    numeric comparison, and statements about points use [Peq]. *)

From Stdlib Require Import QArith Qabs Qround ZArith List String Ascii Bool.
From Stdlib Require Import Lia Lqa Permutation Sorted SetoidList.
From Stdlib Require Import DecimalString.
Import ListNotations.

Local Open Scope Q_scope.

(** ** Outcomes of a call

    A Python call returns a value or raises.  [OutOfFuel] belongs to the
    model only: the two [while] loops of [_a_star] are run on a fuel
    counter. *)

Inductive exn : Type :=
| ValueError (msg : string)
| KeyError
| IndexError.

Inductive outcome (A : Type) : Type :=
| Ret (a : A)
| Raise (e : exn)
| OutOfFuel.

Arguments Ret {A} a.
Arguments Raise {A} e.
Arguments OutOfFuel {A}.

Definition bind {A B : Type} (m : outcome A) (k : A -> outcome B) : outcome B :=
  match m with
  | Ret a => k a
  | Raise e => Raise e
  | OutOfFuel => OutOfFuel
  end.

Notation "x <- m ;; k" := (bind m (fun x => k))
  (at level 61, m at next level, right associativity).
Notation "' p <- m ;; k" := (bind m (fun x => let p := x in k))
  (at level 61, p pattern, m at next level, right associativity).

(** ** Float comparisons and builtins *)

Definition Qltb (a b : Q) : bool := negb (Qle_bool b a).

(** Python's [max(a, b)] keeps [a] unless [b] is larger, [min(a, b)] keeps
    [a] unless [b] is smaller. *)
Definition py_max (a b : Q) : Q := if Qltb a b then b else a.
Definition py_min (a b : Q) : Q := if Qltb b a then b else a.

(** Python 3 [round(v)] with one argument rounds to the nearest integer,
    halves to the even neighbour. *)
Definition py_round (v : Q) : Z :=
  let f := Qfloor v in
  let r := v - inject_Z f in
  if Qltb r (1 # 2) then f
  else if Qltb (1 # 2) r then (f + 1)%Z
       else if Z.even f then f else (f + 1)%Z.

(** [str(n)] for an integer. *)
Definition py_str (n : Z) : string := NilZero.string_of_int (Z.to_int n).

(** [sep.join(parts)] *)
Fixpoint join (sep : string) (parts : list string) : string :=
  match parts with
  | [] => EmptyString
  | [s] => s
  | s :: rest => (s ++ sep ++ join sep rest)%string
  end.

(** ** Geometry primitives *)

Record Rect : Type := mkRect { rx : Q; ry : Q; rw : Q; rh : Q }.

Definition cx (r : Rect) : Q := rx r + rw r / 2.
Definition cy (r : Rect) : Q := ry r + rh r / 2.
Definition left (r : Rect) : Q := rx r.
Definition right (r : Rect) : Q := rx r + rw r.
Definition top (r : Rect) : Q := ry r.
Definition bottom (r : Rect) : Q := ry r + rh r.

Definition Point : Type := (Q * Q)%type.

(** Tuple equality [a == b] on points. *)
Definition point_eqb (a b : Point) : bool :=
  Qeq_bool (fst a) (fst b) && Qeq_bool (snd a) (snd b).

Definition Peq (a b : Point) : Prop := fst a == fst b /\ snd a == snd b.

(** [Side] is a [Literal] of four strings; at run time a side is a plain
    string, which is what [_anchor] tests. *)
Definition Side : Type := string.

Definition _round_svg (v : Q) : Z := py_round v.

Definition _anchor (rect : Rect) (side : Side) : outcome Point :=
  if String.eqb side "left" then Ret (left rect, cy rect)
  else if String.eqb side "right" then Ret (right rect, cy rect)
  else if String.eqb side "top" then Ret (cx rect, top rect)
  else if String.eqb side "bottom" then Ret (cx rect, bottom rect)
  else Raise (ValueError ("unknown side: " ++ side)).

Definition _pick_sides (src dst : Rect) : Side * Side :=
  let dx := cx dst - cx src in
  let dy := cy dst - cy src in
  if Qle_bool (Qabs dy) (Qabs dx) then
    if Qle_bool 0 dx then ("right", "left")%string else ("left", "right")%string
  else
    if Qle_bool 0 dy then ("bottom", "top")%string else ("top", "bottom")%string.

(** [s in ("a", "b")] for a tuple of strings *)
Definition str_in (s : Side) (l : list Side) : bool :=
  existsb (String.eqb s) l.

(** ** Path serializer

    The two routers end with the same four lines: a move command to the
    first point and a line command to every later one, joined by spaces. *)

Definition move_cmd (p : Point) : string :=
  ("M" ++ py_str (_round_svg (fst p)) ++ " " ++ py_str (_round_svg (snd p)))%string.

Definition line_cmd (p : Point) : string :=
  ("L" ++ py_str (_round_svg (fst p)) ++ " " ++ py_str (_round_svg (snd p)))%string.

(** [points[0]] raises on an empty list; neither router reaches it with
    one. *)
Definition render_d (points : list Point) : outcome string :=
  match points with
  | [] => Raise IndexError
  | p0 :: rest => Ret (join " " (move_cmd p0 :: map line_cmd rest))
  end.

(** ** Direct orthogonal router *)

(** The list [points] of [_orthogonal_path], before it is serialized. *)
Definition orthogonal_points (src dst : Rect) (margin : Q) : outcome (list Point) :=
  let '(src_side, dst_side) := _pick_sides src dst in
  s <- _anchor src src_side ;;
  e <- _anchor dst dst_side ;;
  let '(sx, sy) := s in
  let '(ex, ey) := e in
  let points := [(sx, sy)] in
  if str_in src_side ["left"; "right"]%string && str_in dst_side ["left"; "right"]%string then
    if (_round_svg sy =? _round_svg ey)%Z then
      Ret (points ++ [(ex, ey)])
    else
      let mid_x :=
        if String.eqb dst_side "left"
        then py_min (ex - margin) ((sx + ex) / 2)
        else py_max (ex + margin) ((sx + ex) / 2) in
      Ret (points ++ [(mid_x, sy); (mid_x, ey); (ex, ey)])
  else if str_in src_side ["top"; "bottom"]%string && str_in dst_side ["top"; "bottom"]%string then
    if (_round_svg sx =? _round_svg ex)%Z then
      Ret (points ++ [(ex, ey)])
    else
      let mid_y :=
        if String.eqb dst_side "top"
        then py_min (ey - margin) ((sy + ey) / 2)
        else py_max (ey + margin) ((sy + ey) / 2) in
      Ret (points ++ [(sx, mid_y); (ex, mid_y); (ex, ey)])
  else
    if str_in src_side ["left"; "right"]%string then
      Ret (points ++ [(ex, sy); (ex, ey)])
    else
      Ret (points ++ [(sx, ey); (ex, ey)]).

Definition _orthogonal_path (src dst : Rect) (margin : Q) : outcome string :=
  points <- orthogonal_points src dst margin ;;
  render_d points.



(** ** Containers

    A Python [set] is a list without repetition under the element
    equality, a [dict] an association list in insertion order.  Both are
    searched with the equality test of the key type. *)

Section Containers.
Context {K V : Type} (keqb : K -> K -> bool).

Definition set_mem (k : K) (s : list K) : bool := existsb (keqb k) s.

Definition set_add (k : K) (s : list K) : list K :=
  if set_mem k s then s else s ++ [k].

Definition set_update (s : list K) (ks : list K) : list K :=
  fold_left (fun acc k => set_add k acc) ks s.

Definition set_discard (k : K) (s : list K) : list K :=
  filter (fun k' => negb (keqb k k')) s.

Fixpoint dict_get (d : list (K * V)) (k : K) : option V :=
  match d with
  | [] => None
  | (k', v) :: rest => if keqb k k' then Some v else dict_get rest k
  end.

(** [d[k] = v]: an existing key keeps its place. *)
Fixpoint dict_set (d : list (K * V)) (k : K) (v : V) : list (K * V) :=
  match d with
  | [] => [(k, v)]
  | (k', v') :: rest =>
      if keqb k k' then (k', v) :: rest else (k', v') :: dict_set rest k v
  end.
End Containers.

(** [d.setdefault(k, []).append(v)] *)
Definition dict_setdefault_append {K V : Type} (keqb : K -> K -> bool)
    (d : list (K * list V)) (k : K) (v : V) : list (K * list V) :=
  match dict_get keqb d k with
  | Some l => dict_set keqb d k (l ++ [v])
  | None => d ++ [(k, [v])]
  end.

(** [d[k].append(v)].  In the program [k] is always a key of [d] (lemma
    [build_edges_keys] below); an absent key leaves the model unchanged. *)
Definition dict_append {K V : Type} (keqb : K -> K -> bool)
    (d : list (K * list V)) (k : K) (v : V) : list (K * list V) :=
  match dict_get keqb d k with
  | Some l => dict_set keqb d k (l ++ [v])
  | None => d
  end.

(** [sorted(l, key=key)]: a stable sort, here by insertion. *)
Section Sorting.
Context {A : Type} (key : A -> Q).

Fixpoint insert_by (a : A) (l : list A) : list A :=
  match l with
  | [] => [a]
  | b :: rest =>
      if Qle_bool (key a) (key b) then a :: l else b :: insert_by a rest
  end.

Definition sort_by (l : list A) : list A := fold_right insert_by [] l.
End Sorting.

(** ** Blocking tests *)

Definition _expand (rect : Rect) (pad : Q) : Rect :=
  mkRect (rx rect - pad) (ry rect - pad) (rw rect + pad * 2) (rh rect + pad * 2).

(** The two [for r in obstacles] loops of [_segment_clear]: the first
    obstacle that strictly overlaps the segment ends the loop with [False]. *)
Definition column_clear (x y_lo y_hi : Q) (obstacles : list Rect) : bool :=
  forallb (fun r =>
    if negb (Qltb (left r) x && Qltb x (right r)) then true
    else negb (Qltb (py_max y_lo (top r)) (py_min y_hi (bottom r)))) obstacles.

Definition row_clear (y x_lo x_hi : Q) (obstacles : list Rect) : bool :=
  forallb (fun r =>
    if negb (Qltb (top r) y && Qltb y (bottom r)) then true
    else negb (Qltb (py_max x_lo (left r)) (py_min x_hi (right r)))) obstacles.

Definition _segment_clear (a b : Point) (obstacles : list Rect) : bool :=
  let '(x1, y1) := a in
  let '(x2, y2) := b in
  if negb (Qeq_bool x1 x2) && negb (Qeq_bool y1 y2) then false
  else if Qeq_bool x1 x2 then
    let x := x1 in
    let '(y_lo, y_hi) := if Qle_bool y1 y2 then (y1, y2) else (y2, y1) in
    column_clear x y_lo y_hi obstacles
  else
    let y := y1 in
    let '(x_lo, x_hi) := if Qle_bool x1 x2 then (x1, x2) else (x2, x1) in
    row_clear y x_lo x_hi obstacles.

Definition _manhattan (a b : Point) : Q :=
  Qabs (fst a - fst b) + Qabs (snd a - snd b).

(** ** The frontier

    [heapq] keeps its entries in a list arranged as a binary heap, and
    [heappop] returns the smallest entry under tuple comparison.  [_a_star]
    only pushes and pops, so the arrangement is not observable: the model
    keeps the entries in insertion order and pops the least one (the
    earliest of them, should two entries be equal as tuples). *)

Definition entry : Type := (Q * Point)%type.

(** [a < b] on tuples [(f, (x, y))]: lexicographic. *)
Definition point_ltb (a b : Point) : bool :=
  Qltb (fst a) (fst b) || (Qeq_bool (fst a) (fst b) && Qltb (snd a) (snd b)).

Definition entry_ltb (a b : entry) : bool :=
  Qltb (fst a) (fst b) || (Qeq_bool (fst a) (fst b) && point_ltb (snd a) (snd b)).

Definition entry_eqb (a b : entry) : bool :=
  Qeq_bool (fst a) (fst b) && point_eqb (snd a) (snd b).

Definition heappush (h : list entry) (e : entry) : list entry := h ++ [e].

Fixpoint heap_least (best : entry) (h : list entry) : entry :=
  match h with
  | [] => best
  | e :: rest => heap_least (if entry_ltb e best then e else best) rest
  end.

Fixpoint remove_first (e : entry) (h : list entry) : list entry :=
  match h with
  | [] => []
  | e' :: rest => if entry_eqb e e' then rest else e' :: remove_first e rest
  end.

Definition heappop (h : list entry) : option (entry * list entry) :=
  match h with
  | [] => None
  | e :: rest => let m := heap_least e rest in Some (m, remove_first m h)
  end.

(** ** A* search *)

Record astar_state : Type := mkState {
  open_heap : list entry;
  came_from : list (Point * Point);
  g_score : list (Point * Q);
  in_open : list Point
}.

(** One iteration of [for nxt in edges.get(current, [])]. *)
Definition relax (goal current : Point) (st : astar_state) (nxt : Point)
    : outcome astar_state :=
  match dict_get point_eqb (g_score st) current with
  | None => Raise KeyError
  | Some g_current =>
      let tentative := g_current + _manhattan current nxt in
      let improves :=
        match dict_get point_eqb (g_score st) nxt with
        | Some g_nxt => Qltb tentative g_nxt
        | None => true (* float("inf") *)
        end in
      if improves then
        let came_from' := dict_set point_eqb (came_from st) nxt current in
        let g_score' := dict_set point_eqb (g_score st) nxt tentative in
        if negb (set_mem point_eqb nxt (in_open st)) then
          Ret (mkState
                 (heappush (open_heap st) (tentative + _manhattan nxt goal, nxt))
                 came_from' g_score'
                 (set_add point_eqb nxt (in_open st)))
        else
          Ret (mkState (open_heap st) came_from' g_score' (in_open st))
      else Ret st
  end.

Fixpoint relax_all (goal current : Point) (st : astar_state) (nbrs : list Point)
    : outcome astar_state :=
  match nbrs with
  | [] => Ret st
  | nxt :: rest =>
      st' <- relax goal current st nxt ;;
      relax_all goal current st' rest
  end.

(** [while current in came_from: current = came_from[current];
    path.append(current)] *)
Fixpoint walk_back (fuel : nat) (cf : list (Point * Point)) (current : Point)
    (path : list Point) : outcome (list Point) :=
  match dict_get point_eqb cf current with
  | None => Ret path
  | Some prev =>
      match fuel with
      | O => OutOfFuel
      | S fuel' => walk_back fuel' cf prev (path ++ [prev])
      end
  end.

(** [while open_heap: ...]; the result is [Some path] or [None]. *)
Fixpoint a_star_loop (fuel : nat) (goal : Point)
    (edges : list (Point * list Point)) (st : astar_state)
    : outcome (option (list Point)) :=
  match heappop (open_heap st) with
  | None => Ret None
  | Some ((_, current), heap') =>
      match fuel with
      | O => OutOfFuel
      | S fuel' =>
          let st1 := mkState heap' (came_from st) (g_score st)
                       (set_discard point_eqb current (in_open st)) in
          if point_eqb current goal then
            path <- walk_back fuel' (came_from st1) current [current] ;;
            Ret (Some (rev path))
          else
            let nbrs :=
              match dict_get point_eqb edges current with
              | Some l => l
              | None => []
              end in
            st2 <- relax_all goal current st1 nbrs ;;
            a_star_loop fuel' goal edges st2
      end
  end.

Definition _a_star (fuel : nat) (start goal : Point) (nodes : list Point)
    (edges : list (Point * list Point)) : outcome (option (list Point)) :=
  let open_heap := heappush [] (_manhattan start goal, start) in
  a_star_loop fuel goal edges
    (mkState open_heap [] [(start, 0)] [start]).

(** ** Path simplifier *)

Definition collinear3 (p0 p1 p2 : Point) : bool :=
  (Qeq_bool (fst p0) (fst p1) && Qeq_bool (fst p1) (fst p2))
  || (Qeq_bool (snd p0) (snd p1) && Qeq_bool (snd p1) (snd p2)).

(** The loop [for i in range(1, len(points) - 1)] followed by
    [out.append(points[-1])]: [rest] is [points[i:]], [prev] is [out[-1]]
    and [out] grows at its end. *)
Fixpoint compress_loop (out : list Point) (prev : Point) (rest : list Point)
    : list Point :=
  match rest with
  | p1 :: ((p2 :: _) as tl) =>
      if collinear3 prev p1 p2 then compress_loop out prev tl
      else compress_loop (out ++ [p1]) p1 tl
  | _ => out ++ rest
  end.

Definition _compress_collinear (points : list Point) : list Point :=
  if (length points <=? 2)%nat then points
  else
    match points with
    | [] => points
    | p0 :: rest => compress_loop [p0] p0 rest
    end.

(** ** Obstacle-aware grid router

    Iterating a Python [set] visits its elements in an order that the
    language leaves to the implementation.  [set_iter] stands for that
    order; the development assumes of it only that it enumerates the
    elements of the set, each once. *)

Section Router.
Variable set_iter : forall A : Type, list A -> list A.

Definition obstacles_of (all_table_rects : list (string * Rect))
    (src_id dst_id : string) (pad : Q) : list Rect :=
  flat_map (fun tr : string * Rect =>
              if str_in (fst tr) [src_id; dst_id] then []
              else [_expand (snd tr) pad]) all_table_rects.

Definition grid_xs (start goal : Point) (obstacles : list Rect)
    (all_table_rects : list (string * Rect)) (margin : Q) : list Q :=
  let xs := set_update Qeq_bool [] [fst start; fst goal] in
  let xs := fold_left (fun xs r =>
              set_update Qeq_bool xs
                [left r - margin; left r; right r; right r + margin])
              obstacles xs in
  let xs := fold_left (fun xs (tr : string * Rect) =>
              set_update Qeq_bool xs [left (snd tr); right (snd tr)])
              all_table_rects xs in
  sort_by (fun v => v) (set_iter Q xs).

Definition grid_ys (start goal : Point) (obstacles : list Rect)
    (all_table_rects : list (string * Rect)) (margin : Q) : list Q :=
  let ys := set_update Qeq_bool [] [snd start; snd goal] in
  let ys := fold_left (fun ys r =>
              set_update Qeq_bool ys
                [top r - margin; top r; bottom r; bottom r + margin])
              obstacles ys in
  let ys := fold_left (fun ys (tr : string * Rect) =>
              set_update Qeq_bool ys [top (snd tr); bottom (snd tr)])
              all_table_rects ys in
  sort_by (fun v => v) (set_iter Q ys).

Definition blocked (obstacles : list Rect) (x y : Q) : bool :=
  existsb (fun r =>
    Qltb (left r) x && Qltb x (right r) && Qltb (top r) y && Qltb y (bottom r))
    obstacles.

Definition grid_nodes (obstacles : list Rect) (xs_list ys_list : list Q)
    : list Point :=
  flat_map (fun x =>
    flat_map (fun y => if negb (blocked obstacles x y) then [(x, y)] else [])
      ys_list) xs_list.

Definition node_set_of (start goal : Point) (nodes : list Point) : list Point :=
  set_add point_eqb goal (set_add point_eqb start (set_update point_eqb [] nodes)).

Definition group_by (coord : Point -> Q) (pts : list Point)
    : list (Q * list Point) :=
  fold_left (fun d p => dict_setdefault_append Qeq_bool d (coord p) p) pts [].

(** [if _segment_clear(a, b, obstacles): edges[a].append(b);
    edges[b].append(a)] *)
Definition link (obstacles : list Rect) (edges : list (Point * list Point))
    (ab : Point * Point) : list (Point * list Point) :=
  if _segment_clear (fst ab) (snd ab) obstacles then
    dict_append point_eqb (dict_append point_eqb edges (fst ab) (snd ab))
      (snd ab) (fst ab)
  else edges.

(** [pts.sort(key=...); for a, b in zip(pts, pts[1:]): ...] *)
Definition link_line (obstacles : list Rect) (key : Point -> Q)
    (edges : list (Point * list Point)) (pts : list Point)
    : list (Point * list Point) :=
  let pts := sort_by key pts in
  fold_left (link obstacles) (combine pts (tl pts)) edges.

Definition build_edges (obstacles : list Rect) (node_set : list Point)
    : list (Point * list Point) :=
  let visit := set_iter Point node_set in
  let edges := map (fun n => (n, @nil Point)) visit in
  let by_x := group_by fst visit in
  let by_y := group_by snd visit in
  let edges := fold_left (fun e (xp : Q * list Point) =>
                 link_line obstacles snd e (snd xp)) by_x edges in
  fold_left (fun e (yp : Q * list Point) =>
               link_line obstacles fst e (snd yp)) by_y edges.

(** Everything [_route_avoiding_tables] computes before the search. *)
Record grid : Type := mkGrid {
  g_obstacles : list Rect;
  g_nodes : list Point;
  g_node_set : list Point;
  g_edges : list (Point * list Point)
}.

Definition build_grid (start goal : Point)
    (all_table_rects : list (string * Rect)) (src_id dst_id : string)
    (pad margin : Q) : grid :=
  let obstacles := obstacles_of all_table_rects src_id dst_id pad in
  let xs_list := grid_xs start goal obstacles all_table_rects margin in
  let ys_list := grid_ys start goal obstacles all_table_rects margin in
  let nodes := grid_nodes obstacles xs_list ys_list in
  let node_set := node_set_of start goal nodes in
  mkGrid obstacles nodes node_set (build_edges obstacles node_set).

Definition endpoints (src_rect dst_rect : Rect) : outcome (Point * Point) :=
  let '(src_side, dst_side) := _pick_sides src_rect dst_rect in
  start <- _anchor src_rect src_side ;;
  goal <- _anchor dst_rect dst_side ;;
  Ret (start, goal).

Definition _route_avoiding_tables (fuel : nat) (src_rect dst_rect : Rect)
    (all_table_rects : list (string * Rect)) (src_id dst_id : string)
    (pad margin : Q) : outcome string :=
  se <- endpoints src_rect dst_rect ;;
  let '(start, goal) := se in
  let g := build_grid start goal all_table_rects src_id dst_id pad margin in
  path <- _a_star fuel start goal (g_nodes g) (g_edges g) ;;
  match path with
  | None | Some [] => _orthogonal_path src_rect dst_rect margin
  | Some ((_ :: _) as path) => render_d (_compress_collinear path)
  end.

(** The point sequence that [_route_avoiding_tables] serializes. *)
Definition route_points (fuel : nat) (src_rect dst_rect : Rect)
    (all_table_rects : list (string * Rect)) (src_id dst_id : string)
    (pad margin : Q) : outcome (list Point) :=
  se <- endpoints src_rect dst_rect ;;
  let '(start, goal) := se in
  let g := build_grid start goal all_table_rects src_id dst_id pad margin in
  path <- _a_star fuel start goal (g_nodes g) (g_edges g) ;;
  match path with
  | None | Some [] => orthogonal_points src_rect dst_rect margin
  | Some ((_ :: _) as path) => Ret (_compress_collinear path)
  end.

End Router.

(** Two enumeration orders used in the examples. *)
Definition iter_insertion (A : Type) (l : list A) : list A := l.
Definition iter_reversed (A : Type) (l : list A) : list A := rev l.

(** ** The block of paths *)

(** The line feed of ["\n"]. *)
Definition nl : string := String "010"%char EmptyString.

(** [names.get(k, k)] *)
Definition label_of (names : list (string * string)) (k : string) : string :=
  match dict_get String.eqb names k with
  | Some name => name
  | None => k
  end.

Section Block.
Variable set_iter : forall A : Type, list A -> list A.

(** The loop [for f, t in rels] of [_render_paths_block]; [lines] is the
    list built so far.  Each call of the router runs on [fuel]. *)
Fixpoint render_lines (fuel : nat) (rels : list (string * string))
    (rects : list (string * Rect)) (names : list (string * string))
    (lines : list string) : outcome (list string) :=
  match rels with
  | [] => Ret lines
  | (f, t) :: rest =>
      match dict_get String.eqb rects f, dict_get String.eqb rects t with
      | Some src, Some dst =>
          d <- _route_avoiding_tables set_iter fuel src dst rects f t 8 14 ;;
          let from_label := label_of names f in
          let to_label := label_of names t in
          render_lines fuel rest rects names
            (lines ++ [("    # " ++ from_label ++ " -> " ++ to_label)%string;
                       ("    - d: " ++ d)%string])
      | _, _ =>
          Raise (ValueError
                   ("missing computed.tables for relation: " ++ f ++ " -> " ++ t))
      end
  end.

Definition _render_paths_block (fuel : nat) (rels : list (string * string))
    (rects : list (string * Rect)) (names : list (string * string))
    : outcome string :=
  lines <- render_lines fuel rels rects names ["  paths:"%string] ;;
  Ret (join nl lines ++ nl)%string.
End Block.

(** ** Reading the model

    [yaml.safe_load] returns Python objects.  [pyval] has the kinds that the
    program tells apart with [isinstance]; [PObject] stands for any object
    of another type.  A [dict] is an association list that holds each key
    once; [d.get(k)] with a string [k] finds the entry whose key is that
    string, and answers [None] when there is none. *)

#[local] Unset Elimination Schemes.
Inductive pyval : Type :=
| PNone
| PBool (b : bool)
| PInt (n : Z)
| PFloat (q : Q)
| PStr (s : string)
| PList (items : list pyval)
| PDict (entries : list (pyval * pyval))
| PObject.
#[local] Set Elimination Schemes.

Fixpoint py_lookup (d : list (pyval * pyval)) (k : string) : option pyval :=
  match d with
  | [] => None
  | (PStr k', v) :: rest => if String.eqb k k' then Some v else py_lookup rest k
  | _ :: rest => py_lookup rest k
  end.

Definition py_get (d : list (pyval * pyval)) (k : string) : pyval :=
  match py_lookup d k with
  | Some v => v
  | None => PNone
  end.

(** [d[k]] *)
Definition py_item (d : list (pyval * pyval)) (k : string) : outcome pyval :=
  match py_lookup d k with
  | Some v => Ret v
  | None => Raise KeyError
  end.

(** The loop of [_relations]. *)
Fixpoint relations_loop (rels : list pyval) (out : list (string * string))
    : list (string * string) :=
  match rels with
  | [] => out
  | PDict r :: rest =>
      match py_get r "from", py_get r "to" with
      | PStr f, PStr t => relations_loop rest (out ++ [(f, t)])
      | _, _ => relations_loop rest out
      end
  | _ :: rest => relations_loop rest out
  end.

Definition _relations (model : list (pyval * pyval))
    : outcome (list (string * string)) :=
  match py_get model "relations" with
  | PList rels => Ret (relations_loop rels [])
  | _ => Raise (ValueError "missing relations")
  end.

(** The loop of [_table_name_map]. *)
Fixpoint names_loop (tables : list pyval) (out : list (string * string))
    : list (string * string) :=
  match tables with
  | [] => out
  | PDict t :: rest =>
      match py_get t "id", py_get t "name" with
      | PStr tid, PStr name =>
          names_loop rest (dict_set String.eqb out tid name)
      | _, _ => names_loop rest out
      end
  | _ :: rest => names_loop rest out
  end.

Definition _table_name_map (model : list (pyval * pyval))
    : list (string * string) :=
  match py_get model "tables" with
  | PList tables => names_loop tables []
  | _ => []
  end.

Section Floats.
(** The builtin [float(v)], which converts numbers and numeric strings and
    raises on anything else. *)
Variable py_float : pyval -> outcome Q.

(** [Rect(x=float(t["x"]), y=float(t["y"]), w=float(t["w"]),
    h=float(t["h"]))], evaluated from left to right. *)
Definition rect_of_table (t : list (pyval * pyval)) : outcome Rect :=
  vx <- py_item t "x" ;; x <- py_float vx ;;
  vy <- py_item t "y" ;; y <- py_float vy ;;
  vw <- py_item t "w" ;; w <- py_float vw ;;
  vh <- py_item t "h" ;; h <- py_float vh ;;
  Ret (mkRect x y w h).

(** The loop of [_computed_table_rects]. *)
Fixpoint rects_loop (tables : list pyval) (rects : list (string * Rect))
    : outcome (list (string * Rect)) :=
  match tables with
  | [] => Ret rects
  | PDict t :: rest =>
      match py_get t "id" with
      | PStr tid =>
          r <- rect_of_table t ;;
          rects_loop rest (dict_set String.eqb rects tid r)
      | _ => rects_loop rest rects
      end
  | _ :: rest => rects_loop rest rects
  end.

Definition _computed_table_rects (model : list (pyval * pyval))
    : outcome (list (string * Rect)) :=
  match py_get model "computed" with
  | PDict computed =>
      match py_get computed "tables" with
      | PList tables => rects_loop tables []
      | _ => Raise (ValueError "missing computed.tables")
      end
  | _ => Raise (ValueError "missing computed")
  end.
End Floats.

(** ** Vocabulary of the properties *)

(** The consecutive pairs of a path: its segments. *)
Definition segments (path : list Point) : list (Point * Point) :=
  combine path (tl path).

(** Direction of travel from [a] to [b], one sign per axis. *)
Definition direction (a b : Point) : comparison * comparison :=
  (fst a ?= fst b, snd a ?= snd b).

Definition comparison_eqb (c d : comparison) : bool :=
  match c, d with
  | Eq, Eq | Lt, Lt | Gt, Gt => true
  | _, _ => false
  end.

Definition direction_eqb (d e : comparison * comparison) : bool :=
  comparison_eqb (fst d) (fst e) && comparison_eqb (snd d) (snd e).

(** Number of interior points at which the path changes direction. *)
Fixpoint bends (path : list Point) : nat :=
  match path with
  | p0 :: ((p1 :: p2 :: _) as tl) =>
      ((if direction_eqb (direction p0 p1) (direction p1 p2) then 0 else 1)
       + bends tl)%nat
  | _ => 0%nat
  end.

Definition valid_side (s : Side) : Prop :=
  In s ["left"; "right"; "top"; "bottom"]%string.

(** A call that does not end in the invalid-side error. *)
Definition no_side_error {A : Type} (o : outcome A) : Prop :=
  forall msg, o <> Raise (ValueError msg).

(** Concrete diagrams used in the examples below. *)
Definition box_a : Rect := mkRect 0 0 40 20.
Definition box_b : Rect := mkRect 100 0 40 20.
Definition box_b_low : Rect := mkRect 100 50 40 20.
Definition box_b_touching : Rect := mkRect 40 0 40 20.
Definition box_on_goal : Rect := mkRect 90 0 5 20.
Definition box_between : Rect := mkRect 60 (-20) 20 60.

Definition diagram_goal_covered : list (string * Rect) :=
  [("a", box_a); ("b", box_b); ("c", box_on_goal)]%string.

Definition diagram_detour : list (string * Rect) :=
  [("a", box_a); ("b", box_b); ("c", box_between)]%string.

(** The earliest entry of the frontier that has priority [f]. *)
Definition first_with_priority (f : Q) (h : list entry) : option entry :=
  find (fun e => Qeq_bool (fst e) f) h.

(** A search state one step after the start: the node [(0, 0)] has been
    popped and its neighbours are about to be relaxed, the goal being
    [(3, 3)]. *)
Definition tie_state : astar_state := mkState [] [] [((0, 0), 0)] [].
Definition tie_goal : Point := (3, 3).
Definition tie_up : Point := (0, -(1)).
Definition tie_left : Point := (-(1), 0).

(** No point occurs twice in the sequence. *)
Fixpoint pairwise_distinct (l : list Point) : bool :=
  match l with
  | [] => true
  | p :: rest => negb (set_mem point_eqb p rest) && pairwise_distinct rest
  end.

(** What [compress_loop] appends to [out]: the points it keeps. *)
Fixpoint kept (prev : Point) (rest : list Point) : list Point :=
  match rest with
  | p1 :: ((p2 :: _) as tl) =>
      if collinear3 prev p1 p2 then kept prev tl else p1 :: kept p1 tl
  | _ => rest
  end.

(** No interior point of [prev :: l] is collinear with its two
    neighbours. *)
Fixpoint tight (prev : Point) (l : list Point) : Prop :=
  match l with
  | p1 :: ((p2 :: _) as tl) => collinear3 prev p1 p2 = false /\ tight p1 tl
  | _ => True
  end.

(** A path that returns to a point it has left. *)
Definition doubling_back : list Point := [(0, 0); (0, 1); (5, 1); (0, 1)].

(** [edges.get(current, [])] *)
Definition nbrs (edges : list (Point * list Point)) (current : Point)
    : list Point :=
  match dict_get point_eqb edges current with
  | Some l => l
  | None => []
  end.

(** [b] is, as a point, one of the neighbours that [edges] lists for [a]. *)
Definition linked (edges : list (Point * list Point)) (a b : Point) : Prop :=
  exists b', Peq b b' /\ In b' (nbrs edges a).

(** [l] is the chain of predecessors of [current] in [came_from], down to a
    node without predecessor. *)
Fixpoint backlinks (cf : list (Point * Point)) (current : Point)
    (l : list Point) : Prop :=
  match l with
  | [] => dict_get point_eqb cf current = None
  | prev :: rest =>
      dict_get point_eqb cf current = Some prev /\ backlinks cf prev rest
  end.

(** A node the search has reached: the start, or a node with a
    predecessor. *)
Definition known (start : Point) (cf : list (Point * Point)) (n : Point)
    : Prop :=
  Peq n start \/ dict_get point_eqb cf n <> None.

(** What holds of the search state at the head of each iteration of the
    main loop. *)
Record search_inv (start : Point) (edges : list (Point * list Point))
    (st : astar_state) : Prop := mkInv {
  inv_heap : forall e, In e (open_heap st) -> known start (came_from st) (snd e);
  inv_pred : forall n c, dict_get point_eqb (came_from st) n = Some c ->
             known start (came_from st) c /\ linked edges c n;
  inv_start : dict_get point_eqb (came_from st) start = None;
  inv_g_start : exists g, dict_get point_eqb (g_score st) start = Some g /\ g == 0;
  inv_g_pos : forall n g, dict_get point_eqb (g_score st) n = Some g -> 0 <= g
}.

(** [p] lies in the open interior of [r]. *)
Definition strictly_inside (r : Rect) (p : Point) : Prop :=
  (left r < fst p /\ fst p < right r) /\ (top r < snd p /\ snd p < bottom r).

(** The point of the segment from [a] to [b] at parameter [t] in [0, 1]. *)
Definition point_on (a b : Point) (t : Q) : Point :=
  (fst a + t * (fst b - fst a), snd a + t * (snd b - snd a)).

(** No point of any segment of the path lies strictly inside an
    obstacle. *)
Definition path_avoids (obstacles : list Rect) (path : list Point) : Prop :=
  forall a b, In (a, b) (segments path) ->
  forall t, 0 <= t <= 1 ->
  forall r, In r obstacles -> ~ strictly_inside r (point_on a b t).

(** [v] lies between [u] and [w], in either order. *)
Definition between (u w v : Q) : Prop :=
  (u <= v /\ v <= w) \/ (w <= v /\ v <= u).

(** The bounding box of [a] and [b]; for an axis-aligned pair it is the
    segment between them. *)
Definition in_box (a b p : Point) : Prop :=
  between (fst a) (fst b) (fst p) /\ between (snd a) (snd b) (snd p).

Definition box_free (obstacles : list Rect) (a b : Point) : Prop :=
  forall p, in_box a b p ->
  forall r, In r obstacles -> ~ strictly_inside r p.

(** The two points agree on exactly one coordinate. *)
Definition aligned_distinct (a b : Point) : Prop :=
  (fst a == fst b /\ ~ snd a == snd b) \/
  (snd a == snd b /\ ~ fst a == fst b).

Definition good_edge (obstacles : list Rect) (a b : Point) : Prop :=
  aligned_distinct a b /\ box_free obstacles a b.

Definition edges_good (obstacles : list Rect)
    (edges : list (Point * list Point)) : Prop :=
  forall k l v, In (k, l) edges -> In v l -> good_edge obstacles k v.

(** No two elements of the list are equal under [keqb]. *)
Fixpoint distinct {K : Type} (keqb : K -> K -> bool) (l : list K) : bool :=
  match l with
  | [] => true
  | k :: rest => negb (set_mem keqb k rest) && distinct keqb rest
  end.

(** The keys of [group_by coord pts], in order of first occurrence, and the
    members of the group of key [k]. *)
Definition group_keys (coord : Point -> Q) (pts : list Point) : list Q :=
  set_update Qeq_bool [] (map coord pts).

Definition members (coord : Point -> Q) (k : Q) (pts : list Point)
    : list Point :=
  filter (fun p => Qeq_bool (coord p) k) pts.

(** The path that the search finds in [diagram_detour], and what the
    router makes of it. *)
Definition detour_path : list Point :=
  Eval vm_compute in
    match
      (let g := build_grid iter_insertion (40, 20 # 2) (100, 20 # 2)
                  diagram_detour "a" "b" 8 14 in
       _a_star 100 (40, 20 # 2) (100, 20 # 2) (g_nodes g) (g_edges g))
    with
    | Ret (Some path) => path
    | _ => []
    end.

Definition detour_points : list Point :=
  Eval vm_compute in _compress_collinear detour_path.

(** The two points agree on x or on y, and not on both. *)
Definition shares_exactly_one (a b : Point) : bool :=
  xorb (Qeq_bool (fst a) (fst b)) (Qeq_bool (snd a) (snd b)).

Definition axis_aligned (path : list Point) : bool :=
  forallb (fun ab => shares_exactly_one (fst ab) (snd ab)) (segments path).

(** The two points agree on x or on y once rounded for output. *)
Definition rounded_share (a b : Point) : bool :=
  (_round_svg (fst a) =? _round_svg (fst b))%Z
  || (_round_svg (snd a) =? _round_svg (snd b))%Z.

(** A destination whose left side is one margin away from the source's
    right side, a destination a fifth of a unit lower than the source, and
    a diagram in which a third box covers the goal anchor. *)
Definition box_b_near : Rect := mkRect 54 10 40 20.
Definition box_b_tilted : Rect := mkRect 100 (1 # 5) 40 20.
Definition diagram_near_covered : list (string * Rect) :=
  [("a", box_a); ("b", box_b_near); ("c", mkRect 50 15 10 10)]%string.

(** The appends that the construction of [edges] performs, as a list of
    (key, value) pairs, and their effect on the list stored for [a]. *)
Definition append_all (ops : list (Point * Point))
    (d : list (Point * list Point)) : list (Point * list Point) :=
  fold_left (fun d kv => dict_append point_eqb d (fst kv) (snd kv)) ops d.

Definition link_ops (obstacles : list Rect) (ab : Point * Point)
    : list (Point * Point) :=
  if _segment_clear (fst ab) (snd ab) obstacles
  then [(fst ab, snd ab); (snd ab, fst ab)] else [].

Definition line_ops (obstacles : list Rect) (key : Point -> Q)
    (pts : list Point) : list (Point * Point) :=
  flat_map (link_ops obstacles) (segments (sort_by key pts)).

Definition adds (ops : list (Point * Point)) (a : Point) : list Point :=
  flat_map (fun kv => if point_eqb a (fst kv) then [snd kv] else []) ops.

(** The list is in non-decreasing order of [key]. *)
Fixpoint sorted_by {A : Type} (key : A -> Q) (l : list A) : Prop :=
  match l with
  | [] => True
  | a :: rest => (forall b, In b rest -> key a <= key b) /\ sorted_by key rest
  end.

(** The appends as the program performs them: [edges[k]] raises when [k]
    is not a key. *)
Fixpoint append_all_checked (ops : list (Point * Point))
    (d : list (Point * list Point)) : outcome (list (Point * list Point)) :=
  match ops with
  | [] => Ret d
  | kv :: rest =>
      match dict_get point_eqb d (fst kv) with
      | Some l =>
          append_all_checked rest (dict_set point_eqb d (fst kv) (l ++ [snd kv]))
      | None => Raise KeyError
      end
  end.

(** All the appends of [build_edges], columns first. *)
Definition edge_ops (set_iter : forall A : Type, list A -> list A)
    (obstacles : list Rect) (node_set : list Point) : list (Point * Point) :=
  let visit := set_iter Point node_set in
  flat_map (fun g : Q * list Point => line_ops obstacles snd (snd g))
    (group_by fst visit)
  ++ flat_map (fun g : Q * list Point => line_ops obstacles fst (snd g))
       (group_by snd visit).

(** [l1] is obtained from [l2] by dropping elements. *)
Fixpoint subseq (l1 l2 : list Point) : Prop :=
  match l1, l2 with
  | [], _ => True
  | _ :: _, [] => False
  | a :: t1, b :: t2 => (a = b /\ subseq t1 t2) \/ subseq l1 t2
  end.

(** [b] can be reached from [a] along the edges of the graph. *)
Inductive reachable (edges : list (Point * list Point)) (a : Point)
    : Point -> Prop :=
| reach_here : forall b, Peq a b -> reachable edges a b
| reach_step : forall b c,
    reachable edges a b -> linked edges b c -> reachable edges a c.

(** A node that has been given a score. *)
Definition discovered (st : astar_state) (n : Point) : Prop :=
  dict_get point_eqb (g_score st) n <> None.

(** The nodes of the frontier. *)
Definition frontier (st : astar_state) : list Point :=
  map snd (open_heap st).

(** What holds of the frontier at the head of each iteration of the main
    loop: it holds every node at most once, [in_open] is its set of nodes,
    its nodes are scored, and a scored node is either on the frontier or
    has been expanded, in which case it is not the goal and all its
    neighbours are scored.  Inside the loop over the neighbours of
    [current] the last part does not hold of [current] yet; [pending] is
    then [Some current]. *)
Record frontier_inv (start goal : Point) (edges : list (Point * list Point))
    (pending : option Point) (st : astar_state) : Prop := mkFrontierInv {
  fi_distinct : distinct point_eqb (frontier st) = true;
  fi_open : forall n, set_mem point_eqb n (in_open st)
                      = set_mem point_eqb n (frontier st);
  fi_scored : forall n, set_mem point_eqb n (frontier st) = true ->
                        discovered st n;
  fi_start : discovered st start;
  fi_closed : forall n, discovered st n ->
      set_mem point_eqb n (frontier st) = true \/
      (~ Peq n goal /\ forall m, In m (nbrs edges n) -> discovered st m) \/
      (exists c, pending = Some c /\ Peq n c)
}.

(** The graph that the router builds for [diagram_goal_covered], in which
    the goal anchor lies inside a padded box. *)
Definition covered_grid : grid :=
  build_grid iter_insertion (40, 20 # 2) (100, 20 # 2) diagram_goal_covered
    "a" "b" 8 14.

Definition detour_grid : grid :=
  build_grid iter_insertion (40, 20 # 2) (100, 20 # 2) diagram_detour
    "a" "b" 8 14.

(** A relation as the model file writes it. *)
Definition encode_rel (ft : string * string) : pyval :=
  PDict [(PStr "from", PStr (fst ft)); (PStr "to", PStr (snd ft))].

(** The two lines that [_render_paths_block] writes for a relation routed
    as [d]. *)
Definition block_lines (names : list (string * string))
    (rd : (string * string) * string) : list string :=
  [("    # " ++ label_of names (fst (fst rd)) ++ " -> "
     ++ label_of names (snd (fst rd)))%string;
   ("    - d: " ++ snd rd)%string].

(** A relation routed as [d]: both of its ends have a rectangle, and the
    router returns [d] for them. *)
Definition routed (set_iter : forall A : Type, list A -> list A) (fuel : nat)
    (rects : list (string * Rect)) (rel : string * string) (d : string)
    : Prop :=
  exists src dst,
    dict_get String.eqb rects (fst rel) = Some src /\
    dict_get String.eqb rects (snd rel) = Some dst /\
    _route_avoiding_tables set_iter fuel src dst rects (fst rel) (snd rel)
      8 14 = Ret d.

(** No table of [tables] carries the id [k]. *)
Definition no_table_with_id (tables : list pyval) (k : string) : Prop :=
  forall t, In (PDict t) tables -> py_get t "id" <> PStr k.

(** No table of [tables] gives a name to the id [k]. *)
Definition no_name_for (tables : list pyval) (k : string) : Prop :=
  forall t name,
    In (PDict t) tables -> py_get t "id" = PStr k ->
    py_get t "name" <> PStr name.

(** [float] on the numbers of a model file; the examples convert nothing
    else. *)
Definition float_of_number (v : pyval) : outcome Q :=
  match v with
  | PInt n => Ret (inject_Z n)
  | PFloat q => Ret q
  | _ => Raise (ValueError "could not convert to float")
  end.

Definition table_entry (tid : string) (x y w h : Z) : pyval :=
  PDict [(PStr "id", PStr tid); (PStr "x", PInt x); (PStr "y", PInt y);
         (PStr "w", PInt w); (PStr "h", PInt h)].

Definition named_table (tid name : string) : pyval :=
  PDict [(PStr "id", PStr tid); (PStr "name", PStr name)].

Definition model_two_tables : list (pyval * pyval) :=
  [(PStr "tables"%string,
    PList [named_table "a" "users"; PNone; named_table "b" "orders";
           named_table "a" "accounts";
           PDict [(PStr "id"%string, PStr "a"%string)]]);
   (PStr "computed"%string,
    PDict [(PStr "tables"%string,
            PList [table_entry "a" 0 0 40 20; table_entry "b" 100 0 40 20;
                   PStr "note"%string; table_entry "a" 0 50 40 20])]);
   (PStr "relations"%string,
    PList (map encode_rel [("a", "b"); ("b", "a")]%string))].

(** The block of the relations [a -> b] and [c -> a] of [diagram_detour],
    with the table [a] named [users]. *)
Definition detour_block : string :=
  ("  paths:" ++ nl ++
   "    # users -> b" ++ nl ++
   "    - d: M40 10 L52 10 L52 -28 L88 -28 L88 10 L100 10" ++ nl ++
   "    # c -> users" ++ nl ++
   "    - d: M60 10 L40 10" ++ nl)%string.

(** ** Vocabulary of termination *)

(** The points that the search can meet: the start and every point that
    the graph mentions. *)
Definition universe (start : Point) (edges : list (Point * list Point))
    : list Point :=
  start :: flat_map (fun kl => fst kl :: snd kl) edges.

(** The length of a trail, which is listed from its last point back to its
    first. *)
Fixpoint trail_len (p : list Point) : Q :=
  match p with
  | a :: ((b :: _) as tl) => trail_len tl + _manhattan b a
  | _ => 0
  end.

(** Every point of the trail has a score, and that score is at most the
    length of the trail up to this point. *)
Fixpoint scored (gs : list (Point * Q)) (p : list Point) : Prop :=
  match p with
  | [] => True
  | a :: tl =>
      (exists g, dict_get point_eqb gs a = Some g /\ g <= trail_len p) /\
      scored gs tl
  end.

(** The sequences of at most [k] points of [U]. *)
Fixpoint seqs (U : list Point) (k : nat) : list (list Point) :=
  match k with
  | O => [[]]
  | S k' => [] :: flat_map (fun q => map (fun u => u :: q) U) (seqs U k')
  end.

(** The lengths of the trails over [U] that are no longer than [U]; those
    of the trails without repetition are among them. *)
Definition trail_lengths (U : list Point) : list Q :=
  map trail_len (seqs U (List.length U)).

(** How many of the values [M] lie strictly below [g]. *)
Definition count_below (M : list Q) (g : Q) : nat :=
  List.length (filter (fun v => Qltb v g) M).

(** How many times the score of [u] can still improve. *)
Definition slack (M : list Q) (gs : list (Point * Q)) (u : Point) : nat :=
  match dict_get point_eqb gs u with
  | None => S (List.length M)
  | Some g => count_below M g
  end.

Definition potential (U : list Point) (M : list Q) (gs : list (Point * Q))
    : nat :=
  list_sum (map (slack M gs) U).

(** What holds of the scores and of the predecessors throughout the
    search: every score is the length of a trail without repetition over
    the universe, all of whose points are scored; and a predecessor has a
    strictly smaller score. *)
Record score_inv (U : list Point) (st : astar_state) : Prop := mkScoreInv {
  si_trail : forall n g,
    dict_get point_eqb (g_score st) n = Some g ->
    exists a tl,
      Peq a n /\ trail_len (a :: tl) == g /\
      scored (g_score st) (a :: tl) /\
      pairwise_distinct (a :: tl) = true /\
      (forall x, In x (a :: tl) -> set_mem point_eqb x U = true);
  si_pred : forall n c,
    dict_get point_eqb (came_from st) n = Some c ->
    exists gn gc,
      dict_get point_eqb (g_score st) n = Some gn /\
      dict_get point_eqb (g_score st) c = Some gc /\ gc < gn
}.

(** A number of loop iterations that no search from [start] in the graph
    can exceed. *)
Definition fuel_bound (start : Point) (edges : list (Point * list Point))
    : nat :=
  let U := universe start edges in
  let M := trail_lengths U in
  (List.length U * S (List.length M) + List.length M + 2)%nat.

(** * Properties *)

(** ** Comparisons *)

Lemma Qltb_lt (a b : Q) : Qltb a b = true <-> a < b.
Proof.
  unfold Qltb. rewrite negb_true_iff.
  split; intro H.
  - apply Qnot_le_lt. intro Hle. apply Qle_bool_iff in Hle. congruence.
  - destruct (Qle_bool b a) eqn:E; [|reflexivity].
    apply Qle_bool_iff in E. exfalso. apply (Qlt_not_le _ _ H E).
Qed.

Lemma Qltb_ge (a b : Q) : Qltb a b = false <-> b <= a.
Proof.
  unfold Qltb. rewrite negb_false_iff. apply Qle_bool_iff.
Qed.

Lemma Qle_bool_gt (a b : Q) : Qle_bool a b = false <-> b < a.
Proof.
  rewrite <- Qltb_lt. unfold Qltb. rewrite negb_true_iff. reflexivity.
Qed.

Lemma Qeq_bool_false (a b : Q) : Qeq_bool a b = false <-> ~ a == b.
Proof.
  split; intro H.
  - intro E. apply Qeq_bool_iff in E. congruence.
  - destruct (Qeq_bool a b) eqn:E; [|reflexivity].
    apply Qeq_bool_iff in E. contradiction.
Qed.

Lemma point_eqb_Peq (a b : Point) : point_eqb a b = true <-> Peq a b.
Proof.
  unfold point_eqb, Peq. rewrite andb_true_iff, !Qeq_bool_iff. reflexivity.
Qed.

Lemma point_eqb_false (a b : Point) : point_eqb a b = false <-> ~ Peq a b.
Proof.
  rewrite <- point_eqb_Peq. destruct (point_eqb a b); split; congruence.
Qed.

Lemma Peq_refl (a : Point) : Peq a a.
Proof. split; reflexivity. Qed.

Lemma Peq_sym (a b : Point) : Peq a b -> Peq b a.
Proof. intros [H1 H2]; split; symmetry; assumption. Qed.

Lemma Peq_trans (a b c : Point) : Peq a b -> Peq b c -> Peq a c.
Proof. intros [H1 H2] [H3 H4]; split; etransitivity; eassumption. Qed.

#[export] Instance Peq_Equivalence : Equivalence Peq.
Proof.
  split; [exact Peq_refl | exact Peq_sym | exact Peq_trans].
Qed.

(** ** Side selection and anchors *)

Lemma pick_sides_cases (src dst : Rect) :
  _pick_sides src dst = ("right", "left")%string \/
  _pick_sides src dst = ("left", "right")%string \/
  _pick_sides src dst = ("bottom", "top")%string \/
  _pick_sides src dst = ("top", "bottom")%string.
Proof.
  unfold _pick_sides.
  destruct (Qle_bool _ _); destruct (Qle_bool 0 _); auto.
Qed.

Lemma endpoints_cases (src dst : Rect) :
  endpoints src dst = Ret ((right src, cy src), (left dst, cy dst)) \/
  endpoints src dst = Ret ((left src, cy src), (right dst, cy dst)) \/
  endpoints src dst = Ret ((cx src, bottom src), (cx dst, top dst)) \/
  endpoints src dst = Ret ((cx src, top src), (cx dst, bottom dst)).
Proof.
  unfold endpoints.
  destruct (pick_sides_cases src dst) as [E|[E|[E|E]]]; rewrite E; simpl; auto.
Qed.

(** The shapes of the direct router's path: a straight shot, or an elbow
    through a middle line. *)
Lemma orthogonal_points_shape (src dst : Rect) (margin : Q) :
  exists s e, endpoints src dst = Ret (s, e) /\
    (orthogonal_points src dst margin = Ret [s; e] /\
       ((fst (_pick_sides src dst) = "right"%string \/ fst (_pick_sides src dst) = "left"%string) /\
          _round_svg (snd s) = _round_svg (snd e)
        \/ (fst (_pick_sides src dst) = "bottom"%string \/ fst (_pick_sides src dst) = "top"%string) /\
          _round_svg (fst s) = _round_svg (fst e))
     \/ (exists mid_x,
          orthogonal_points src dst margin
            = Ret [s; (mid_x, snd s); (mid_x, snd e); e] /\
          _round_svg (snd s) <> _round_svg (snd e))
     \/ (exists mid_y,
          orthogonal_points src dst margin
            = Ret [s; (fst s, mid_y); (fst e, mid_y); e] /\
          _round_svg (fst s) <> _round_svg (fst e))).
Proof.
  unfold endpoints, orthogonal_points.
  destruct (pick_sides_cases src dst) as [E|[E|[E|E]]]; rewrite E; cbn;
    eexists; eexists; (split; [reflexivity|]); cbn [fst snd];
    match goal with
    | |- context [(?a =? ?b)%Z] => destruct (Z.eqb_spec a b) as [R|R]
    end; eauto 10.
Qed.

Lemma orthogonal_points_total (src dst : Rect) (margin : Q) :
  exists pts, orthogonal_points src dst margin = Ret pts /\
              (length pts = 2 \/ length pts = 4)%nat.
Proof.
  destruct (orthogonal_points_shape src dst margin)
    as (s & e & _ & [[H _]|[(m & H & _)|(m & H & _)]]);
    rewrite H; eexists; split; eauto.
Qed.

(** Fallback totality: the direct router returns a string, whatever the
    rectangles. *)
Lemma orthogonal_path_total (src dst : Rect) (margin : Q) :
  exists d, _orthogonal_path src dst margin = Ret d.
Proof.
  unfold _orthogonal_path.
  destruct (orthogonal_points_total src dst margin) as (pts & H & L).
  rewrite H. cbn. destruct pts; [cbn in L; lia|]. cbn. eauto.
Qed.

(** Scenario A of the specification: facing boxes at the same height are
    joined by a straight two-point path. *)
Example scenario_a :
  _orthogonal_path box_a box_b 14 = Ret "M40 10 L100 10"%string.
Proof. vm_compute. reflexivity. Qed.

(** Scenario B: a box between the two is passed by a detour. *)
Example scenario_b :
  _route_avoiding_tables iter_insertion 100 box_a box_b diagram_detour
    "a" "b" 8 14
  = Ret "M40 10 L52 10 L52 -28 L88 -28 L88 10 L100 10"%string.
Proof. vm_compute. reflexivity. Qed.

(** ** The search never raises the invalid-side error *)

Lemma relax_no_side_error goal current st nxt :
  no_side_error (relax goal current st nxt).
Proof.
  intros msg. unfold relax.
  destruct (dict_get _ _ current); [|discriminate].
  destruct (match dict_get _ _ nxt with Some _ => _ | None => _ end);
    [destruct (negb _)|]; discriminate.
Qed.

Lemma relax_all_no_side_error goal current nbrs :
  forall st, no_side_error (relax_all goal current st nbrs).
Proof.
  induction nbrs as [|n rest IH]; intros st msg; cbn; [discriminate|].
  destruct (relax goal current st n) eqn:E; cbn; [apply IH| |discriminate].
  intro H; inversion H; subst. exact (relax_no_side_error _ _ _ _ _ E).
Qed.

Lemma walk_back_no_side_error cf :
  forall fuel current path, no_side_error (walk_back fuel cf current path).
Proof.
  induction fuel as [|fuel IH]; intros current path msg; cbn;
    destruct (dict_get _ cf current); try discriminate.
  apply IH.
Qed.

Lemma a_star_loop_no_side_error goal edges :
  forall fuel st, no_side_error (a_star_loop fuel goal edges st).
Proof.
  induction fuel as [|fuel IH]; intros st msg; cbn;
    destruct (heappop _) as [[[f current] heap']|]; try discriminate.
  destruct (point_eqb current goal).
  - destruct (walk_back _ _ _ _) eqn:E; cbn; try discriminate.
    intro H; inversion H; subst. exact (walk_back_no_side_error _ _ _ _ _ E).
  - destruct (relax_all _ _ _ _) eqn:E; cbn; [apply IH| |discriminate].
    intro H; inversion H; subst. exact (relax_all_no_side_error _ _ _ _ _ E).
Qed.

Lemma render_d_no_side_error pts : no_side_error (render_d pts).
Proof. intros msg. destruct pts; discriminate. Qed.

Lemma orthogonal_path_no_side_error src dst margin :
  no_side_error (_orthogonal_path src dst margin).
Proof.
  intros msg. destruct (orthogonal_path_total src dst margin) as [d H].
  rewrite H. discriminate.
Qed.

(** C9.  The side selector only returns the four sides, so [_anchor] never
    reaches its [raise]: both anchors are computed, and neither the direct
    router nor the grid router ends in the invalid-side error. *)
Theorem C9_invalid_side_unreachable (src dst : Rect) :
  valid_side (fst (_pick_sides src dst)) /\
  valid_side (snd (_pick_sides src dst)) /\
  (exists s e, _anchor src (fst (_pick_sides src dst)) = Ret s /\
               _anchor dst (snd (_pick_sides src dst)) = Ret e) /\
  (forall margin, no_side_error (_orthogonal_path src dst margin)) /\
  (forall set_iter fuel all_table_rects src_id dst_id pad margin,
     no_side_error
       (_route_avoiding_tables set_iter fuel src dst all_table_rects
          src_id dst_id pad margin)).
Proof.
  repeat split.
  - destruct (pick_sides_cases src dst) as [E|[E|[E|E]]]; rewrite E;
      unfold valid_side; cbn; auto.
  - destruct (pick_sides_cases src dst) as [E|[E|[E|E]]]; rewrite E;
      unfold valid_side; cbn; auto.
  - destruct (pick_sides_cases src dst) as [E|[E|[E|E]]]; rewrite E;
      cbn; eauto.
  - intro margin. apply orthogonal_path_no_side_error.
  - intros set_iter fuel all_table_rects src_id dst_id pad margin msg.
    unfold _route_avoiding_tables.
    destruct (endpoints_cases src dst) as [E|[E|[E|E]]]; rewrite E; cbn;
      match goal with
      | |- context [_a_star ?f ?s ?g ?n ?e] =>
          destruct (_a_star f s g n e) as [[[|p path]|]| |] eqn:A; cbn;
          try discriminate;
          try apply orthogonal_path_no_side_error;
          try apply render_d_no_side_error;
          try (intro H; inversion H; subst;
               exact (a_star_loop_no_side_error _ _ _ _ _ A))
      end.
Qed.

(** ** Bends of the direct router's path *)

Lemma bends_le_interior (path : list Point) :
  (bends path <= length path - 2)%nat.
Proof.
  induction path as [|p0 [|p1 [|p2 rest]] IH]; cbn in *; try lia.
  destruct (direction_eqb _ _); lia.
Qed.

(** C3, as stated, fails: boxes that are not at the same height are joined
    by a Z-shaped elbow of four points, which turns twice. *)
Lemma C3_counterexample :
  orthogonal_points box_a box_b_low 14
    = Ret [(40, 20 # 2); (140 # 2, 20 # 2); (140 # 2, 120 # 2); (100, 120 # 2)]
  /\ bends [(40, 20 # 2); (140 # 2, 20 # 2); (140 # 2, 120 # 2); (100, 120 # 2)]
     = 2%nat
  /\ ~ (forall src dst margin pts,
         orthogonal_points src dst margin = Ret pts -> (bends pts <= 1)%nat).
Proof.
  split; [vm_compute; reflexivity|]. split; [vm_compute; reflexivity|].
  intro H.
  specialize (H box_a box_b_low 14 _ eq_refl).
  vm_compute in H. lia.
Qed.

(** C3, amended.  For every pair of rectangles and every margin the direct
    router returns a path of two or four points, hence with at most two
    intermediate bends; it takes no other rectangle as input. *)
Theorem C3_at_most_two_bends (src dst : Rect) (margin : Q) :
  exists pts, orthogonal_points src dst margin = Ret pts /\
              (length pts = 2 \/ length pts = 4)%nat /\
              (bends pts <= 2)%nat.
Proof.
  destruct (orthogonal_points_total src dst margin) as (pts & H & L).
  exists pts. repeat split; try assumption.
  pose proof (bends_le_interior pts). lia.
Qed.

(** ** Start equal to goal *)

Lemma entry_eqb_refl (e : entry) : entry_eqb e e = true.
Proof.
  unfold entry_eqb, point_eqb. rewrite !Qeq_bool_refl. reflexivity.
Qed.

Lemma a_star_start_is_goal (fuel : nat) (start goal : Point) nodes edges :
  Peq start goal ->
  _a_star (S fuel) start goal nodes edges = Ret (Some [start]).
Proof.
  intro H. apply point_eqb_Peq in H.
  unfold _a_star. cbn. rewrite entry_eqb_refl. cbn. rewrite H.
  destruct fuel; reflexivity.
Qed.

(** C10.  When the two anchors are the same point the search returns the
    one-point path [[start]] and the grid router's output is the single
    move command to it. *)
Theorem C10_single_point_path set_iter (fuel : nat) (src dst : Rect)
    (all_table_rects : list (string * Rect)) (src_id dst_id : string)
    (pad margin : Q) (start goal : Point) :
  endpoints src dst = Ret (start, goal) ->
  Peq start goal ->
  (forall nodes edges,
     _a_star (S fuel) start goal nodes edges = Ret (Some [start])) /\
  _route_avoiding_tables set_iter (S fuel) src dst all_table_rects
    src_id dst_id pad margin
  = Ret ("M" ++ py_str (_round_svg (fst start)) ++ " "
             ++ py_str (_round_svg (snd start)))%string.
Proof.
  intros E H. split.
  - intros nodes edges. apply a_star_start_is_goal; assumption.
  - unfold _route_avoiding_tables. rewrite E. cbn [bind].
    rewrite a_star_start_is_goal by assumption. reflexivity.
Qed.

Lemma C10_witness :
  _route_avoiding_tables iter_insertion 1 box_a box_b_touching
    diagram_detour "a" "b" 8 14
  = Ret "M40 10"%string.
Proof.
  apply (C10_single_point_path iter_insertion 0 box_a box_b_touching
           diagram_detour "a" "b" 8 14 (40 + 0, 0 + 20 / 2) (40, 0 + 20 / 2)).
  - reflexivity.
  - split; reflexivity.
Defined.

(** ** Fallback *)

(** C2.  When the search over the constructed graph finds no path, the grid
    router returns what the direct router returns for the same rectangles
    and margin, and that is a path string, not an error. *)
Theorem C2_fallback_on_no_path set_iter (fuel : nat) (src dst : Rect)
    (all_table_rects : list (string * Rect)) (src_id dst_id : string)
    (pad margin : Q) (start goal : Point) :
  endpoints src dst = Ret (start, goal) ->
  (let g := build_grid set_iter start goal all_table_rects src_id dst_id
              pad margin in
   _a_star fuel start goal (g_nodes g) (g_edges g) = Ret None) ->
  _route_avoiding_tables set_iter fuel src dst all_table_rects
    src_id dst_id pad margin
  = _orthogonal_path src dst margin /\
  exists d, _orthogonal_path src dst margin = Ret d.
Proof.
  intros E A. split.
  - unfold _route_avoiding_tables. rewrite E. cbn [bind]. cbv zeta in A.
    rewrite A. reflexivity.
  - apply orthogonal_path_total.
Qed.

Lemma C2_witness :
  _route_avoiding_tables iter_insertion 100 box_a box_b diagram_goal_covered
    "a" "b" 8 14
  = _orthogonal_path box_a box_b 14 /\
  exists d, _orthogonal_path box_a box_b 14 = Ret d.
Proof.
  apply (C2_fallback_on_no_path iter_insertion 100 box_a box_b
           diagram_goal_covered "a" "b" 8 14
           (0 + 40, 0 + 20 / 2) (100, 0 + 20 / 2)).
  - reflexivity.
  - vm_compute. reflexivity.
Defined.

(** ** Order of the frontier *)

Ltac bool_to_Prop :=
  repeat match goal with
  | H : Qltb _ _ = true |- _ => apply Qltb_lt in H
  | H : Qltb _ _ = false |- _ => apply Qltb_ge in H
  | H : Qeq_bool _ _ = true |- _ => apply Qeq_bool_iff in H
  | H : Qeq_bool _ _ = false |- _ => apply Qeq_bool_false in H
  | H : Qle_bool _ _ = true |- _ => apply Qle_bool_iff in H
  | H : Qle_bool _ _ = false |- _ => apply Qle_bool_gt in H
  end.

Ltac case_tests :=
  repeat match goal with
  | |- context [Qltb ?a ?b] => destruct (Qltb a b) eqn:?
  | |- context [Qeq_bool ?a ?b] => destruct (Qeq_bool a b) eqn:?
  | |- context [Qle_bool ?a ?b] => destruct (Qle_bool a b) eqn:?
  end.

Lemma entry_ltb_true (a b : entry) :
  entry_ltb a b = true <->
  fst a < fst b \/
  (fst a == fst b /\
   (fst (snd a) < fst (snd b) \/
    (fst (snd a) == fst (snd b) /\ snd (snd a) < snd (snd b)))).
Proof.
  unfold entry_ltb, point_ltb.
  rewrite !orb_true_iff, !andb_true_iff, !orb_true_iff, !andb_true_iff,
    !Qltb_lt, !Qeq_bool_iff.
  reflexivity.
Qed.

Lemma entry_ltb_irrefl (a : entry) : entry_ltb a a = false.
Proof.
  apply not_true_iff_false. rewrite entry_ltb_true. lra.
Qed.

(** [entry_ltb b a = false] reads [a <= b]; the relation is transitive. *)
Lemma entry_le_trans (a b c : entry) :
  entry_ltb b a = false -> entry_ltb c b = false -> entry_ltb c a = false.
Proof.
  rewrite <- !not_true_iff_false, !entry_ltb_true. lra.
Qed.

Lemma entry_ltb_false_of_lt (a b : entry) :
  entry_ltb a b = true -> entry_ltb b a = false.
Proof.
  rewrite <- !not_true_iff_false, !entry_ltb_true. lra.
Qed.

Lemma heap_least_spec (h : list entry) :
  forall best,
    In (heap_least best h) (best :: h) /\
    forall e, In e (best :: h) -> entry_ltb e (heap_least best h) = false.
Proof.
  induction h as [|e rest IH]; intros best; cbn [heap_least].
  - split; [left; reflexivity|].
    intros e [<-|[]]. apply entry_ltb_irrefl.
  - destruct (IH (if entry_ltb e best then e else best)) as [Hin Hle].
    split.
    + destruct Hin as [Hin|Hin]; [|right; right; exact Hin].
      rewrite <- Hin. destruct (entry_ltb e best); cbn; auto.
    + intros e' He'.
      assert (Hb : entry_ltb (if entry_ltb e best then e else best)
                     (heap_least (if entry_ltb e best then e else best) rest)
                   = false) by (apply Hle; left; reflexivity).
      destruct He' as [<-|[<-|He']].
      * eapply entry_le_trans; [exact Hb|].
        destruct (entry_ltb e best) eqn:E.
        -- apply entry_ltb_false_of_lt. exact E.
        -- apply entry_ltb_irrefl.
      * eapply entry_le_trans; [exact Hb|].
        destruct (entry_ltb e best) eqn:E.
        -- apply entry_ltb_irrefl.
        -- exact E.
      * apply Hle. right. exact He'.
Qed.

(** C7, as stated, fails.  Relaxing the neighbours [(0, -1)] and [(-1, 0)]
    of the start pushes two entries of priority 8, in that order; the pop
    that follows returns the second one, whose node is the smaller tuple. *)
Lemma C7_counterexample :
  exists st,
    relax_all tie_goal (0, 0) tie_state [tie_up; tie_left] = Ret st /\
    open_heap st = [(8, tie_up); (8, tie_left)] /\
    heappop (open_heap st) = Some ((8, tie_left), [(8, tie_up)]) /\
    first_with_priority 8 (open_heap st) = Some (8, tie_up).
Proof.
  eexists. split; [vm_compute; reflexivity|].
  repeat split; vm_compute; reflexivity.
Qed.

(** C7, amended.  [heappop] returns the least frontier entry under tuple
    comparison of [(priority, (x, y))]: among entries of equal priority the
    one whose node is the smallest tuple is popped first. *)
Theorem C7_pop_least_tuple (h : list entry) (e : entry) (rest : list entry) :
  heappop h = Some (e, rest) ->
  In e h /\
  forall e', In e' h ->
    entry_ltb e' e = false /\
    (fst e' == fst e -> point_ltb (snd e') (snd e) = false).
Proof.
  unfold heappop. destruct h as [|e0 h]; [discriminate|].
  intro H. inversion H; subst; clear H.
  destruct (heap_least_spec h e0) as [Hin Hle].
  split; [exact Hin|].
  intros e' He'. specialize (Hle e' He'). split; [exact Hle|].
  intro Hf. unfold entry_ltb in Hle.
  apply orb_false_iff in Hle. destruct Hle as [_ Hle].
  apply Qeq_bool_iff in Hf. rewrite Hf in Hle. exact Hle.
Qed.

Lemma C7_witness :
  In (8, tie_left) [(8, tie_up); (8, tie_left)] /\
  forall e', In e' [(8, tie_up); (8, tie_left)] ->
    entry_ltb e' (8, tie_left) = false /\
    (fst e' == fst (8, tie_left) ->
     point_ltb (snd e') (snd (8, tie_left)) = false).
Proof.
  apply (C7_pop_least_tuple [(8, tie_up); (8, tie_left)] (8, tie_left)
           [(8, tie_up)]).
  reflexivity.
Defined.

(** ** Collinear compression *)

Lemma compress_loop_step out prev p1 p2 tl :
  compress_loop out prev (p1 :: p2 :: tl)
  = if collinear3 prev p1 p2 then compress_loop out prev (p2 :: tl)
    else compress_loop (out ++ [p1]) p1 (p2 :: tl).
Proof. reflexivity. Qed.

Lemma kept_step prev p1 p2 tl :
  kept prev (p1 :: p2 :: tl)
  = if collinear3 prev p1 p2 then kept prev (p2 :: tl)
    else p1 :: kept p1 (p2 :: tl).
Proof. reflexivity. Qed.

Lemma compress_loop_kept (rest : list Point) :
  forall out prev, compress_loop out prev rest = out ++ kept prev rest.
Proof.
  induction rest as [|p1 rest IH]; intros out prev; [reflexivity|].
  destruct rest as [|p2 tl]; [reflexivity|].
  rewrite compress_loop_step, kept_step.
  destruct (collinear3 prev p1 p2).
  - apply IH.
  - rewrite IH, <- app_assoc. reflexivity.
Qed.

Lemma compress_kept (p0 : Point) (rest : list Point) :
  _compress_collinear (p0 :: rest) = p0 :: kept p0 rest.
Proof.
  unfold _compress_collinear.
  destruct rest as [|p1 [|p2 tl]]; try reflexivity.
  exact (compress_loop_kept (p1 :: p2 :: tl) [p0] p0).
Qed.

Lemma collinear3_true (p0 p1 p2 : Point) :
  collinear3 p0 p1 p2 = true <->
  (fst p0 == fst p1 /\ fst p1 == fst p2) \/
  (snd p0 == snd p1 /\ snd p1 == snd p2).
Proof.
  unfold collinear3.
  rewrite orb_true_iff, !andb_true_iff, !Qeq_bool_iff. reflexivity.
Qed.

Lemma collinear3_false (p0 p1 p2 : Point) :
  collinear3 p0 p1 p2 = false <->
  ~ (fst p0 == fst p1 /\ fst p1 == fst p2) /\
  ~ (snd p0 == snd p1 /\ snd p1 == snd p2).
Proof.
  rewrite <- not_true_iff_false, collinear3_true. tauto.
Qed.

Lemma set_mem_false (p : Point) (l : list Point) :
  set_mem point_eqb p l = false <-> forall q, In q l -> ~ Peq p q.
Proof.
  unfold set_mem. induction l as [|a l IH]; cbn.
  - split; [intros _ q []|reflexivity].
  - rewrite orb_false_iff, IH, point_eqb_false. split.
    + intros [H1 H2] q [<-|Hq]; auto.
    + intros H. split; [apply H; left; reflexivity|].
      intros q Hq. apply H. right. exact Hq.
Qed.

Lemma set_mem_true (p : Point) (l : list Point) :
  set_mem point_eqb p l = true <-> exists q, In q l /\ Peq p q.
Proof.
  unfold set_mem. rewrite existsb_exists.
  split; intros (q & Hq & E); exists q; split; auto; apply point_eqb_Peq; auto.
Qed.

Lemma pairwise_distinct_cons (p : Point) (l : list Point) :
  pairwise_distinct (p :: l) = true <->
  (forall q, In q l -> ~ Peq p q) /\ pairwise_distinct l = true.
Proof.
  cbn. rewrite andb_true_iff, negb_true_iff, set_mem_false. reflexivity.
Qed.

Lemma kept_In (rest : list Point) :
  forall prev p, In p (kept prev rest) -> In p rest.
Proof.
  induction rest as [|p1 rest IH]; intros prev p H; [exact H|].
  destruct rest as [|p2 tl]; [exact H|].
  rewrite kept_step in H. destruct (collinear3 prev p1 p2).
  - right. eapply IH. exact H.
  - destruct H as [<-|H]; [left; reflexivity|].
    right. eapply IH. exact H.
Qed.

(** The first point kept after [prev] lies on the axis line through [prev]
    and the first candidate, unless it is that candidate. *)
Lemma kept_head (tl : list Point) :
  forall prev q,
    (forall p, In p (q :: tl) -> ~ Peq prev p) ->
    exists h t, kept prev (q :: tl) = h :: t /\
      (h = q \/
       (fst prev == fst q /\ fst prev == fst h) \/
       (snd prev == snd q /\ snd prev == snd h)).
Proof.
  induction tl as [|q2 tl IH]; intros prev q Hd.
  - exists q, []. split; [reflexivity|left; reflexivity].
  - rewrite kept_step. destruct (collinear3 prev q q2) eqn:C.
    + destruct (IH prev q2) as (h & t & E & Hh).
      { intros p Hp. apply Hd. right. exact Hp. }
      exists h, t. split; [exact E|].
      apply collinear3_true in C.
      assert (Hq2 : ~ Peq prev q2) by (apply Hd; right; left; reflexivity).
      unfold Peq in Hq2. right.
      destruct Hh as [->|[[H1 H2]|[H1 H2]]];
        destruct C as [[C1 C2]|[C1 C2]];
        try (left; split; lra); try (right; split; lra);
        exfalso; apply Hq2; split; lra.
    + eexists; eexists. split; [reflexivity|left; reflexivity].
Qed.

Lemma kept_tight (n : nat) :
  forall rest prev,
    (length rest <= n)%nat ->
    (forall p, In p rest -> ~ Peq prev p) ->
    pairwise_distinct rest = true ->
    tight prev (kept prev rest).
Proof.
  induction n as [|n IH]; intros rest prev Hlen Hprev Hd.
  - destruct rest; [exact I|cbn in Hlen; lia].
  - destruct rest as [|p1 [|p2 tl]]; [exact I|exact I|].
    rewrite kept_step.
    apply pairwise_distinct_cons in Hd. destruct Hd as [Hp1 Hd].
    destruct (collinear3 prev p1 p2) eqn:C.
    + apply IH; [cbn in *; lia| |exact Hd].
      intros p Hp. apply Hprev. right. exact Hp.
    + destruct (kept_head tl p1 p2 Hp1) as (h & t & E & Hh).
      assert (Ht : tight p1 (kept p1 (p2 :: tl))).
      { apply IH; [cbn in *; lia|exact Hp1|exact Hd]. }
      rewrite E in *. cbn [tight]. split; [|exact Ht].
      assert (Hin : In h (p2 :: tl)).
      { apply (kept_In _ p1). rewrite E. left. reflexivity. }
      specialize (Hp1 h Hin). unfold Peq in Hp1.
      apply collinear3_false in C. apply collinear3_false.
      destruct Hh as [->|[[H1 H2]|[H1 H2]]]; [exact C| |];
        split; intros [A B]; destruct C as [C1 C2].
      * apply C1. split; lra.
      * apply Hp1. split; lra.
      * apply Hp1. split; lra.
      * apply C2. split; lra.
Qed.

Lemma kept_of_tight (l : list Point) :
  forall prev, tight prev l -> kept prev l = l.
Proof.
  induction l as [|p1 l IH]; intros prev H; [reflexivity|].
  destruct l as [|p2 tl]; [reflexivity|].
  destruct H as [C H]. rewrite kept_step, C.
  f_equal. apply IH. exact H.
Qed.

(** C6, as stated, fails: a path that comes back to a point it has left
    is compressed to a sequence with a repeated point, which a second pass
    shortens again. *)
Lemma C6_counterexample :
  (2 <= length doubling_back)%nat /\
  _compress_collinear doubling_back = [(0, 0); (0, 1); (0, 1)] /\
  _compress_collinear (_compress_collinear doubling_back) = [(0, 0); (0, 1)] /\
  _compress_collinear (_compress_collinear doubling_back)
    <> _compress_collinear doubling_back.
Proof.
  repeat split; try (vm_compute; reflexivity).
  - vm_compute. lia.
  - vm_compute. discriminate.
Qed.

(** C6, amended.  On every point sequence of length at least 2 in which no
    point occurs twice, compressing the compressed sequence returns it
    unchanged. *)
Theorem C6_idempotent_on_distinct (p : list Point) :
  (2 <= length p)%nat ->
  pairwise_distinct p = true ->
  _compress_collinear (_compress_collinear p) = _compress_collinear p.
Proof.
  intros _ Hd. destruct p as [|p0 rest]; [reflexivity|].
  rewrite !compress_kept. f_equal.
  apply kept_of_tight.
  apply pairwise_distinct_cons in Hd. destruct Hd as [H0 Hd].
  apply (kept_tight (length rest)); auto.
Qed.

Lemma C6_witness :
  _compress_collinear (_compress_collinear [(0, 0); (0, 1); (0, 2); (5, 2)])
  = _compress_collinear [(0, 0); (0, 1); (0, 2); (5, 2)].
Proof.
  apply (C6_idempotent_on_distinct [(0, 0); (0, 1); (0, 2); (5, 2)]).
  - cbn. lia.
  - vm_compute. reflexivity.
Defined.

(** ** Dictionaries searched up to an equivalence of keys *)

Section DictFacts.
Context {K V : Type} (keqb : K -> K -> bool).
Hypothesis keqb_refl : forall a, keqb a a = true.
Hypothesis keqb_sym : forall a b, keqb a b = keqb b a.
Hypothesis keqb_trans :
  forall a b c, keqb a b = true -> keqb b c = true -> keqb a c = true.

Lemma keqb_congr (a b c : K) : keqb a b = true -> keqb a c = keqb b c.
Proof.
  intro H. destruct (keqb b c) eqn:E.
  - eapply keqb_trans; eassumption.
  - destruct (keqb a c) eqn:F; [|reflexivity].
    rewrite <- E. symmetry. eapply keqb_trans; [|exact F].
    rewrite keqb_sym. exact H.
Qed.

Lemma dict_get_congr (d : list (K * V)) (k k' : K) :
  keqb k k' = true -> dict_get keqb d k = dict_get keqb d k'.
Proof.
  intro H. induction d as [|[k0 v] d IH]; cbn; [reflexivity|].
  rewrite (keqb_congr k k' k0 H), IH. reflexivity.
Qed.

Lemma dict_get_set (d : list (K * V)) (k : K) (v : V) (k' : K) :
  dict_get keqb (dict_set keqb d k v) k'
  = if keqb k' k then Some v else dict_get keqb d k'.
Proof.
  induction d as [|[k0 v0] d IH]; cbn.
  - destruct (keqb k' k); reflexivity.
  - destruct (keqb k k0) eqn:E; cbn.
    + destruct (keqb k' k0) eqn:F.
      * rewrite (keqb_trans k' k0 k F); [reflexivity|].
        rewrite keqb_sym. exact E.
      * destruct (keqb k' k) eqn:G; [|reflexivity].
        rewrite (keqb_trans k' k k0 G E) in F. discriminate.
    + destruct (keqb k' k0) eqn:F.
      * destruct (keqb k' k) eqn:G; [|reflexivity].
        rewrite keqb_sym in G.
        rewrite (keqb_trans k k' k0 G F) in E. discriminate.
      * exact IH.
Qed.

Lemma dict_get_In (d : list (K * V)) (k : K) (v : V) :
  dict_get keqb d k = Some v ->
  exists k', In (k', v) d /\ keqb k k' = true.
Proof.
  induction d as [|[k0 v0] d IH]; cbn; [discriminate|].
  destruct (keqb k k0) eqn:E.
  - intro H. inversion H; subst. exists k0. auto.
  - intro H. destruct (IH H) as (k' & Hin & Hk). exists k'. auto.
Qed.

Lemma dict_set_In (d : list (K * V)) (k : K) (v : V) (k' : K) (v' : V) :
  In (k', v') (dict_set keqb d k v) ->
  In (k', v') d \/ (v' = v /\ keqb k k' = true).
Proof.
  induction d as [|[k0 v0] d IH]; cbn.
  - intros [H|[]]. inversion H; subst. right. auto.
  - destruct (keqb k k0) eqn:E; cbn.
    + intros [H|H]; [|auto]. inversion H; subst. right. auto.
    + intros [H|H]; [auto|]. destruct (IH H) as [H'|H']; auto.
Qed.
End DictFacts.

Lemma point_eqb_refl (a : Point) : point_eqb a a = true.
Proof. apply point_eqb_Peq. reflexivity. Qed.

Lemma point_eqb_sym (a b : Point) : point_eqb a b = point_eqb b a.
Proof.
  destruct (point_eqb b a) eqn:E.
  - apply point_eqb_Peq. symmetry. apply point_eqb_Peq. exact E.
  - apply point_eqb_false. intro H. apply point_eqb_false in E. apply E.
    symmetry. exact H.
Qed.

Lemma point_eqb_trans (a b c : Point) :
  point_eqb a b = true -> point_eqb b c = true -> point_eqb a c = true.
Proof.
  rewrite !point_eqb_Peq. apply Peq_trans.
Qed.

Lemma Qeq_bool_sym' (a b : Q) : Qeq_bool a b = Qeq_bool b a.
Proof.
  destruct (Qeq_bool b a) eqn:E.
  - apply Qeq_bool_iff. symmetry. apply Qeq_bool_iff. exact E.
  - apply Qeq_bool_false. intro H. apply Qeq_bool_false in E. apply E.
    symmetry. exact H.
Qed.

Lemma Qeq_bool_trans' (a b c : Q) :
  Qeq_bool a b = true -> Qeq_bool b c = true -> Qeq_bool a c = true.
Proof.
  rewrite !Qeq_bool_iff. intros H1 H2. rewrite H1. exact H2.
Qed.

Lemma pget_congr {V : Type} (d : list (Point * V)) (k k' : Point) :
  Peq k k' -> dict_get point_eqb d k = dict_get point_eqb d k'.
Proof.
  intro H. apply (dict_get_congr point_eqb point_eqb_sym point_eqb_trans).
  apply point_eqb_Peq. exact H.
Qed.

Lemma pget_set {V : Type} (d : list (Point * V)) (k : Point) (v : V)
    (k' : Point) :
  dict_get point_eqb (dict_set point_eqb d k v) k'
  = if point_eqb k' k then Some v else dict_get point_eqb d k'.
Proof.
  apply (dict_get_set point_eqb point_eqb_sym point_eqb_trans).
Qed.

Lemma pget_In {V : Type} (d : list (Point * V)) (k : Point) (v : V) :
  dict_get point_eqb d k = Some v -> exists k', In (k', v) d /\ Peq k k'.
Proof.
  intro H. destruct (dict_get_In point_eqb d k v H) as (k' & Hin & E).
  exists k'. split; [exact Hin|]. apply point_eqb_Peq. exact E.
Qed.

(** ** Invariant of the search *)

Lemma manhattan_nonneg (a b : Point) : 0 <= _manhattan a b.
Proof.
  unfold _manhattan.
  pose proof (Qabs_nonneg (fst a - fst b)).
  pose proof (Qabs_nonneg (snd a - snd b)). lra.
Qed.

Lemma known_set start cf k v n :
  known start cf n -> known start (dict_set point_eqb cf k v) n.
Proof.
  intros [H|H]; [left; exact H|right].
  rewrite pget_set. destruct (point_eqb n k); [discriminate|exact H].
Qed.

Lemma known_congr start cf n n' :
  Peq n n' -> known start cf n -> known start cf n'.
Proof.
  intros E [H|H].
  - left. rewrite <- E. exact H.
  - right. rewrite <- (pget_congr cf n n' E). exact H.
Qed.

Lemma linked_congr edges a b b' :
  Peq b b' -> linked edges a b -> linked edges a b'.
Proof.
  intros E (c & H & Hin). exists c. split; [|exact Hin].
  rewrite <- E. exact H.
Qed.

(** One relaxation keeps the invariant; the heap only grows, by an entry
    for [nxt]. *)
Lemma relax_inv start goal edges current st nxt st' :
  search_inv start edges st ->
  known start (came_from st) current ->
  In nxt (nbrs edges current) ->
  relax goal current st nxt = Ret st' ->
  search_inv start edges st' /\ known start (came_from st') current.
Proof.
  intros Inv Hcur Hnxt. unfold relax.
  destruct (dict_get point_eqb (g_score st) current) as [gc|] eqn:Gc;
    [|discriminate].
  destruct (match dict_get point_eqb (g_score st) nxt with
            | Some g_nxt => Qltb (gc + _manhattan current nxt) g_nxt
            | None => true
            end) eqn:Imp.
  2:{ intro H; inversion H; subst. split; assumption. }
  assert (Hpos : 0 <= gc + _manhattan current nxt).
  { pose proof (inv_g_pos _ _ _ Inv _ _ Gc).
    pose proof (manhattan_nonneg current nxt). lra. }
  assert (Hns : point_eqb start nxt = false).
  { apply point_eqb_false. intro E.
    destruct (inv_g_start _ _ _ Inv) as (g0 & G0 & Z0).
    rewrite <- (pget_congr (g_score st) start nxt E), G0 in Imp.
    apply Qltb_lt in Imp. lra. }
  assert (Inv' : forall h,
    (forall e, In e h -> known start (dict_set point_eqb (came_from st) nxt current) (snd e)) ->
    search_inv start edges
      (mkState h (dict_set point_eqb (came_from st) nxt current)
         (dict_set point_eqb (g_score st) nxt (gc + _manhattan current nxt))
         (in_open st)) /\
    known start (dict_set point_eqb (came_from st) nxt current) current).
  { intros h Hh. split; [|apply known_set; exact Hcur].
    constructor; cbn [open_heap came_from g_score in_open].
    - exact Hh.
    - intros n c. rewrite pget_set. destruct (point_eqb n nxt) eqn:E.
      + intro H; inversion H; subst. split; [apply known_set; exact Hcur|].
        exists nxt. split; [apply point_eqb_Peq; exact E|exact Hnxt].
      + intro H. destruct (inv_pred _ _ _ Inv _ _ H) as [H1 H2].
        split; [apply known_set; exact H1|exact H2].
    - rewrite pget_set, Hns. exact (inv_start _ _ _ Inv).
    - rewrite pget_set, Hns. exact (inv_g_start _ _ _ Inv).
    - intros n g. rewrite pget_set. destruct (point_eqb n nxt).
      + intro H; inversion H; subst. exact Hpos.
      + apply (inv_g_pos _ _ _ Inv). }
  destruct (negb (set_mem point_eqb nxt (in_open st)));
    intro H; inversion H; subst; clear H.
  - destruct (Inv' (heappush (open_heap st)
                 (gc + _manhattan current nxt + _manhattan nxt goal, nxt)))
      as [I1 I2].
    + intros e He. unfold heappush in He. apply in_app_or in He.
      destruct He as [He|[<-|[]]].
      * apply known_set. apply (inv_heap _ _ _ Inv). exact He.
      * right. cbn [snd]. rewrite pget_set, point_eqb_refl. discriminate.
    + split; [|exact I2].
      destruct I1; constructor; assumption.
  - apply Inv'. intros e He. apply known_set.
    apply (inv_heap _ _ _ Inv). exact He.
Qed.

Lemma relax_all_inv start goal edges current (l : list Point) :
  forall st st',
    search_inv start edges st ->
    known start (came_from st) current ->
    incl l (nbrs edges current) ->
    relax_all goal current st l = Ret st' ->
    search_inv start edges st'.
Proof.
  induction l as [|nxt l IH]; intros st st' Inv Hcur Hl; cbn.
  - intro H; inversion H; subst. exact Inv.
  - destruct (relax goal current st nxt) as [st1| |] eqn:R; cbn;
      try discriminate.
    intro H.
    destruct (relax_inv _ _ _ _ _ _ _ Inv Hcur (Hl nxt (or_introl eq_refl)) R)
      as [Inv1 Hcur1].
    apply (IH st1 st' Inv1 Hcur1); [|exact H].
    intros x Hx. apply Hl. right. exact Hx.
Qed.

Lemma remove_first_incl (e : entry) (h : list entry) :
  incl (remove_first e h) h.
Proof.
  induction h as [|e' h IH]; cbn; [apply incl_refl|].
  destruct (entry_eqb e e').
  - apply incl_tl, incl_refl.
  - intros x [<-|Hx]; [left; reflexivity|right; apply IH; exact Hx].
Qed.

Lemma heappop_In (h : list entry) (e : entry) (rest : list entry) :
  heappop h = Some (e, rest) -> In e h /\ incl rest h.
Proof.
  unfold heappop. destruct h as [|e0 h]; [discriminate|].
  intro H; inversion H; subst; clear H. split.
  - apply heap_least_spec.
  - exact (remove_first_incl (heap_least e0 h) (e0 :: h)).
Qed.

Lemma walk_back_spec cf :
  forall fuel current path r,
    walk_back fuel cf current path = Ret r ->
    exists l, r = path ++ l /\ backlinks cf current l.
Proof.
  induction fuel as [|fuel IH]; intros current path r; cbn;
    destruct (dict_get point_eqb cf current) as [prev|] eqn:E;
    try discriminate.
  - intro H; inversion H; subst. exists []. rewrite app_nil_r. auto.
  - intro H. destruct (IH _ _ _ H) as (l & -> & B).
    exists (prev :: l). rewrite <- app_assoc. cbn. auto.
  - intro H; inversion H; subst. exists []. rewrite app_nil_r. auto.
Qed.

(** A path returned by the main loop is the reversed chain of predecessors
    of a node equal to the goal, in a [came_from] that satisfies the
    invariant. *)
Lemma a_star_loop_path start goal edges :
  forall fuel st path,
    search_inv start edges st ->
    a_star_loop fuel goal edges st = Ret (Some path) ->
    exists cf current l,
      path = rev (current :: l) /\ Peq current goal /\
      backlinks cf current l /\ known start cf current /\
      dict_get point_eqb cf start = None /\
      (forall n c, dict_get point_eqb cf n = Some c ->
                   known start cf c /\ linked edges c n).
Proof.
  induction fuel as [|fuel IH]; intros st path Inv; cbn;
    destruct (heappop (open_heap st)) as [[[f current] heap']|] eqn:P;
    try discriminate.
  destruct (heappop_In _ _ _ P) as [Hin Hrest].
  assert (Hcur : known start (came_from st) current)
    by exact (inv_heap _ _ _ Inv _ Hin).
  destruct (point_eqb current goal) eqn:G.
  - destruct (walk_back fuel (came_from st) current [current]) as [r| |] eqn:W;
      cbn; try discriminate.
    intro H; inversion H; subst; clear H.
    destruct (walk_back_spec _ _ _ _ _ W) as (l & -> & B).
    exists (came_from st), current, l. repeat split.
    + apply point_eqb_Peq in G. apply G.
    + apply point_eqb_Peq in G. apply G.
    + exact B.
    + exact Hcur.
    + exact (inv_start _ _ _ Inv).
    + apply (inv_pred _ _ _ Inv _ _ H).
    + apply (inv_pred _ _ _ Inv _ _ H).
  - destruct (relax_all goal current _ _) as [st2| |] eqn:R; cbn;
      try discriminate.
    intro H. apply (IH st2 path); [|exact H].
    eapply relax_all_inv; [| |apply incl_refl|exact R].
    + destruct Inv; constructor; cbn [open_heap came_from g_score in_open];
        auto.
    + exact Hcur.
Qed.

Lemma initial_inv start goal edges :
  search_inv start edges
    (mkState (heappush [] (_manhattan start goal, start)) []
       [(start, 0)] [start]).
Proof.
  constructor; cbn [open_heap came_from g_score in_open].
  - intros e [<-|[]]. left. reflexivity.
  - intros n c H. discriminate.
  - reflexivity.
  - exists 0. cbn. rewrite point_eqb_refl. split; reflexivity.
  - intros n g. cbn. destruct (point_eqb n start); [|discriminate].
    intro H; inversion H; subst. lra.
Qed.

(** ** Shape of a returned path *)

Lemma segments_snoc (L : list Point) (x : Point) :
  segments (L ++ [x])
  = match L with
    | [] => []
    | _ :: _ => segments L ++ [(last L x, x)]
    end.
Proof.
  unfold segments.
  induction L as [|a [|b L] IH]; try reflexivity.
  change (combine ((a :: b :: L) ++ [x]) (tl ((a :: b :: L) ++ [x])))
    with ((a, b) :: combine ((b :: L) ++ [x]) (tl ((b :: L) ++ [x]))).
  rewrite IH. reflexivity.
Qed.

Lemma segments_cons (a b : Point) (L : list Point) :
  segments (a :: b :: L) = (a, b) :: segments (b :: L).
Proof. reflexivity. Qed.

Lemma segments_snoc2 (L : list Point) (p x : Point) :
  segments ((L ++ [p]) ++ [x]) = segments (L ++ [p]) ++ [(p, x)].
Proof.
  rewrite segments_snoc.
  destruct (L ++ [p]) as [|q L'] eqn:R.
  - destruct L; discriminate.
  - rewrite <- R, last_last. reflexivity.
Qed.

Lemma chain_head start cf
    (Hpred : forall n c, dict_get point_eqb cf n = Some c -> known start cf c) :
  forall l current,
    backlinks cf current l -> known start cf current ->
    exists first rest, rev (current :: l) = first :: rest /\ Peq first start.
Proof.
  induction l as [|p l IH]; intros current B Hk.
  - exists current, []. split; [reflexivity|].
    destruct Hk as [Hk|Hk]; [exact Hk|]. cbn in B. contradiction.
  - destruct B as [E B].
    destruct (IH p B (Hpred _ _ E)) as (first & rest & R & Hf).
    exists first, (rest ++ [current]). split; [|exact Hf].
    change (rev (current :: p :: l)) with (rev (p :: l) ++ [current]).
    rewrite R. reflexivity.
Qed.

Lemma chain_linked edges cf
    (Hpred : forall n c, dict_get point_eqb cf n = Some c -> linked edges c n) :
  forall l current,
    backlinks cf current l ->
    forall a b, In (a, b) (segments (rev (current :: l))) -> linked edges a b.
Proof.
  induction l as [|p l IH]; intros current B a b Hin.
  - cbn in Hin. contradiction.
  - destruct B as [E B].
    change (rev (current :: p :: l)) with ((rev l ++ [p]) ++ [current]) in Hin.
    rewrite segments_snoc2 in Hin.
    apply in_app_or in Hin. destruct Hin as [Hin|[Hin|[]]].
    + exact (IH p B a b Hin).
    + inversion Hin; subst. exact (Hpred _ _ E).
Qed.

Lemma backlinks_det cf :
  forall l l' c c',
    Peq c c' -> backlinks cf c l -> backlinks cf c' l' -> l = l'.
Proof.
  induction l as [|p l IH]; intros [|p' l'] c c' E B B'; cbn in *.
  - reflexivity.
  - destruct B' as [B' _]. rewrite (pget_congr cf c c' E) in B. congruence.
  - destruct B as [B _]. rewrite (pget_congr cf c c' E) in B. congruence.
  - destruct B as [B1 B2], B' as [B1' B2'].
    rewrite (pget_congr cf c c' E) in B1.
    assert (p = p') by congruence. subst p'.
    f_equal. exact (IH l' p p (Peq_refl p) B2 B2').
Qed.

Lemma backlinks_suffix cf :
  forall l1 c q l2, backlinks cf c (l1 ++ q :: l2) -> backlinks cf q l2.
Proof.
  induction l1 as [|p l1 IH]; intros c q l2 B; cbn in B.
  - apply B.
  - destruct B as [_ B]. exact (IH _ _ _ B).
Qed.

Lemma chain_fresh cf (l : list Point) (c : Point) :
  backlinks cf c l -> forall q, In q l -> ~ Peq c q.
Proof.
  intros B q Hq E.
  destruct (in_split _ _ Hq) as (l1 & l2 & ->).
  pose proof (backlinks_suffix _ _ _ _ _ B) as B2.
  pose proof (backlinks_det _ _ _ _ _ E B B2) as L.
  apply (f_equal (@length Point)) in L.
  rewrite length_app in L. cbn in L. lia.
Qed.

Lemma chain_distinct cf :
  forall l c, backlinks cf c l -> pairwise_distinct (c :: l) = true.
Proof.
  induction l as [|p l IH]; intros c B.
  - reflexivity.
  - apply pairwise_distinct_cons. split.
    + exact (chain_fresh cf (p :: l) c B).
    + destruct B as [_ B]. exact (IH p B).
Qed.

Lemma set_mem_perm (p : Point) (l l' : list Point) :
  Permutation l l' -> set_mem point_eqb p l = set_mem point_eqb p l'.
Proof.
  intro H. unfold set_mem.
  destruct (existsb (point_eqb p) l') eqn:E.
  - apply existsb_exists in E. destruct E as (q & Hq & Hp).
    apply existsb_exists. exists q. split; [|exact Hp].
    eapply Permutation_in; [symmetry; exact H|exact Hq].
  - destruct (existsb (point_eqb p) l) eqn:F; [|reflexivity].
    apply existsb_exists in F. destruct F as (q & Hq & Hp).
    rewrite <- E. symmetry. apply existsb_exists. exists q.
    split; [|exact Hp]. eapply Permutation_in; eassumption.
Qed.

Lemma pairwise_distinct_perm (l l' : list Point) :
  Permutation l l' -> pairwise_distinct l = pairwise_distinct l'.
Proof.
  induction 1 as [|x l l' H IH|x y l|l l' l'' H1 IH1 H2 IH2].
  - reflexivity.
  - cbn. rewrite IH, (set_mem_perm x l l' H). reflexivity.
  - cbn. unfold set_mem. cbn. rewrite (point_eqb_sym y x).
    destruct (point_eqb x y), (existsb (point_eqb y) l),
      (existsb (point_eqb x) l); reflexivity.
  - congruence.
Qed.

(** The three facts about a path that the search returns: its ends, its
    steps and the absence of repetition. *)
Lemma a_star_path_facts (fuel : nat) (start goal : Point) nodes edges path :
  _a_star fuel start goal nodes edges = Ret (Some path) ->
  (exists first rest, path = first :: rest /\ Peq first start) /\
  (exists init final, path = init ++ [final] /\ Peq final goal) /\
  (forall a b, In (a, b) (segments path) -> linked edges a b) /\
  pairwise_distinct path = true.
Proof.
  unfold _a_star. intro H.
  destruct (a_star_loop_path start goal edges _ _ _
              (initial_inv start goal edges) H)
    as (cf & current & l & -> & G & B & Hk & Hs & Hp).
  repeat split.
  - apply (chain_head start cf); auto. intros n c E. apply (Hp n c E).
  - exists (rev l), current. split; [reflexivity|exact G].
  - apply (chain_linked edges cf); auto. intros n c E. apply (Hp n c E).
  - rewrite <- (pairwise_distinct_perm (current :: l)).
    + exact (chain_distinct cf l current B).
    + apply Permutation_rev.
Qed.

(** ** Endpoints of the routed path *)

Lemma Qltb_comp (a a' b b' : Q) : a == a' -> b == b' -> Qltb a b = Qltb a' b'.
Proof.
  intros Ha Hb. destruct (Qltb a' b') eqn:E.
  - apply Qltb_lt. apply Qltb_lt in E. lra.
  - apply Qltb_ge. apply Qltb_ge in E. lra.
Qed.

Lemma py_round_comp (a b : Q) : a == b -> py_round a = py_round b.
Proof.
  intro H. unfold py_round.
  assert (F : Qfloor a = Qfloor b) by (rewrite H; reflexivity).
  rewrite F.
  rewrite (Qltb_comp (a - inject_Z (Qfloor b)) (b - inject_Z (Qfloor b))
             (1 # 2) (1 # 2)) by lra.
  rewrite (Qltb_comp (1 # 2) (1 # 2) (a - inject_Z (Qfloor b))
             (b - inject_Z (Qfloor b))) by lra.
  reflexivity.
Qed.

Lemma move_cmd_comp (p q : Point) : Peq p q -> move_cmd p = move_cmd q.
Proof.
  intros [H1 H2]. unfold move_cmd, _round_svg.
  rewrite (py_round_comp _ _ H1), (py_round_comp _ _ H2). reflexivity.
Qed.

Lemma line_cmd_comp (p q : Point) : Peq p q -> line_cmd p = line_cmd q.
Proof.
  intros [H1 H2]. unfold line_cmd, _round_svg.
  rewrite (py_round_comp _ _ H1), (py_round_comp _ _ H2). reflexivity.
Qed.

Lemma last_cons_default {A : Type} (l : list A) :
  forall a d, last (a :: l) d = last l a.
Proof.
  induction l as [|b l IH]; intros a d; [reflexivity|].
  change (last (a :: b :: l) d) with (last (b :: l) d).
  rewrite !IH. reflexivity.
Qed.

Lemma kept_last (rest : list Point) :
  forall prev d, last (kept prev rest) d = last rest d.
Proof.
  induction rest as [|p1 rest IH]; intros prev d; [reflexivity|].
  destruct rest as [|p2 tl]; [reflexivity|].
  rewrite kept_step. destruct (collinear3 prev p1 p2).
  - rewrite IH. reflexivity.
  - rewrite (last_cons_default (kept p1 (p2 :: tl))), IH.
    symmetry. apply last_cons_default.
Qed.

(** The simplifier keeps the first and the last point of any sequence. *)
Lemma compress_ends (p : list Point) (d : Point) :
  hd_error (_compress_collinear p) = hd_error p /\
  last (_compress_collinear p) d = last p d.
Proof.
  destruct p as [|p0 rest]; [split; reflexivity|].
  rewrite compress_kept. split; [reflexivity|].
  rewrite (last_cons_default (kept p0 rest)), kept_last.
  symmetry. apply last_cons_default.
Qed.

Lemma endpoints_anchor (src dst : Rect) (s e : Point) :
  endpoints src dst = Ret (s, e) ->
  _anchor src (fst (_pick_sides src dst)) = Ret s /\
  _anchor dst (snd (_pick_sides src dst)) = Ret e.
Proof.
  unfold endpoints.
  destruct (pick_sides_cases src dst) as [E|[E|[E|E]]]; rewrite E; cbn;
    intro H; inversion H; subst; split; reflexivity.
Qed.

Lemma split_last (l : list Point) (d : Point) :
  l <> [] -> l = removelast l ++ [last l d].
Proof. intro H. apply app_removelast_last. exact H. Qed.

Lemma orthogonal_points_ends src dst margin pts (s e : Point) :
  endpoints src dst = Ret (s, e) ->
  orthogonal_points src dst margin = Ret pts ->
  (exists rest, pts = s :: rest) /\ (exists init, pts = init ++ [e]).
Proof.
  intros E H.
  destruct (orthogonal_points_shape src dst margin)
    as (s' & e' & E' & [[O _]|[(m & O & _)|(m & O & _)]]);
    rewrite E in E'; inversion E'; subst s' e';
    rewrite O in H; inversion H; subst pts;
    (split; [eexists; reflexivity|]).
  - exists [s]. reflexivity.
  - exists [s; (m, snd s); (m, snd e)]. reflexivity.
  - exists [s; (fst s, m); (fst e, m)]. reflexivity.
Qed.

(** C5.  Whatever point sequence the router serializes, its first point is
    the anchor of the source's selected side and its last point the anchor
    of the destination's, as points and hence also in the rounded output; a
    path found by the search starts at the start node and ends at the goal
    node, and the simplifier alters neither end. *)
Theorem C5_endpoint_fidelity set_iter (fuel : nat) (src dst : Rect)
    (all_table_rects : list (string * Rect)) (src_id dst_id : string)
    (pad margin : Q) (pts : list Point) :
  route_points set_iter fuel src dst all_table_rects src_id dst_id pad margin
    = Ret pts ->
  exists start goal,
    _anchor src (fst (_pick_sides src dst)) = Ret start /\
    _anchor dst (snd (_pick_sides src dst)) = Ret goal /\
    (exists first rest,
       pts = first :: rest /\ Peq first start /\
       move_cmd first = move_cmd start) /\
    (exists init final,
       pts = init ++ [final] /\ Peq final goal /\
       line_cmd final = line_cmd goal) /\
    (forall nodes edges path,
       _a_star fuel start goal nodes edges = Ret (Some path) ->
       (exists first rest, path = first :: rest /\ Peq first start) /\
       (exists init final, path = init ++ [final] /\ Peq final goal)) /\
    (forall p d,
       hd_error (_compress_collinear p) = hd_error p /\
       last (_compress_collinear p) d = last p d).
Proof.
  unfold route_points.
  destruct (endpoints src dst) as [[start goal]| |] eqn:E; cbn [bind];
    try discriminate.
  destruct (endpoints_anchor _ _ _ _ E) as [As Ag].
  intro H. exists start, goal.
  split; [exact As|]. split; [exact Ag|].
  assert (Hends :
    (exists first rest, pts = first :: rest /\ Peq first start) /\
    (exists init final, pts = init ++ [final] /\ Peq final goal)).
  { destruct (_a_star fuel start goal _ _) as [[[|p0 path]|]| |] eqn:A;
      cbn [bind] in H; try discriminate.
    1,3: destruct (orthogonal_points_ends _ _ _ _ _ _ E H)
        as [(rest & ->) (init & P)];
      (split;
       [exists start, rest; split; [reflexivity|apply Peq_refl]
       |exists init, goal; split; [exact P|apply Peq_refl]]).
    inversion H; subst pts; clear H.
    destruct (a_star_path_facts _ _ _ _ _ _ A)
      as ((first & rest & P1 & F1) & (init & final & P2 & F2) & _ & _).
    inversion P1; subst p0 path.
    destruct (compress_ends (first :: rest) first) as [Hh Hl].
    rewrite compress_kept in *.
    split.
    - exists first, (kept first rest). split; [reflexivity|exact F1].
    - exists (removelast (first :: kept first rest)), final.
      split; [|exact F2].
      rewrite (split_last (first :: kept first rest) first) at 1
        by discriminate.
      rewrite Hl, P2, last_last. reflexivity. }
  destruct Hends as ((first & rest & P1 & F1) & (init & final & P2 & F2)).
  split.
  { exists first, rest. split; [exact P1|].
    split; [exact F1|apply move_cmd_comp; exact F1]. }
  split.
  { exists init, final. split; [exact P2|].
    split; [exact F2|apply line_cmd_comp; exact F2]. }
  split.
  - intros nodes edges path A.
    destruct (a_star_path_facts _ _ _ _ _ _ A) as (H1 & H2 & _ & _).
    split; assumption.
  - intros p d. apply compress_ends.
Qed.

(** ** Clear segments *)

Lemma convex_between (u w t : Q) :
  0 <= t <= 1 -> between u w (u + t * (w - u)).
Proof.
  intros [H0 H1]. unfold between.
  destruct (Qlt_le_dec w u) as [L|L].
  - right.
    assert (A : 0 <= t * (u - w)) by (apply Qmult_le_0_compat; lra).
    assert (B : 0 <= (1 - t) * (u - w)) by (apply Qmult_le_0_compat; lra).
    assert (E1 : t * (w - u) == - (t * (u - w))) by ring.
    assert (E2 : (1 - t) * (u - w) == (u - w) - t * (u - w)) by ring.
    lra.
  - left.
    assert (A : 0 <= t * (w - u)) by (apply Qmult_le_0_compat; lra).
    assert (B : 0 <= (1 - t) * (w - u)) by (apply Qmult_le_0_compat; lra).
    assert (E2 : (1 - t) * (w - u) == (w - u) - t * (w - u)) by ring.
    lra.
Qed.

Lemma point_on_in_box (a b : Point) (t : Q) :
  0 <= t <= 1 -> in_box a b (point_on a b t).
Proof.
  intro H. split; apply convex_between; exact H.
Qed.

Lemma box_free_sym obstacles a b :
  box_free obstacles a b -> box_free obstacles b a.
Proof.
  intros H p [Hx Hy]. apply H. unfold in_box, between in *. lra.
Qed.

Lemma box_free_congr obstacles a b a' b' :
  Peq a a' -> Peq b b' -> box_free obstacles a b -> box_free obstacles a' b'.
Proof.
  intros [A1 A2] [B1 B2] H p [Hx Hy]. apply H.
  unfold in_box, between in *. lra.
Qed.

Lemma aligned_distinct_sym a b : aligned_distinct a b -> aligned_distinct b a.
Proof. unfold aligned_distinct. lra. Qed.

Lemma aligned_distinct_congr a b a' b' :
  Peq a a' -> Peq b b' -> aligned_distinct a b -> aligned_distinct a' b'.
Proof. intros [A1 A2] [B1 B2]. unfold aligned_distinct. lra. Qed.

Lemma good_edge_sym obstacles a b :
  good_edge obstacles a b -> good_edge obstacles b a.
Proof.
  intros [H1 H2]. split;
    [apply aligned_distinct_sym|apply box_free_sym]; assumption.
Qed.

Lemma good_edge_congr obstacles a b a' b' :
  Peq a a' -> Peq b b' -> good_edge obstacles a b -> good_edge obstacles a' b'.
Proof.
  intros A B [H1 H2]. split;
    [eapply aligned_distinct_congr|eapply box_free_congr]; eassumption.
Qed.

(** A column segment of positive length that passes the test meets no
    obstacle interior. *)
Lemma column_clear_free (x y_lo y_hi : Q) (obstacles : list Rect) :
  column_clear x y_lo y_hi obstacles = true -> y_lo < y_hi ->
  forall r, In r obstacles ->
  forall y, y_lo <= y <= y_hi ->
    ~ ((left r < x /\ x < right r) /\ (top r < y /\ y < bottom r)).
Proof.
  unfold column_clear. intros C Hlen r Hr y Hy.
  rewrite forallb_forall in C. specialize (C r Hr).
  unfold py_max, py_min in C. revert C.
  destruct (Qltb y_lo (top r)) eqn:?, (Qltb (bottom r) y_hi) eqn:?;
    case_tests; cbn [negb andb]; intro C; try discriminate;
    bool_to_Prop; lra.
Qed.

Lemma row_clear_free (y x_lo x_hi : Q) (obstacles : list Rect) :
  row_clear y x_lo x_hi obstacles = true -> x_lo < x_hi ->
  forall r, In r obstacles ->
  forall x, x_lo <= x <= x_hi ->
    ~ ((left r < x /\ x < right r) /\ (top r < y /\ y < bottom r)).
Proof.
  unfold row_clear. intros C Hlen r Hr x Hx.
  rewrite forallb_forall in C. specialize (C r Hr).
  unfold py_max, py_min in C. revert C.
  destruct (Qltb x_lo (left r)) eqn:?, (Qltb (right r) x_hi) eqn:?;
    case_tests; cbn [negb andb]; intro C; try discriminate;
    bool_to_Prop; lra.
Qed.

Lemma segment_clear_good (a b : Point) (obstacles : list Rect) :
  _segment_clear a b obstacles = true -> ~ Peq a b ->
  good_edge obstacles a b.
Proof.
  destruct a as [x1 y1], b as [x2 y2]. unfold _segment_clear, Peq.
  cbn [fst snd]. intros C D.
  destruct (Qeq_bool x1 x2) eqn:Ex; cbn [negb andb] in C.
  - apply Qeq_bool_iff in Ex.
    assert (Dy : ~ y1 == y2) by (intro; apply D; split; assumption).
    split; [left; cbn; split; assumption|].
    intros p [Hx Hy] r Hr [Ix Iy]. cbn [fst snd] in Hx, Hy.
    unfold between in Hx, Hy.
    destruct (Qle_bool y1 y2) eqn:L; bool_to_Prop.
    + apply (column_clear_free x1 y1 y2 obstacles C ltac:(lra) r Hr (snd p));
        lra.
    + apply (column_clear_free x1 y2 y1 obstacles C ltac:(lra) r Hr (snd p));
        lra.
  - destruct (Qeq_bool y1 y2) eqn:Ey; cbn [negb] in C; [|discriminate].
    bool_to_Prop.
    split; [right; cbn; split; assumption|].
    intros p [Hx Hy] r Hr [Ix Iy]. cbn [fst snd] in Hx, Hy.
    unfold between in Hx, Hy.
    destruct (Qle_bool x1 x2) eqn:L; bool_to_Prop.
    + apply (row_clear_free y1 x1 x2 obstacles C ltac:(lra) r Hr (fst p));
        lra.
    + apply (row_clear_free y1 x2 x1 obstacles C ltac:(lra) r Hr (fst p));
        lra.
Qed.

(** ** Sets as lists without repetition *)

Section SetFacts.
Context {K : Type} (keqb : K -> K -> bool).
Hypothesis keqb_refl : forall a, keqb a a = true.
Hypothesis keqb_sym : forall a b, keqb a b = keqb b a.
Hypothesis keqb_trans :
  forall a b c, keqb a b = true -> keqb b c = true -> keqb a c = true.

Lemma set_mem_app (x : K) (s t : list K) :
  set_mem keqb x (s ++ t) = set_mem keqb x s || set_mem keqb x t.
Proof. unfold set_mem. apply existsb_app. Qed.

Lemma set_mem_add (x k : K) (s : list K) :
  set_mem keqb x (set_add keqb k s) = set_mem keqb x s || keqb x k.
Proof.
  unfold set_add. destruct (set_mem keqb k s) eqn:E.
  - destruct (keqb x k) eqn:F; [|rewrite orb_false_r; reflexivity].
    rewrite orb_true_r. unfold set_mem in *.
    apply existsb_exists in E. destruct E as (y & Hy & Ey).
    apply existsb_exists. exists y. split; [exact Hy|].
    eapply keqb_trans; eassumption.
  - rewrite set_mem_app. cbn. rewrite orb_false_r. reflexivity.
Qed.

Lemma set_mem_update (x : K) (ks s : list K) :
  set_mem keqb x (set_update keqb s ks) = set_mem keqb x s || set_mem keqb x ks.
Proof.
  unfold set_update. revert s.
  induction ks as [|k ks IH]; intro s; cbn [fold_left].
  - cbn. rewrite orb_false_r. reflexivity.
  - rewrite IH, set_mem_add, <- orb_assoc. reflexivity.
Qed.

Lemma distinct_snoc (s : list K) (k : K) :
  distinct keqb (s ++ [k]) = distinct keqb s && negb (set_mem keqb k s).
Proof.
  induction s as [|a s IH]; [reflexivity|].
  change (distinct keqb ((a :: s) ++ [k]))
    with (negb (set_mem keqb a (s ++ [k])) && distinct keqb (s ++ [k])).
  change (distinct keqb (a :: s))
    with (negb (set_mem keqb a s) && distinct keqb s).
  change (set_mem keqb k (a :: s)) with (keqb k a || set_mem keqb k s).
  rewrite IH, set_mem_app.
  change (set_mem keqb a [k]) with (keqb a k || false).
  rewrite (keqb_sym k a), orb_false_r. clear IH.
  destruct (set_mem keqb a s), (keqb a k), (distinct keqb s),
    (set_mem keqb k s); reflexivity.
Qed.

Lemma set_add_distinct (k : K) (s : list K) :
  distinct keqb s = true -> distinct keqb (set_add keqb k s) = true.
Proof.
  intro H. unfold set_add. destruct (set_mem keqb k s) eqn:E; [exact H|].
  rewrite distinct_snoc, H, E. reflexivity.
Qed.

Lemma set_update_distinct (ks s : list K) :
  distinct keqb s = true -> distinct keqb (set_update keqb s ks) = true.
Proof.
  unfold set_update. revert s.
  induction ks as [|k ks IH]; intros s H; cbn [fold_left]; [exact H|].
  apply IH. apply set_add_distinct. exact H.
Qed.

Lemma set_mem_congr (a b : K) (s : list K) :
  keqb a b = true -> set_mem keqb a s = set_mem keqb b s.
Proof.
  intro H. unfold set_mem. induction s as [|c s IH]; cbn; [reflexivity|].
  rewrite IH, (keqb_congr keqb keqb_sym keqb_trans a b c H). reflexivity.
Qed.

Lemma set_mem_false_iff (x : K) (s : list K) :
  set_mem keqb x s = false <-> forall y, In y s -> keqb x y = false.
Proof.
  unfold set_mem. induction s as [|a s IH]; cbn.
  - split; [intros _ y []|reflexivity].
  - rewrite orb_false_iff, IH. split.
    + intros [H1 H2] y [<-|Hy]; auto.
    + intro H. split; [apply H; left; reflexivity|].
      intros y Hy. apply H. right. exact Hy.
Qed.

Lemma distinct_perm (l l' : list K) :
  Permutation l l' -> distinct keqb l = distinct keqb l'.
Proof.
  induction 1 as [|x l l' H IH|x y l|l l' l'' H1 IH1 H2 IH2].
  - reflexivity.
  - cbn. rewrite IH. f_equal. f_equal.
    unfold set_mem.
    destruct (existsb (keqb x) l') eqn:E.
    + apply existsb_exists in E. destruct E as (q & Hq & Hp).
      apply existsb_exists. exists q. split; [|exact Hp].
      eapply Permutation_in; [symmetry; exact H|exact Hq].
    + destruct (existsb (keqb x) l) eqn:F; [|reflexivity].
      apply existsb_exists in F. destruct F as (q & Hq & Hp).
      rewrite <- E. symmetry. apply existsb_exists. exists q.
      split; [|exact Hp]. eapply Permutation_in; eassumption.
  - cbn. unfold set_mem. cbn. rewrite (keqb_sym y x).
    destruct (keqb x y), (existsb (keqb y) l), (existsb (keqb x) l);
      reflexivity.
  - congruence.
Qed.

Lemma distinct_filter (f : K -> bool) (l : list K) :
  distinct keqb l = true -> distinct keqb (filter f l) = true.
Proof.
  induction l as [|a l IH]; cbn; [reflexivity|].
  rewrite andb_true_iff, negb_true_iff. intros [H1 H2].
  destruct (f a); [|apply IH; exact H2].
  cbn. rewrite (IH H2), andb_true_r, negb_true_iff.
  apply set_mem_false_iff. intros y Hy.
  apply filter_In in Hy. destruct Hy as [Hy _].
  exact (proj1 (set_mem_false_iff a l) H1 y Hy).
Qed.
End SetFacts.

Lemma pairwise_distinct_distinct (l : list Point) :
  pairwise_distinct l = distinct point_eqb l.
Proof.
  induction l as [|p l IH]; cbn; [reflexivity|]. rewrite IH. reflexivity.
Qed.

Lemma Qeq_bool_refl' (a : Q) : Qeq_bool a a = true.
Proof. apply Qeq_bool_refl. Qed.

(** ** Sorting *)

Lemma insert_by_perm {A : Type} (key : A -> Q) (a : A) (l : list A) :
  Permutation (insert_by key a l) (a :: l).
Proof.
  induction l as [|b l IH]; cbn; [reflexivity|].
  destruct (Qle_bool (key a) (key b)); [reflexivity|].
  rewrite IH. apply perm_swap.
Qed.

Lemma sort_by_perm {A : Type} (key : A -> Q) (l : list A) :
  Permutation (sort_by key l) l.
Proof.
  induction l as [|a l IH]; cbn; [reflexivity|].
  rewrite insert_by_perm, IH. reflexivity.
Qed.

Lemma segments_not_Peq (l : list Point) :
  pairwise_distinct l = true ->
  forall a b, In (a, b) (segments l) -> ~ Peq a b.
Proof.
  induction l as [|x [|y l] IH]; intros D a b Hin; try contradiction.
  rewrite segments_cons in Hin.
  apply pairwise_distinct_cons in D. destruct D as [D1 D2].
  destruct Hin as [Hin|Hin].
  - inversion Hin; subst. apply D1. left. reflexivity.
  - exact (IH D2 a b Hin).
Qed.

(** ** Grouping the nodes by column and by row *)

Lemma dict_get_keyed_miss (F : Q -> list Point) (ks : list Q) (c : Q) :
  set_mem Qeq_bool c ks = false ->
  dict_get Qeq_bool (map (fun k => (k, F k)) ks) c = None.
Proof.
  induction ks as [|k ks IH]; [reflexivity|].
  change (set_mem Qeq_bool c (k :: ks))
    with (Qeq_bool c k || set_mem Qeq_bool c ks).
  rewrite orb_false_iff. intros [H1 H2]. cbn. rewrite H1. exact (IH H2).
Qed.

Lemma dict_get_keyed_hit (F : Q -> list Point) (ks : list Q) (c : Q) :
  set_mem Qeq_bool c ks = true ->
  exists k0, In k0 ks /\ Qeq_bool c k0 = true /\
    dict_get Qeq_bool (map (fun k => (k, F k)) ks) c = Some (F k0).
Proof.
  induction ks as [|k ks IH]; [discriminate|].
  change (set_mem Qeq_bool c (k :: ks))
    with (Qeq_bool c k || set_mem Qeq_bool c ks).
  cbn [map dict_get]. destruct (Qeq_bool c k) eqn:E.
  - intros _. exists k. repeat split; auto. left. reflexivity.
  - cbn [orb]. intro H. destruct (IH H) as (k0 & Hin & Hk & Hg).
    exists k0. repeat split; auto. right. exact Hin.
Qed.

Lemma dict_set_keyed_hit (F : Q -> list Point) (v : list Point) (c : Q) :
  forall ks,
    distinct Qeq_bool ks = true ->
    set_mem Qeq_bool c ks = true ->
    dict_set Qeq_bool (map (fun k => (k, F k)) ks) c v
    = map (fun k => (k, if Qeq_bool c k then v else F k)) ks.
Proof.
  induction ks as [|k ks IH]; [discriminate|].
  change (set_mem Qeq_bool c (k :: ks))
    with (Qeq_bool c k || set_mem Qeq_bool c ks).
  change (distinct Qeq_bool (k :: ks))
    with (negb (set_mem Qeq_bool k ks) && distinct Qeq_bool ks).
  rewrite andb_true_iff, negb_true_iff. intros [D1 D2] H.
  cbn [map dict_set]. destruct (Qeq_bool c k) eqn:E.
  - f_equal. apply map_ext_in. intros k' Hk'.
    rewrite (set_mem_congr Qeq_bool Qeq_bool_sym' Qeq_bool_trans' k c ks) in D1
      by (rewrite Qeq_bool_sym'; exact E).
    rewrite (proj1 (set_mem_false_iff Qeq_bool c ks) D1 k' Hk').
    reflexivity.
  - cbn [orb] in H. rewrite (IH D2 H). reflexivity.
Qed.

Lemma members_snoc coord k pre p :
  members coord k (pre ++ [p])
  = members coord k pre ++ (if Qeq_bool (coord p) k then [p] else []).
Proof.
  unfold members. rewrite filter_app. cbn.
  destruct (Qeq_bool (coord p) k); reflexivity.
Qed.

Lemma members_congr coord k k' l :
  Qeq_bool k k' = true -> members coord k l = members coord k' l.
Proof.
  intro H. unfold members. apply filter_ext. intro p.
  rewrite !(Qeq_bool_sym' (coord p)).
  apply (keqb_congr Qeq_bool Qeq_bool_sym' Qeq_bool_trans'). exact H.
Qed.

Lemma group_keys_snoc coord pre p :
  group_keys coord (pre ++ [p])
  = set_add Qeq_bool (coord p) (group_keys coord pre).
Proof.
  unfold group_keys, set_update. rewrite map_app, fold_left_app. reflexivity.
Qed.

Lemma group_keys_distinct coord pts :
  distinct Qeq_bool (group_keys coord pts) = true.
Proof.
  apply (set_update_distinct Qeq_bool Qeq_bool_sym'). reflexivity.
Qed.

Lemma group_keys_cover coord pts q :
  In q pts -> set_mem Qeq_bool (coord q) (group_keys coord pts) = true.
Proof.
  intro H. unfold group_keys.
  rewrite (set_mem_update Qeq_bool Qeq_bool_trans'). cbn [set_mem existsb orb].
  apply existsb_exists. exists (coord q). split.
  - apply in_map. exact H.
  - apply Qeq_bool_refl.
Qed.

Lemma members_empty coord c pts :
  set_mem Qeq_bool c (group_keys coord pts) = false ->
  members coord c pts = [].
Proof.
  intro H. unfold members.
  induction pts as [|q pts IH] using rev_ind; [reflexivity|].
  rewrite group_keys_snoc, (set_mem_add Qeq_bool Qeq_bool_trans') in H.
  apply orb_false_iff in H. destruct H as [H1 H2].
  rewrite filter_app, (IH H1). cbn.
  rewrite Qeq_bool_sym', H2. reflexivity.
Qed.

(** [group_by] in closed form: one entry per key, in order of first
    occurrence, holding the members of that key in order of visit. *)
Lemma group_by_closed (coord : Point -> Q) (pts : list Point) :
  group_by coord pts
  = map (fun k => (k, members coord k pts)) (group_keys coord pts).
Proof.
  induction pts as [|p pre IH] using rev_ind; [reflexivity|].
  unfold group_by in *. rewrite fold_left_app. cbn [fold_left].
  rewrite IH, group_keys_snoc. unfold dict_setdefault_append, set_add.
  destruct (set_mem Qeq_bool (coord p) (group_keys coord pre)) eqn:M.
  - destruct (dict_get_keyed_hit (fun k => members coord k pre) _ _ M)
      as (k0 & Hin & Hk & ->).
    rewrite (dict_set_keyed_hit _ _ _ _ (group_keys_distinct coord pre) M).
    apply map_ext_in. intros k Hkin. f_equal.
    rewrite members_snoc.
    destruct (Qeq_bool (coord p) k) eqn:E; [|rewrite app_nil_r; reflexivity].
    f_equal. apply members_congr.
    apply (Qeq_bool_trans' k0 (coord p) k); [|exact E].
    rewrite Qeq_bool_sym'. exact Hk.
  - rewrite (dict_get_keyed_miss _ _ _ M), map_app. cbn [map]. f_equal.
    + apply map_ext_in. intros k Hkin. f_equal.
      rewrite members_snoc.
      rewrite (proj1 (set_mem_false_iff Qeq_bool _ _) M k Hkin), app_nil_r.
      reflexivity.
    + rewrite members_snoc, (members_empty _ _ _ M), Qeq_bool_refl.
      reflexivity.
Qed.

(** ** Every edge of the graph is a clear, axis-aligned segment *)

Lemma dict_append_In (d : list (Point * list Point)) (a b k : Point)
    (l' : list Point) :
  In (k, l') (dict_append point_eqb d a b) ->
  In (k, l') d \/
  exists k0 l, In (k0, l) d /\ Peq a k0 /\ Peq a k /\ l' = l ++ [b].
Proof.
  unfold dict_append.
  destruct (dict_get point_eqb d a) as [l|] eqn:G; [|intro H; left; exact H].
  intro H. apply (dict_set_In point_eqb point_eqb_refl) in H.
  destruct H as [H|[-> E]]; [auto|].
  right. destruct (pget_In _ _ _ G) as (k0 & Hin & Hk).
  apply point_eqb_Peq in E.
  exists k0, l. split; [exact Hin|]. split; [exact Hk|].
  split; [exact E|reflexivity].
Qed.

Lemma dict_append_good obstacles edges a b :
  edges_good obstacles edges -> good_edge obstacles a b ->
  edges_good obstacles (dict_append point_eqb edges a b).
Proof.
  intros He Hab k l' v Hin Hv.
  apply dict_append_In in Hin.
  destruct Hin as [Hin|(k0 & l & Hin & E0 & E & ->)].
  - exact (He k l' v Hin Hv).
  - apply in_app_or in Hv. destruct Hv as [Hv|[<-|[]]].
    + apply (good_edge_congr obstacles k0 v); [|reflexivity|].
      * transitivity a; [symmetry; exact E0|exact E].
      * exact (He k0 l v Hin Hv).
    + apply (good_edge_congr obstacles a b); [exact E|reflexivity|exact Hab].
Qed.

Lemma link_good obstacles edges (ab : Point * Point) :
  edges_good obstacles edges -> ~ Peq (fst ab) (snd ab) ->
  edges_good obstacles (link obstacles edges ab).
Proof.
  intros He D. unfold link.
  destruct (_segment_clear (fst ab) (snd ab) obstacles) eqn:C; [|exact He].
  pose proof (segment_clear_good _ _ _ C D) as G.
  apply dict_append_good; [apply dict_append_good|];
    [exact He|exact G|apply good_edge_sym; exact G].
Qed.

Lemma fold_link_good obstacles (pairs : list (Point * Point)) :
  forall edges,
    (forall ab, In ab pairs -> ~ Peq (fst ab) (snd ab)) ->
    edges_good obstacles edges ->
    edges_good obstacles (fold_left (link obstacles) pairs edges).
Proof.
  induction pairs as [|ab pairs IH]; intros edges D He; [exact He|].
  cbn [fold_left]. apply IH.
  - intros x Hx. apply D. right. exact Hx.
  - apply link_good; [exact He|]. apply D. left. reflexivity.
Qed.

Lemma link_line_good obstacles key edges pts :
  pairwise_distinct pts = true ->
  edges_good obstacles edges ->
  edges_good obstacles (link_line obstacles key edges pts).
Proof.
  intros D He. unfold link_line. apply fold_link_good; [|exact He].
  intros [a b] Hin. cbn [fst snd].
  apply (segments_not_Peq (sort_by key pts)); [|exact Hin].
  rewrite (pairwise_distinct_perm _ pts); [exact D|apply sort_by_perm].
Qed.

Lemma fold_lines_good obstacles key (groups : list (Q * list Point)) :
  forall edges,
    (forall g, In g groups -> pairwise_distinct (snd g) = true) ->
    edges_good obstacles edges ->
    edges_good obstacles
      (fold_left (fun e (g : Q * list Point) =>
                    link_line obstacles key e (snd g)) groups edges).
Proof.
  induction groups as [|g groups IH]; intros edges D He; [exact He|].
  cbn [fold_left]. apply IH.
  - intros x Hx. apply D. right. exact Hx.
  - apply link_line_good; [|exact He]. apply D. left. reflexivity.
Qed.

Lemma group_by_distinct coord pts :
  pairwise_distinct pts = true ->
  forall g, In g (group_by coord pts) -> pairwise_distinct (snd g) = true.
Proof.
  intros D g Hg. rewrite group_by_closed in Hg.
  apply in_map_iff in Hg. destruct Hg as (k & <- & _). cbn [snd].
  unfold members. rewrite pairwise_distinct_distinct in *.
  apply distinct_filter. exact D.
Qed.

Lemma node_set_distinct start goal nodes :
  pairwise_distinct (node_set_of start goal nodes) = true.
Proof.
  rewrite pairwise_distinct_distinct. unfold node_set_of.
  apply (set_add_distinct point_eqb point_eqb_sym).
  apply (set_add_distinct point_eqb point_eqb_sym).
  apply (set_update_distinct point_eqb point_eqb_sym). reflexivity.
Qed.

Section GraphFacts.
Variable set_iter : forall A : Type, list A -> list A.
Hypothesis set_iter_perm : forall A (l : list A), Permutation (set_iter A l) l.

Lemma build_edges_good obstacles node_set :
  pairwise_distinct node_set = true ->
  edges_good obstacles (build_edges set_iter obstacles node_set).
Proof.
  intro D. unfold build_edges.
  assert (Dv : pairwise_distinct (set_iter Point node_set) = true).
  { rewrite (pairwise_distinct_perm _ node_set); [exact D|].
    apply set_iter_perm. }
  apply fold_lines_good; [apply group_by_distinct; exact Dv|].
  apply fold_lines_good; [apply group_by_distinct; exact Dv|].
  intros k l v Hin Hv. apply in_map_iff in Hin.
  destruct Hin as (n & E & _). inversion E; subst. contradiction.
Qed.

(** A step of a path returned by the search on the constructed graph is a
    clear edge. *)
Lemma linked_good obstacles edges a b :
  edges_good obstacles edges -> linked edges a b -> good_edge obstacles a b.
Proof.
  intros He (b' & E & Hin). unfold nbrs in Hin.
  destruct (dict_get point_eqb edges a) as [l|] eqn:G; [|contradiction].
  destruct (pget_In _ _ _ G) as (k & Hk & Ek).
  apply (good_edge_congr obstacles k b').
  - symmetry. exact Ek.
  - symmetry. exact E.
  - exact (He k l b' Hk Hin).
Qed.
End GraphFacts.

(** ** Obstacle avoidance *)

Lemma obstacles_of_In all_table_rects src_id dst_id pad tid rect :
  In (tid, rect) all_table_rects -> tid <> src_id -> tid <> dst_id ->
  In (_expand rect pad) (obstacles_of all_table_rects src_id dst_id pad).
Proof.
  intros Hin Hs Hd. unfold obstacles_of. apply in_flat_map.
  exists (tid, rect). split; [exact Hin|]. cbn [fst snd str_in existsb].
  apply String.eqb_neq in Hs, Hd. rewrite Hs, Hd. left. reflexivity.
Qed.

Lemma box_free_merge obstacles p0 p1 p2 :
  collinear3 p0 p1 p2 = true ->
  box_free obstacles p0 p1 -> box_free obstacles p1 p2 ->
  box_free obstacles p0 p2.
Proof.
  intros C H1 H2 p Hp r Hr.
  apply collinear3_true in C.
  assert (D : in_box p0 p1 p \/ in_box p1 p2 p).
  { unfold in_box, between in *. lra. }
  destruct D as [D|D]; [exact (H1 p D r Hr)|exact (H2 p D r Hr)].
Qed.

(** A relation between consecutive points that survives the merging of two
    collinear steps holds between the consecutive points that are kept. *)
Lemma kept_segments (R : Point -> Point -> Prop)
    (merge : forall p0 p1 p2,
       collinear3 p0 p1 p2 = true -> R p0 p1 -> R p1 p2 -> R p0 p2)
    (rest : list Point) :
  forall prev,
    (forall a b, In (a, b) (segments (prev :: rest)) -> R a b) ->
    forall a b, In (a, b) (segments (prev :: kept prev rest)) -> R a b.
Proof.
  induction rest as [|p1 rest IH]; intros prev H a b Hin; [contradiction|].
  destruct rest as [|p2 tl]; [exact (H a b Hin)|].
  rewrite kept_step in Hin.
  assert (H01 : R prev p1).
  { apply H. left. reflexivity. }
  assert (H12 : R p1 p2).
  { apply H. right. left. reflexivity. }
  assert (Htl : forall a b, In (a, b) (segments (p2 :: tl)) -> R a b).
  { intros x y Hxy. apply H. right. right. exact Hxy. }
  destruct (collinear3 prev p1 p2) eqn:C.
  - apply (IH prev); [|exact Hin].
    intros x y Hxy. rewrite segments_cons in Hxy.
    destruct Hxy as [Hxy|Hxy]; [|exact (Htl x y Hxy)].
    inversion Hxy; subst. exact (merge _ _ _ C H01 H12).
  - destruct (kept p1 (p2 :: tl)) as [|q ks] eqn:K.
    + destruct Hin as [Hin|[]]. inversion Hin; subst. exact H01.
    + rewrite segments_cons in Hin. destruct Hin as [Hin|Hin].
      * inversion Hin; subst. exact H01.
      * rewrite <- K in Hin. apply (IH p1); [|exact Hin].
        intros x y Hxy. rewrite segments_cons in Hxy.
        destruct Hxy as [Hxy|Hxy]; [|exact (Htl x y Hxy)].
        inversion Hxy; subst. exact H12.
Qed.

Lemma box_free_avoids obstacles path :
  (forall a b, In (a, b) (segments path) -> box_free obstacles a b) ->
  path_avoids obstacles path.
Proof.
  intros H a b Hin t Ht r Hr.
  exact (H a b Hin (point_on a b t) (point_on_in_box a b t Ht) r Hr).
Qed.

(** C1.  A path that the search finds on the constructed grid, and the
    same path after collinear compression (which is what the router then
    serializes), has no segment point strictly inside a padded obstacle;
    the obstacles are all rectangles of the collection other than the two
    endpoints', each expanded by the padding. *)
Theorem C1_obstacle_avoidance set_iter (fuel : nat) (src dst : Rect)
    (all_table_rects : list (string * Rect)) (src_id dst_id : string)
    (pad margin : Q) (start goal : Point) (path : list Point) :
  (forall A (l : list A), Permutation (set_iter A l) l) ->
  endpoints src dst = Ret (start, goal) ->
  (let g := build_grid set_iter start goal all_table_rects src_id dst_id
              pad margin in
   _a_star fuel start goal (g_nodes g) (g_edges g) = Ret (Some path)) ->
  route_points set_iter fuel src dst all_table_rects src_id dst_id pad margin
    = Ret (_compress_collinear path) /\
  path_avoids (obstacles_of all_table_rects src_id dst_id pad) path /\
  path_avoids (obstacles_of all_table_rects src_id dst_id pad)
    (_compress_collinear path) /\
  (forall tid rect,
     In (tid, rect) all_table_rects -> tid <> src_id -> tid <> dst_id ->
     In (_expand rect pad) (obstacles_of all_table_rects src_id dst_id pad)).
Proof.
  intros Hperm E A. cbv zeta in A.
  destruct (a_star_path_facts _ _ _ _ _ _ A)
    as ((first & rest & -> & _) & _ & Hl & _).
  assert (Hfree : forall a b, In (a, b) (segments (first :: rest)) ->
            box_free (obstacles_of all_table_rects src_id dst_id pad) a b).
  { intros a b Hin.
    apply (linked_good _ _ a b
             (build_edges_good set_iter Hperm _ _
                (node_set_distinct start goal _)) (Hl a b Hin)). }
  split; [|split; [|split]].
  - unfold route_points. rewrite E. cbn [bind]. rewrite A. reflexivity.
  - apply box_free_avoids. exact Hfree.
  - apply box_free_avoids. rewrite compress_kept.
    apply (kept_segments _ (box_free_merge _)). exact Hfree.
  - intros tid rect. apply obstacles_of_In.
Qed.

Lemma C1_witness :
  route_points iter_insertion 100 box_a box_b diagram_detour "a" "b" 8 14
    = Ret (_compress_collinear detour_path) /\
  path_avoids (obstacles_of diagram_detour "a" "b" 8) detour_path /\
  path_avoids (obstacles_of diagram_detour "a" "b" 8)
    (_compress_collinear detour_path) /\
  (forall tid rect,
     In (tid, rect) diagram_detour -> tid <> "a"%string -> tid <> "b"%string ->
     In (_expand rect 8) (obstacles_of diagram_detour "a" "b" 8)).
Proof.
  apply (C1_obstacle_avoidance iter_insertion 100 box_a box_b diagram_detour
           "a" "b" 8 14 (40, 20 # 2) (100, 20 # 2) detour_path).
  - intros A l. apply Permutation_refl.
  - vm_compute. reflexivity.
  - vm_compute. reflexivity.
Defined.

Lemma C5_witness :
  exists start goal,
    _anchor box_a (fst (_pick_sides box_a box_b)) = Ret start /\
    _anchor box_b (snd (_pick_sides box_a box_b)) = Ret goal /\
    (exists first rest,
       detour_points = first :: rest /\ Peq first start /\
       move_cmd first = move_cmd start) /\
    (exists init final,
       detour_points = init ++ [final] /\ Peq final goal /\
       line_cmd final = line_cmd goal) /\
    (forall nodes edges path,
       _a_star 100 start goal nodes edges = Ret (Some path) ->
       (exists first rest, path = first :: rest /\ Peq first start) /\
       (exists init final, path = init ++ [final] /\ Peq final goal)) /\
    (forall p d,
       hd_error (_compress_collinear p) = hd_error p /\
       last (_compress_collinear p) d = last p d).
Proof.
  apply (C5_endpoint_fidelity iter_insertion 100 box_a box_b diagram_detour
           "a" "b" 8 14 detour_points).
  vm_compute. reflexivity.
Defined.

(** ** Axis alignment *)

Lemma shares_exactly_one_iff (a b : Point) :
  shares_exactly_one a b = true <-> aligned_distinct a b.
Proof.
  unfold shares_exactly_one, aligned_distinct.
  destruct (Qeq_bool (fst a) (fst b)) eqn:Ex,
           (Qeq_bool (snd a) (snd b)) eqn:Ey; cbn; bool_to_Prop;
    split; try discriminate; try tauto; intros _; tauto.
Qed.

Lemma axis_aligned_iff (path : list Point) :
  axis_aligned path = true <->
  forall a b, In (a, b) (segments path) -> aligned_distinct a b.
Proof.
  unfold axis_aligned. rewrite forallb_forall. split.
  - intros H a b Hin. apply shares_exactly_one_iff. exact (H (a, b) Hin).
  - intros H [a b] Hin. apply shares_exactly_one_iff. exact (H a b Hin).
Qed.

Lemma kept_distinct (rest : list Point) :
  forall prev,
    pairwise_distinct rest = true ->
    pairwise_distinct (kept prev rest) = true.
Proof.
  induction rest as [|p1 rest IH]; intros prev D; [reflexivity|].
  destruct rest as [|p2 tl]; [exact D|].
  rewrite kept_step.
  pose proof D as D'.
  apply pairwise_distinct_cons in D'. destruct D' as [D1 D2].
  destruct (collinear3 prev p1 p2).
  - apply IH. exact D2.
  - apply pairwise_distinct_cons. split; [|apply IH; exact D2].
    intros q Hq. apply D1. exact (kept_In _ _ _ Hq).
Qed.

(** Compression of a path without repetition whose steps are axis-aligned
    leaves a path whose steps agree on exactly one coordinate. *)
Lemma compress_aligned (path : list Point) :
  pairwise_distinct path = true ->
  (forall a b, In (a, b) (segments path) -> aligned_distinct a b) ->
  forall a b, In (a, b) (segments (_compress_collinear path)) ->
              aligned_distinct a b.
Proof.
  intros D H a b Hin.
  destruct path as [|p0 rest]; [contradiction|].
  rewrite compress_kept in Hin.
  assert (Hs : fst a == fst b \/ snd a == snd b).
  { revert a b Hin.
    apply (kept_segments (fun a b => fst a == fst b \/ snd a == snd b)).
    - intros q0 q1 q2 C _ _. apply collinear3_true in C. lra.
    - intros a b Hin. destruct (H a b Hin) as [[E _]|[E _]]; auto. }
  assert (Hd : ~ Peq a b).
  { apply (segments_not_Peq (p0 :: kept p0 rest)); [|exact Hin].
    apply pairwise_distinct_cons in D. destruct D as [D1 D2].
    apply pairwise_distinct_cons. split; [|apply kept_distinct; exact D2].
    intros q Hq. apply D1. exact (kept_In _ _ _ Hq). }
  unfold aligned_distinct, Peq in *. lra.
Qed.

(** C4, as stated, fails for the direct router.  When the destination's
    left side is exactly one margin to the right of the source's right
    side, the middle line of the elbow passes through the start anchor and
    the first segment has length zero; the grid router returns the same path
    when it falls back.  When the anchors' ordinates differ but round to the
    same integer, the two-point path is diagonal before rounding. *)
Lemma C4_counterexample :
  orthogonal_points box_a box_b_near 14
    = Ret [(40, 20 # 2); (40, 20 # 2); (40, 40 # 2); (54, 40 # 2)] /\
  route_points iter_insertion 200 box_a box_b_near diagram_near_covered
    "a" "b" 8 14
    = Ret [(40, 20 # 2); (40, 20 # 2); (40, 40 # 2); (54, 40 # 2)] /\
  axis_aligned [(40, 20 # 2); (40, 20 # 2); (40, 40 # 2); (54, 40 # 2)]
    = false /\
  shares_exactly_one (40, 20 # 2) (40, 20 # 2) = false /\
  exists e, orthogonal_points box_a box_b_tilted 14 = Ret [(40, 20 # 2); e] /\
            Qeq_bool 40 (fst e) = false /\ Qeq_bool (20 # 2) (snd e) = false /\
            axis_aligned [(40, 20 # 2); e] = false.
Proof.
  repeat split; try (vm_compute; reflexivity).
  eexists. repeat split; vm_compute; reflexivity.
Qed.

(** C4, amended.  Every consecutive pair of points of a path found by the
    search on the grid, before and after compression, agrees on exactly one
    coordinate: no zero-length and no diagonal segment.  Every consecutive
    pair of points of the direct router's path agrees on at least one
    coordinate once the coordinates are rounded for output. *)
Theorem C4_axis_alignment set_iter (fuel : nat) (src dst : Rect)
    (all_table_rects : list (string * Rect)) (src_id dst_id : string)
    (pad margin : Q) (start goal : Point) :
  (forall A (l : list A), Permutation (set_iter A l) l) ->
  endpoints src dst = Ret (start, goal) ->
  (forall path,
     (let g := build_grid set_iter start goal all_table_rects src_id dst_id
                 pad margin in
      _a_star fuel start goal (g_nodes g) (g_edges g) = Ret (Some path)) ->
     route_points set_iter fuel src dst all_table_rects src_id dst_id
       pad margin = Ret (_compress_collinear path) /\
     axis_aligned path = true /\
     axis_aligned (_compress_collinear path) = true) /\
  (exists pts,
     orthogonal_points src dst margin = Ret pts /\
     forall a b, In (a, b) (segments pts) -> rounded_share a b = true).
Proof.
  intros Hperm E. split.
  - intros path A. cbv zeta in A.
    destruct (a_star_path_facts _ _ _ _ _ _ A)
      as ((first & rest & P & _) & _ & Hl & Hd).
    assert (Hal : forall a b, In (a, b) (segments path) ->
                              aligned_distinct a b).
    { intros a b Hin.
      apply (linked_good (obstacles_of all_table_rects src_id dst_id pad)
               _ a b
               (build_edges_good set_iter Hperm _ _
                  (node_set_distinct start goal _)) (Hl a b Hin)). }
    split; [|split].
    + unfold route_points. rewrite E. cbn [bind]. rewrite A, P. reflexivity.
    + apply axis_aligned_iff. exact Hal.
    + apply axis_aligned_iff. apply compress_aligned; assumption.
  - destruct (orthogonal_points_shape src dst margin)
      as (s & e & _ & [[O R]|[(m & O & _)|(m & O & _)]]);
      rewrite O; eexists; (split; [reflexivity|]);
      intros a b Hin; unfold rounded_share; cbn in Hin.
    + destruct Hin as [Hin|[]]. inversion Hin; subst.
      destruct R as [[_ R]|[_ R]]; rewrite R, Z.eqb_refl;
        [apply orb_true_r|reflexivity].
    + destruct Hin as [Hin|[Hin|[Hin|[]]]]; inversion Hin; subst;
        cbn [fst snd]; rewrite Z.eqb_refl;
        [apply orb_true_r|reflexivity|apply orb_true_r].
    + destruct Hin as [Hin|[Hin|[Hin|[]]]]; inversion Hin; subst;
        cbn [fst snd]; rewrite Z.eqb_refl;
        [reflexivity|apply orb_true_r|reflexivity].
Qed.

Lemma C4_witness :
  (forall path,
     (let g := build_grid iter_insertion (40, 20 # 2) (100, 20 # 2)
                 diagram_detour "a" "b" 8 14 in
      _a_star 100 (40, 20 # 2) (100, 20 # 2) (g_nodes g) (g_edges g)
      = Ret (Some path)) ->
     route_points iter_insertion 100 box_a box_b diagram_detour "a" "b" 8 14
       = Ret (_compress_collinear path) /\
     axis_aligned path = true /\
     axis_aligned (_compress_collinear path) = true) /\
  (exists pts,
     orthogonal_points box_a box_b 14 = Ret pts /\
     forall a b, In (a, b) (segments pts) -> rounded_share a b = true).
Proof.
  apply (C4_axis_alignment iter_insertion 100 box_a box_b diagram_detour
           "a" "b" 8 14 (40, 20 # 2) (100, 20 # 2)).
  - intros A l. apply Permutation_refl.
  - vm_compute. reflexivity.
Defined.

(** ** Sorting erases the order of enumeration *)

Section SortUnique.
Context {A : Type} (key : A -> Q).

Lemma insert_by_sorted (a : A) (l : list A) :
  sorted_by key l -> sorted_by key (insert_by key a l).
Proof.
  induction l as [|b l IH]; intro S.
  - cbn. split; [intros ? []|exact I].
  - destruct S as [S1 S2]. cbn [insert_by].
    destruct (Qle_bool (key a) (key b)) eqn:E; bool_to_Prop.
    + split; [|split; assumption].
      intros c [<-|Hc]; [exact E|]. specialize (S1 c Hc). lra.
    + split; [|exact (IH S2)].
      intros c Hc.
      apply (Permutation_in _ (insert_by_perm key a l)) in Hc.
      destruct Hc as [<-|Hc]; [lra|exact (S1 c Hc)].
Qed.

Lemma sort_by_sorted (l : list A) : sorted_by key (sort_by key l).
Proof.
  induction l as [|a l IH]; [exact I|].
  cbn [sort_by fold_right]. apply insert_by_sorted. exact IH.
Qed.

Lemma sorted_perm_unique (l1 : list A) :
  forall l2,
    sorted_by key l1 -> sorted_by key l2 -> Permutation l1 l2 ->
    distinct Qeq_bool (map key l1) = true ->
    l1 = l2.
Proof.
  induction l1 as [|a t1 IH]; intros l2 S1 S2 P D.
  - apply Permutation_nil in P. symmetry. exact P.
  - destruct l2 as [|b t2].
    { symmetry in P. apply Permutation_nil in P. discriminate. }
    destruct S1 as [Sa S1], S2 as [Sb S2].
    cbn [map distinct] in D. apply andb_true_iff in D.
    destruct D as [Da D]. apply negb_true_iff in Da.
    assert (Hab : a = b).
    { assert (Ha : In a (b :: t2))
        by (apply (Permutation_in _ P); left; reflexivity).
      assert (Hb : In b (a :: t1))
        by (apply (Permutation_in _ (Permutation_sym P)); left; reflexivity).
      destruct Ha as [Ha|Ha]; [symmetry; exact Ha|].
      destruct Hb as [Hb|Hb]; [exact Hb|].
      exfalso.
      pose proof (Sa b Hb) as L1. pose proof (Sb a Ha) as L2.
      pose proof (proj1 (set_mem_false_iff Qeq_bool (key a) (map key t1)) Da
                    (key b) (in_map key _ _ Hb)) as N.
      bool_to_Prop. apply N. lra. }
    subst b. f_equal.
    apply IH; try assumption.
    exact (Permutation_cons_inv P).
Qed.

Lemma sort_by_unique (l l' : list A) :
  Permutation l l' ->
  distinct Qeq_bool (map key l) = true ->
  sort_by key l = sort_by key l'.
Proof.
  intros P D. apply sorted_perm_unique.
  - apply sort_by_sorted.
  - apply sort_by_sorted.
  - rewrite !sort_by_perm. exact P.
  - rewrite (distinct_perm Qeq_bool Qeq_bool_sym' _ (map key l)); [exact D|].
    apply Permutation_map. apply sort_by_perm.
Qed.
End SortUnique.

Lemma filter_perm {A : Type} (f : A -> bool) (l l' : list A) :
  Permutation l l' -> Permutation (filter f l) (filter f l').
Proof.
  induction 1 as [|x l l' H IH|x y l|l l' l'' H1 IH1 H2 IH2]; cbn.
  - reflexivity.
  - destruct (f x); [apply perm_skip|]; exact IH.
  - destruct (f x), (f y); try reflexivity. apply perm_swap.
  - etransitivity; eassumption.
Qed.

(** ** The adjacency lists in closed form *)

Lemma append_all_app ops1 ops2 d :
  append_all (ops1 ++ ops2) d = append_all ops2 (append_all ops1 d).
Proof. unfold append_all. apply fold_left_app. Qed.

Lemma link_as_ops obstacles edges ab :
  link obstacles edges ab = append_all (link_ops obstacles ab) edges.
Proof.
  unfold link, link_ops.
  destruct (_segment_clear (fst ab) (snd ab) obstacles); reflexivity.
Qed.

Lemma fold_link_as_ops obstacles (pairs : list (Point * Point)) :
  forall edges,
    fold_left (link obstacles) pairs edges
    = append_all (flat_map (link_ops obstacles) pairs) edges.
Proof.
  induction pairs as [|ab pairs IH]; intro edges; [reflexivity|].
  cbn [fold_left flat_map]. rewrite append_all_app, IH, link_as_ops.
  reflexivity.
Qed.

Lemma link_line_as_ops obstacles key edges pts :
  link_line obstacles key edges pts
  = append_all (line_ops obstacles key pts) edges.
Proof. unfold link_line, line_ops. apply fold_link_as_ops. Qed.

Lemma fold_lines_as_ops obstacles key (groups : list (Q * list Point)) :
  forall edges,
    fold_left (fun e (g : Q * list Point) =>
                 link_line obstacles key e (snd g)) groups edges
    = append_all
        (flat_map (fun g : Q * list Point => line_ops obstacles key (snd g))
           groups) edges.
Proof.
  induction groups as [|g groups IH]; intro edges; [reflexivity|].
  cbn [fold_left flat_map]. rewrite append_all_app, IH, link_line_as_ops.
  reflexivity.
Qed.

Lemma dict_get_append (d : list (Point * list Point)) (k v a : Point) :
  dict_get point_eqb (dict_append point_eqb d k v) a
  = match dict_get point_eqb d a with
    | Some l => Some (if point_eqb a k then l ++ [v] else l)
    | None => None
    end.
Proof.
  unfold dict_append.
  destruct (dict_get point_eqb d k) as [lk|] eqn:Gk.
  - rewrite pget_set. destruct (point_eqb a k) eqn:E.
    + apply point_eqb_Peq in E. rewrite (pget_congr d a k E), Gk.
      reflexivity.
    + destruct (dict_get point_eqb d a); reflexivity.
  - destruct (dict_get point_eqb d a) as [l|] eqn:Ga; [|reflexivity].
    destruct (point_eqb a k) eqn:E; [|reflexivity].
    apply point_eqb_Peq in E. rewrite (pget_congr d a k E) in Ga.
    congruence.
Qed.

Lemma dict_get_append_all (ops : list (Point * Point)) (a : Point) :
  forall d,
    dict_get point_eqb (append_all ops d) a
    = option_map (fun l => l ++ adds ops a) (dict_get point_eqb d a).
Proof.
  induction ops as [|[k v] ops IH]; intro d.
  - cbn. destruct (dict_get point_eqb d a); cbn; [|reflexivity].
    rewrite app_nil_r. reflexivity.
  - change (append_all ((k, v) :: ops) d)
      with (append_all ops (dict_append point_eqb d k v)).
    rewrite IH, dict_get_append.
    destruct (dict_get point_eqb d a) as [l|]; [|reflexivity].
    cbn [option_map adds flat_map fst snd].
    destruct (point_eqb a k); cbn [app]; [rewrite <- app_assoc|];
      reflexivity.
Qed.

Lemma dict_get_fresh (V : list Point) (a : Point) :
  dict_get point_eqb (map (fun n => (n, @nil Point)) V) a
  = if set_mem point_eqb a V then Some [] else None.
Proof.
  induction V as [|n V IH]; [reflexivity|].
  cbn [map dict_get].
  change (set_mem point_eqb a (n :: V))
    with (point_eqb a n || set_mem point_eqb a V).
  destruct (point_eqb a n); [reflexivity|exact IH].
Qed.

Lemma adds_app ops1 ops2 a : adds (ops1 ++ ops2) a = adds ops1 a ++ adds ops2 a.
Proof. unfold adds. apply flat_map_app. Qed.

Lemma adds_flat_map {B : Type} (F : B -> list (Point * Point)) (l : list B) a :
  adds (flat_map F l) a = flat_map (fun b => adds (F b) a) l.
Proof.
  induction l as [|b l IH]; [reflexivity|].
  cbn [flat_map]. rewrite adds_app, IH. reflexivity.
Qed.

Lemma adds_nil ops a :
  (forall kv, In kv ops -> point_eqb a (fst kv) = false) -> adds ops a = [].
Proof.
  induction ops as [|kv ops IH]; intro H; [reflexivity|].
  cbn [adds flat_map]. rewrite (H kv (or_introl eq_refl)). cbn [app].
  apply IH. intros x Hx. apply H. right. exact Hx.
Qed.

Lemma flat_map_keyed {C : Type} (F : Q * list Point -> list C)
    (G : Q -> list Point) (ks : list Q) :
  flat_map F (map (fun k => (k, G k)) ks) = flat_map (fun k => F (k, G k)) ks.
Proof.
  induction ks as [|k ks IH]; [reflexivity|].
  cbn [map flat_map]. rewrite IH. reflexivity.
Qed.

(** Of a list of groups with distinct keys, only the group of [x]
    contributes. *)
Lemma flat_map_one {C : Type} (f : Q -> list C) (x : Q) (ks : list Q) :
  distinct Qeq_bool ks = true ->
  (forall k, Qeq_bool x k = false -> f k = []) ->
  (forall k, Qeq_bool x k = true -> f k = f x) ->
  flat_map f ks = if set_mem Qeq_bool x ks then f x else [].
Proof.
  intros D H0 H1. induction ks as [|k ks IH]; [reflexivity|].
  change (distinct Qeq_bool (k :: ks))
    with (negb (set_mem Qeq_bool k ks) && distinct Qeq_bool ks) in D.
  apply andb_true_iff in D. destruct D as [Dk D].
  apply negb_true_iff in Dk.
  change (set_mem Qeq_bool x (k :: ks))
    with (Qeq_bool x k || set_mem Qeq_bool x ks).
  cbn [flat_map]. rewrite (IH D).
  destruct (Qeq_bool x k) eqn:E; cbn [orb].
  - rewrite (H1 k E).
    rewrite (set_mem_congr Qeq_bool Qeq_bool_sym' Qeq_bool_trans' x k ks E), Dk.
    apply app_nil_r.
  - rewrite (H0 k E). reflexivity.
Qed.

Lemma segments_In (l : list Point) (a b : Point) :
  In (a, b) (segments l) -> In a l /\ In b l.
Proof.
  unfold segments. intro H. split.
  - exact (in_combine_l _ _ _ _ H).
  - apply in_combine_r in H. destruct l; [contradiction|]. right. exact H.
Qed.

Section LineFacts.
Variables coord key : Point -> Q.
Hypothesis coord_key_Peq :
  forall p q, coord p == coord q -> key p == key q -> Peq p q.
Hypothesis coord_Peq : forall p q, Peq p q -> coord p == coord q.

Lemma line_ops_sources obstacles pts kv :
  In kv (line_ops obstacles key pts) -> In (fst kv) pts.
Proof.
  unfold line_ops. intro H. apply in_flat_map in H.
  destruct H as ([a b] & Hab & Hkv).
  apply segments_In in Hab. destruct Hab as [Ha Hb].
  apply (Permutation_in _ (sort_by_perm key pts)) in Ha.
  apply (Permutation_in _ (sort_by_perm key pts)) in Hb.
  unfold link_ops in Hkv. cbn [fst snd] in Hkv.
  destruct (_segment_clear a b obstacles); [|contradiction].
  destruct Hkv as [<-|[<-|[]]]; assumption.
Qed.

Lemma group_adds obstacles V a :
  adds (flat_map (fun g : Q * list Point => line_ops obstacles key (snd g))
          (group_by coord V)) a
  = adds (line_ops obstacles key (members coord (coord a) V)) a.
Proof.
  rewrite group_by_closed, flat_map_keyed, adds_flat_map. cbn [snd].
  rewrite (flat_map_one
             (fun k => adds (line_ops obstacles key (members coord k V)) a)
             (coord a)).
  - destruct (set_mem Qeq_bool (coord a) (group_keys coord V)) eqn:M;
      [reflexivity|].
    rewrite (members_empty _ _ _ M). reflexivity.
  - apply group_keys_distinct.
  - intros k E. apply adds_nil. intros kv Hkv.
    apply line_ops_sources in Hkv. unfold members in Hkv.
    apply filter_In in Hkv. destruct Hkv as [_ Hk].
    apply point_eqb_false. intro P. apply coord_Peq in P.
    bool_to_Prop. apply E. lra.
  - intros k E. f_equal. f_equal. apply members_congr.
    rewrite Qeq_bool_sym'. exact E.
Qed.

Lemma members_keys_distinct V x :
  pairwise_distinct V = true ->
  distinct Qeq_bool (map key (members coord x V)) = true.
Proof.
  induction V as [|p V IH]; intro D; [reflexivity|].
  apply pairwise_distinct_cons in D. destruct D as [Dp D].
  unfold members in *. cbn [filter].
  destruct (Qeq_bool (coord p) x) eqn:E; [|exact (IH D)].
  cbn [map distinct]. rewrite (IH D), andb_true_r, negb_true_iff.
  apply set_mem_false_iff. intros y Hy.
  apply in_map_iff in Hy. destruct Hy as (q & <- & Hq).
  apply filter_In in Hq. destruct Hq as [Hq Eq].
  apply Qeq_bool_false. intro K.
  apply (Dp q Hq). apply coord_key_Peq; [|exact K].
  bool_to_Prop. lra.
Qed.

Lemma line_ops_perm obstacles V V' x :
  Permutation V V' -> pairwise_distinct V = true ->
  line_ops obstacles key (members coord x V)
  = line_ops obstacles key (members coord x V').
Proof.
  intros P D. unfold line_ops. f_equal. f_equal.
  apply sort_by_unique.
  - apply filter_perm. exact P.
  - apply members_keys_distinct. exact D.
Qed.
End LineFacts.

(** The neighbours that the constructed graph lists for [a]: those in its
    column, by increasing y, then those in its row, by increasing x. *)
Lemma build_edges_get set_iter obstacles node_set (a : Point) :
  dict_get point_eqb (build_edges set_iter obstacles node_set) a
  = if set_mem point_eqb a (set_iter Point node_set)
    then Some
           (adds (line_ops obstacles snd
                    (members fst (fst a) (set_iter Point node_set))) a
            ++ adds (line_ops obstacles fst
                       (members snd (snd a) (set_iter Point node_set))) a)
    else None.
Proof.
  unfold build_edges.
  rewrite !fold_lines_as_ops, !dict_get_append_all, dict_get_fresh.
  destruct (set_mem point_eqb a (set_iter Point node_set)); [|reflexivity].
  cbn [option_map app]. f_equal. f_equal.
  - apply (group_adds fst snd). intros p q [H _]. exact H.
  - apply (group_adds snd fst). intros p q [_ H]. exact H.
Qed.

Lemma build_edges_indep it1 it2 obstacles node_set (a : Point) :
  (forall A (l : list A), Permutation (it1 A l) l) ->
  (forall A (l : list A), Permutation (it2 A l) l) ->
  pairwise_distinct node_set = true ->
  dict_get point_eqb (build_edges it1 obstacles node_set) a
  = dict_get point_eqb (build_edges it2 obstacles node_set) a.
Proof.
  intros H1 H2 D. rewrite !build_edges_get.
  assert (P : Permutation (it1 Point node_set) (it2 Point node_set)).
  { rewrite H1, H2. reflexivity. }
  assert (D1 : pairwise_distinct (it1 Point node_set) = true).
  { rewrite (pairwise_distinct_perm _ node_set); [exact D|apply H1]. }
  rewrite (set_mem_perm a _ _ P).
  rewrite (line_ops_perm fst snd) with (V' := it2 Point node_set);
    [|intros p q Hx Hy; split; assumption|exact P|exact D1].
  rewrite (line_ops_perm snd fst) with (V' := it2 Point node_set);
    [|intros p q Hy Hx; split; assumption|exact P|exact D1].
  reflexivity.
Qed.

(** ** Determinism *)

Lemma a_star_loop_ext goal edges1 edges2 :
  (forall a, dict_get point_eqb edges1 a = dict_get point_eqb edges2 a) ->
  forall fuel st,
    a_star_loop fuel goal edges1 st = a_star_loop fuel goal edges2 st.
Proof.
  intro H. induction fuel as [|fuel IH]; intro st; cbn [a_star_loop];
    destruct (heappop (open_heap st)) as [[[f current] heap']|];
    try reflexivity.
  destruct (point_eqb current goal); [reflexivity|].
  rewrite (H current).
  destruct (relax_all goal current _ _); cbn [bind]; try reflexivity.
  apply IH.
Qed.

Lemma fold_update_distinct {B : Type} (F : B -> list Q) (l : list B) :
  forall s,
    distinct Qeq_bool s = true ->
    distinct Qeq_bool
      (fold_left (fun xs r => set_update Qeq_bool xs (F r)) l s) = true.
Proof.
  induction l as [|r l IH]; intros s D; [exact D|].
  cbn [fold_left]. apply IH.
  apply (set_update_distinct Qeq_bool Qeq_bool_sym'). exact D.
Qed.

Lemma sorted_set_indep (it1 it2 : forall A : Type, list A -> list A)
    (s : list Q) :
  (forall A (l : list A), Permutation (it1 A l) l) ->
  (forall A (l : list A), Permutation (it2 A l) l) ->
  distinct Qeq_bool s = true ->
  sort_by (fun v => v) (it1 Q s) = sort_by (fun v => v) (it2 Q s).
Proof.
  intros H1 H2 D. apply sort_by_unique.
  - rewrite H1, H2. reflexivity.
  - rewrite map_id.
    rewrite (distinct_perm Qeq_bool Qeq_bool_sym' _ s); [exact D|apply H1].
Qed.

Lemma grid_xs_indep it1 it2 start goal obstacles all_table_rects margin :
  (forall A (l : list A), Permutation (it1 A l) l) ->
  (forall A (l : list A), Permutation (it2 A l) l) ->
  grid_xs it1 start goal obstacles all_table_rects margin
  = grid_xs it2 start goal obstacles all_table_rects margin.
Proof.
  intros H1 H2. unfold grid_xs. apply (sorted_set_indep it1 it2); try assumption.
  apply (@fold_update_distinct (string * Rect)%type
           (fun tr => [left (snd tr); right (snd tr)]) all_table_rects).
  apply (@fold_update_distinct Rect
           (fun r => [left r - margin; left r; right r; right r + margin])
           obstacles).
  apply (set_update_distinct Qeq_bool Qeq_bool_sym'). reflexivity.
Qed.

Lemma grid_ys_indep it1 it2 start goal obstacles all_table_rects margin :
  (forall A (l : list A), Permutation (it1 A l) l) ->
  (forall A (l : list A), Permutation (it2 A l) l) ->
  grid_ys it1 start goal obstacles all_table_rects margin
  = grid_ys it2 start goal obstacles all_table_rects margin.
Proof.
  intros H1 H2. unfold grid_ys. apply (sorted_set_indep it1 it2); try assumption.
  apply (@fold_update_distinct (string * Rect)%type
           (fun tr => [top (snd tr); bottom (snd tr)]) all_table_rects).
  apply (@fold_update_distinct Rect
           (fun r => [top r - margin; top r; bottom r; bottom r + margin])
           obstacles).
  apply (set_update_distinct Qeq_bool Qeq_bool_sym'). reflexivity.
Qed.

(** The search sees the same graph whatever the order in which the sets
    are enumerated. *)
Lemma build_grid_indep it1 it2 start goal all_table_rects src_id dst_id
    pad margin :
  (forall A (l : list A), Permutation (it1 A l) l) ->
  (forall A (l : list A), Permutation (it2 A l) l) ->
  let g1 := build_grid it1 start goal all_table_rects src_id dst_id pad margin in
  let g2 := build_grid it2 start goal all_table_rects src_id dst_id pad margin in
  g_nodes g1 = g_nodes g2 /\
  forall a, dict_get point_eqb (g_edges g1) a = dict_get point_eqb (g_edges g2) a.
Proof.
  intros H1 H2. unfold build_grid. cbn [g_nodes g_edges].
  rewrite (grid_xs_indep it1 it2) by assumption.
  rewrite (grid_ys_indep it1 it2) by assumption.
  split; [reflexivity|].
  intro a. apply build_edges_indep; try assumption.
  apply node_set_distinct.
Qed.

Lemma walk_back_mono cf :
  forall f f' current path r,
    walk_back f cf current path = Ret r -> (f <= f')%nat ->
    walk_back f' cf current path = Ret r.
Proof.
  induction f as [|f IH]; intros f' current path r H L.
  - destruct f'; cbn in *;
      destruct (dict_get point_eqb cf current); try discriminate; exact H.
  - destruct f' as [|f']; [lia|]. cbn in *.
    destruct (dict_get point_eqb cf current); [|exact H].
    apply IH; [exact H|lia].
Qed.

Lemma a_star_loop_mono goal edges :
  forall f f' st r,
    a_star_loop f goal edges st = Ret r -> (f <= f')%nat ->
    a_star_loop f' goal edges st = Ret r.
Proof.
  induction f as [|f IH]; intros f' st r H L.
  - destruct f'; cbn in *;
      destruct (heappop (open_heap st)) as [[[p current] heap']|];
      try discriminate; exact H.
  - destruct f' as [|f']; [lia|]. cbn [a_star_loop] in *.
    destruct (heappop (open_heap st)) as [[[p current] heap']|]; [|exact H].
    destruct (point_eqb current goal).
    + destruct (walk_back f _ current [current]) as [w| |] eqn:W;
        cbn [bind] in H; try discriminate.
      rewrite (walk_back_mono _ f f' _ _ _ W) by lia. exact H.
    + destruct (relax_all goal current _ _) as [st2| |]; cbn [bind] in *;
        try discriminate.
      apply IH; [exact H|lia].
Qed.

(** More fuel does not change a result. *)
Lemma route_mono set_iter f f' src dst all_table_rects src_id dst_id pad
    margin d :
  _route_avoiding_tables set_iter f src dst all_table_rects src_id dst_id
    pad margin = Ret d ->
  (f <= f')%nat ->
  _route_avoiding_tables set_iter f' src dst all_table_rects src_id dst_id
    pad margin = Ret d.
Proof.
  unfold _route_avoiding_tables. intros H L.
  destruct (endpoints src dst) as [[start goal]| |]; cbn [bind] in *;
    try discriminate.
  cbv zeta in *. unfold _a_star in *.
  destruct (a_star_loop f goal _ _) as [r| |] eqn:A; cbn [bind] in H;
    try discriminate.
  rewrite (a_star_loop_mono _ _ f f' _ _ A L). exact H.
Qed.

(** C8.  The output of the routing function is a function of its inputs
    alone: it does not depend on the order in which the sets of coordinates
    and of nodes are enumerated, the one thing in the computation that the
    inputs do not fix, nor on the fuel of the model once a call returns.
    Two calls on the same input return the same string. *)
Theorem C8_deterministic it1 it2 (fuel : nat) (src dst : Rect)
    (all_table_rects : list (string * Rect)) (src_id dst_id : string)
    (pad margin : Q) :
  (forall A (l : list A), Permutation (it1 A l) l) ->
  (forall A (l : list A), Permutation (it2 A l) l) ->
  _route_avoiding_tables it1 fuel src dst all_table_rects src_id dst_id
    pad margin
  = _route_avoiding_tables it2 fuel src dst all_table_rects src_id dst_id
      pad margin /\
  forall fuel' d d',
    _route_avoiding_tables it1 fuel src dst all_table_rects src_id dst_id
      pad margin = Ret d ->
    _route_avoiding_tables it2 fuel' src dst all_table_rects src_id dst_id
      pad margin = Ret d' ->
    d = d'.
Proof.
  intros H1 H2.
  assert (E : forall f,
    _route_avoiding_tables it1 f src dst all_table_rects src_id dst_id
      pad margin
    = _route_avoiding_tables it2 f src dst all_table_rects src_id dst_id
        pad margin).
  { intro f. unfold _route_avoiding_tables.
    destruct (endpoints src dst) as [[start goal]| |]; cbn [bind];
      try reflexivity.
    pose proof (build_grid_indep it1 it2 start goal all_table_rects src_id
                  dst_id pad margin H1 H2) as H.
    cbv zeta in H. destruct H as [Hn He].
    cbv zeta. unfold _a_star.
    rewrite (a_star_loop_ext goal _ _ He). reflexivity. }
  split; [apply E|].
  intros fuel' d d' R R'.
  apply (route_mono it1 fuel (Nat.max fuel fuel')) in R; [|lia].
  apply (route_mono it2 fuel' (Nat.max fuel fuel')) in R'; [|lia].
  rewrite E in R. congruence.
Qed.

Lemma C8_witness :
  _route_avoiding_tables iter_insertion 100 box_a box_b diagram_detour
    "a" "b" 8 14
  = _route_avoiding_tables iter_reversed 100 box_a box_b diagram_detour
      "a" "b" 8 14 /\
  forall fuel' d d',
    _route_avoiding_tables iter_insertion 100 box_a box_b diagram_detour
      "a" "b" 8 14 = Ret d ->
    _route_avoiding_tables iter_reversed fuel' box_a box_b diagram_detour
      "a" "b" 8 14 = Ret d' ->
    d = d'.
Proof.
  apply (C8_deterministic iter_insertion iter_reversed 100 box_a box_b
           diagram_detour "a" "b" 8 14).
  - intros A l. apply Permutation_refl.
  - intros A l. apply Permutation_sym, Permutation_rev.
Defined.

(** ** The appends of the graph construction always find their key *)

Lemma append_all_checked_ok (ops : list (Point * Point)) :
  forall d,
    (forall kv, In kv ops -> dict_get point_eqb d (fst kv) <> None) ->
    append_all_checked ops d = Ret (append_all ops d).
Proof.
  induction ops as [|kv ops IH]; intros d H; [reflexivity|].
  cbn [append_all_checked].
  change (append_all (kv :: ops) d)
    with (append_all ops (dict_append point_eqb d (fst kv) (snd kv))).
  unfold dict_append.
  destruct (dict_get point_eqb d (fst kv)) as [l|] eqn:G.
  - apply IH. intros x Hx. rewrite pget_set.
    destruct (point_eqb (fst x) (fst kv)); [discriminate|].
    apply H. right. exact Hx.
  - exfalso. apply (H kv (or_introl eq_refl)). exact G.
Qed.

Lemma build_edges_as_ops set_iter obstacles node_set :
  build_edges set_iter obstacles node_set
  = append_all (edge_ops set_iter obstacles node_set)
      (map (fun n => (n, @nil Point)) (set_iter Point node_set)).
Proof.
  unfold build_edges, edge_ops.
  rewrite !fold_lines_as_ops, append_all_app. reflexivity.
Qed.

Lemma group_ops_sources obstacles coord key V kv :
  In kv (flat_map (fun g : Q * list Point => line_ops obstacles key (snd g))
           (group_by coord V)) ->
  In (fst kv) V.
Proof.
  intro H. apply in_flat_map in H. destruct H as (g & Hg & Hkv).
  rewrite group_by_closed in Hg. apply in_map_iff in Hg.
  destruct Hg as (k & <- & _). cbn [snd] in Hkv.
  apply line_ops_sources in Hkv. unfold members in Hkv.
  apply filter_In in Hkv. apply Hkv.
Qed.

(** Written with [edges[a].append(b)] raising on a missing key, the
    construction returns the same dictionary: the raise is never reached. *)
Lemma build_edges_keys set_iter obstacles node_set :
  append_all_checked (edge_ops set_iter obstacles node_set)
    (map (fun n => (n, @nil Point)) (set_iter Point node_set))
  = Ret (build_edges set_iter obstacles node_set).
Proof.
  rewrite build_edges_as_ops. apply append_all_checked_ok.
  intros kv Hkv. rewrite dict_get_fresh.
  assert (Hin : In (fst kv) (set_iter Point node_set)).
  { unfold edge_ops in Hkv. apply in_app_or in Hkv.
    destruct Hkv as [Hkv|Hkv]; exact (group_ops_sources _ _ _ _ _ Hkv). }
  assert (M : set_mem point_eqb (fst kv) (set_iter Point node_set) = true).
  { apply set_mem_true. exists (fst kv). split; [exact Hin|reflexivity]. }
  rewrite M. discriminate.
Qed.

(** * Further properties of the geometry *)

Lemma Qabs_cases (t : Q) :
  (0 <= t /\ Qabs t == t) \/ (t <= 0 /\ Qabs t == - t).
Proof.
  destruct (Qlt_le_dec t 0) as [L|L].
  - right. split; [lra|]. apply Qabs_neg. lra.
  - left. split; [exact L|]. apply Qabs_pos. exact L.
Qed.

(** Division by two as a multiplication, for [lra]. *)
Ltac halves := unfold Qdiv in *; change (/ 2) with (1 # 2) in *.

(** ** Rounding *)

(** [_round_svg] returns an integer nearest to its argument: the two differ
    by at most one half, an integer is returned unchanged, and a value
    exactly halfway between two integers goes to the even one. *)
Theorem round_svg_nearest (v : Q) :
  Qabs (v - inject_Z (_round_svg v)) <= 1 # 2 /\
  (forall n : Z, v == inject_Z n -> _round_svg v = n) /\
  (forall n : Z, v == inject_Z n + (1 # 2) ->
                 Z.even (_round_svg v) = true /\
                 (_round_svg v = n \/ _round_svg v = (n + 1)%Z)).
Proof.
  unfold _round_svg, py_round.
  pose proof (Qfloor_le v) as Lo. pose proof (Qlt_floor v) as Hi.
  rewrite inject_Z_plus in Hi. change (inject_Z 1) with 1 in Hi.
  split; [|split].
  - apply Qabs_Qle_condition.
    destruct (Qltb (v - inject_Z (Qfloor v)) (1 # 2)) eqn:A; bool_to_Prop.
    + lra.
    + destruct (Qltb (1 # 2) (v - inject_Z (Qfloor v))) eqn:B; bool_to_Prop.
      * rewrite inject_Z_plus. change (inject_Z 1) with 1. lra.
      * destruct (Z.even (Qfloor v)).
        -- lra.
        -- rewrite inject_Z_plus. change (inject_Z 1) with 1. lra.
  - intros n E.
    assert (F : Qfloor v = n) by (rewrite E; apply Qfloor_Z).
    rewrite F.
    rewrite (Qltb_comp (v - inject_Z n) 0 (1 # 2) (1 # 2)) by lra.
    reflexivity.
  - intros n E.
    assert (F : Qfloor v = n).
    { assert (A : (Qfloor v < n + 1)%Z).
      { rewrite Zlt_Qlt, inject_Z_plus. change (inject_Z 1) with 1.
        lra. }
      assert (B : (n < Qfloor v + 1)%Z).
      { rewrite Zlt_Qlt, inject_Z_plus. change (inject_Z 1) with 1.
        lra. }
      lia. }
    rewrite F.
    rewrite (Qltb_comp (v - inject_Z n) (1 # 2) (1 # 2) (1 # 2)) by lra.
    rewrite (Qltb_comp (1 # 2) (1 # 2) (v - inject_Z n) (1 # 2)) by lra.
    change (Qltb (1 # 2) (1 # 2)) with false. cbn iota.
    destruct (Z.even n) eqn:Ev.
    + split; [exact Ev|left; reflexivity].
    + split; [|right; reflexivity].
      rewrite Z.even_add, Ev. reflexivity.
Qed.

(** ** Manhattan distance *)

(** [_manhattan] is a metric on points: symmetric, zero exactly between
    equal points, and subject to the triangle inequality, which is what
    makes it a consistent heuristic for the search. *)
Theorem manhattan_metric (a b c : Point) :
  _manhattan a b == _manhattan b a /\
  (_manhattan a b == 0 <-> Peq a b) /\
  _manhattan a c <= _manhattan a b + _manhattan b c /\
  _manhattan a c - _manhattan b c <= _manhattan a b.
Proof.
  unfold _manhattan, Peq.
  destruct (Qabs_cases (fst a - fst b)) as [[? ?]|[? ?]],
           (Qabs_cases (snd a - snd b)) as [[? ?]|[? ?]],
           (Qabs_cases (fst b - fst a)) as [[? ?]|[? ?]],
           (Qabs_cases (snd b - snd a)) as [[? ?]|[? ?]],
           (Qabs_cases (fst a - fst c)) as [[? ?]|[? ?]],
           (Qabs_cases (snd a - snd c)) as [[? ?]|[? ?]],
           (Qabs_cases (fst b - fst c)) as [[? ?]|[? ?]],
           (Qabs_cases (snd b - snd c)) as [[? ?]|[? ?]];
    repeat split; intros; lra.
Qed.

(** ** Padding *)

(** [_expand] moves every edge outwards by the padding and keeps the
    centre; with a padding that is not negative the expanded interior
    contains the original one, and padding twice is padding by the sum. *)
Theorem expand_geometry (r : Rect) (pad pad' : Q) :
  left (_expand r pad) == left r - pad /\
  right (_expand r pad) == right r + pad /\
  top (_expand r pad) == top r - pad /\
  bottom (_expand r pad) == bottom r + pad /\
  cx (_expand r pad) == cx r /\ cy (_expand r pad) == cy r /\
  (0 <= pad -> forall p, strictly_inside r p ->
                         strictly_inside (_expand r pad) p) /\
  (forall p, strictly_inside (_expand (_expand r pad) pad') p <->
             strictly_inside (_expand r (pad + pad')) p).
Proof.
  unfold strictly_inside, left, right, top, bottom, cx, cy, _expand.
  cbn [rx ry rw rh]. halves.
  repeat split; intros; try lra;
    repeat match goal with
           | H : _ /\ _ |- _ => destruct H
           end; lra.
Qed.

(** ** Anchors *)

(** [_anchor] answers for the four sides only; any other string raises the
    [ValueError] that names it.  The anchor of a side is the midpoint of
    that side, and when the width and height are not negative it lies on
    the boundary of the rectangle. *)
Theorem anchor_on_side (rect : Rect) (side : Side) :
  (~ valid_side side ->
   _anchor rect side = Raise (ValueError ("unknown side: " ++ side))) /\
  (forall p, _anchor rect side = Ret p ->
     valid_side side /\
     (side = "left"%string ->
        fst p == left rect /\ snd p == (top rect + bottom rect) / 2) /\
     (side = "right"%string ->
        fst p == right rect /\ snd p == (top rect + bottom rect) / 2) /\
     (side = "top"%string ->
        snd p == top rect /\ fst p == (left rect + right rect) / 2) /\
     (side = "bottom"%string ->
        snd p == bottom rect /\ fst p == (left rect + right rect) / 2) /\
     (0 <= rw rect -> 0 <= rh rect ->
        left rect <= fst p <= right rect /\
        top rect <= snd p <= bottom rect)).
Proof.
  unfold _anchor, valid_side.
  destruct (String.eqb_spec side "left") as [->|N1].
  { split; [intro H; exfalso; apply H; cbn; auto|].
    intros p H. inversion H; subst p.
    unfold left, right, top, bottom, cx, cy. cbn [fst snd]. halves.
    repeat split; try (cbn; auto; fail);
      intros; try discriminate; lra. }
  destruct (String.eqb_spec side "right") as [->|N2].
  { split; [intro H; exfalso; apply H; cbn; auto|].
    intros p H. inversion H; subst p.
    unfold left, right, top, bottom, cx, cy. cbn [fst snd]. halves.
    repeat split; try (cbn; auto; fail);
      intros; try discriminate; lra. }
  destruct (String.eqb_spec side "top") as [->|N3].
  { split; [intro H; exfalso; apply H; cbn; auto|].
    intros p H. inversion H; subst p.
    unfold left, right, top, bottom, cx, cy. cbn [fst snd]. halves.
    repeat split; try (cbn; auto 6; fail);
      intros; try discriminate; lra. }
  destruct (String.eqb_spec side "bottom") as [->|N4].
  { split; [intro H; exfalso; apply H; cbn; auto|].
    intros p H. inversion H; subst p.
    unfold left, right, top, bottom, cx, cy. cbn [fst snd]. halves.
    repeat split; try (cbn; auto 6; fail);
      intros; try discriminate; lra. }
  split; [reflexivity|]. intros p H. discriminate.
Qed.

(** ** Side selection *)


(** [_pick_sides] always pairs a side with the facing one; the source's side
    looks towards the destination's centre; when the horizontal and the
    vertical displacement are equal in size the horizontal pair is chosen;
    and, unless the two centres coincide, exchanging source and destination
    exchanges the two sides. *)
Theorem pick_sides_facing (src dst : Rect) :
  let dx := cx dst - cx src in
  let dy := cy dst - cy src in
  (_pick_sides src dst = ("right", "left")%string
     /\ 0 <= dx /\ Qabs dy <= Qabs dx \/
   _pick_sides src dst = ("left", "right")%string
     /\ dx < 0 /\ Qabs dy <= Qabs dx \/
   _pick_sides src dst = ("bottom", "top")%string
     /\ 0 <= dy /\ Qabs dx < Qabs dy \/
   _pick_sides src dst = ("top", "bottom")%string
     /\ dy < 0 /\ Qabs dx < Qabs dy) /\
  (Qabs dx == Qabs dy ->
   _pick_sides src dst = ("right", "left")%string \/
   _pick_sides src dst = ("left", "right")%string) /\
  (~ (dx == 0 /\ dy == 0) ->
   _pick_sides dst src
   = (snd (_pick_sides src dst), fst (_pick_sides src dst))).
Proof.
  cbv zeta. unfold _pick_sides.
  generalize (cx dst) (cx src) (cy dst) (cy src). intros xd xs yd ys.
  rewrite (Qabs_Qminus ys yd), (Qabs_Qminus xs xd).
  destruct (Qabs_cases (xd - xs)) as [[? A1]|[? A1]],
           (Qabs_cases (yd - ys)) as [[? A2]|[? A2]];
    destruct (Qle_bool (Qabs (yd - ys)) (Qabs (xd - xs))) eqn:T1,
             (Qle_bool 0 (xd - xs)) eqn:T2,
             (Qle_bool 0 (yd - ys)) eqn:T3;
    bool_to_Prop; try (exfalso; lra);
    destruct (Qle_bool 0 (xs - xd)) eqn:T5,
             (Qle_bool 0 (ys - yd)) eqn:T6;
    bool_to_Prop; try (exfalso; lra);
    (split; [|split]);
    try (intro; try reflexivity; try (exfalso; lra); auto; fail);
    try (left; repeat split; lra);
    try (right; left; repeat split; lra);
    try (right; right; left; repeat split; lra);
    try (right; right; right; repeat split; lra).
Qed.

(** ** The clearance test *)

Lemma py_max_comp (a a' b b' : Q) :
  a == a' -> b == b' -> py_max a b == py_max a' b'.
Proof.
  intros Ha Hb. unfold py_max. rewrite (Qltb_comp a a' b b' Ha Hb).
  destruct (Qltb a' b'); assumption.
Qed.

Lemma py_min_comp (a a' b b' : Q) :
  a == a' -> b == b' -> py_min a b == py_min a' b'.
Proof.
  intros Ha Hb. unfold py_min. rewrite (Qltb_comp b b' a a' Hb Ha).
  destruct (Qltb b' a'); assumption.
Qed.

Lemma forallb_pointwise {A : Type} (f g : A -> bool) (l : list A) :
  (forall a, f a = g a) -> forallb f l = forallb g l.
Proof.
  intro H. induction l as [|a l IH]; [reflexivity|].
  cbn [forallb]. rewrite H, IH. reflexivity.
Qed.

Lemma column_clear_comp (x x' lo lo' hi hi' : Q) (obstacles : list Rect) :
  x == x' -> lo == lo' -> hi == hi' ->
  column_clear x lo hi obstacles = column_clear x' lo' hi' obstacles.
Proof.
  intros Hx Hl Hh. unfold column_clear. apply forallb_pointwise. intro r.
  rewrite (Qltb_comp (left r) (left r) x x'), (Qltb_comp x x' (right r) (right r))
    by (assumption || reflexivity).
  rewrite (Qltb_comp (py_max lo (top r)) (py_max lo' (top r))
             (py_min hi (bottom r)) (py_min hi' (bottom r)));
    [reflexivity|apply py_max_comp|apply py_min_comp];
    assumption || reflexivity.
Qed.

Lemma row_clear_comp (y y' lo lo' hi hi' : Q) (obstacles : list Rect) :
  y == y' -> lo == lo' -> hi == hi' ->
  row_clear y lo hi obstacles = row_clear y' lo' hi' obstacles.
Proof.
  intros Hy Hl Hh. unfold row_clear. apply forallb_pointwise. intro r.
  rewrite (Qltb_comp (top r) (top r) y y'), (Qltb_comp y y' (bottom r) (bottom r))
    by (assumption || reflexivity).
  rewrite (Qltb_comp (py_max lo (left r)) (py_max lo' (left r))
             (py_min hi (right r)) (py_min hi' (right r)));
    [reflexivity|apply py_max_comp|apply py_min_comp];
    assumption || reflexivity.
Qed.

(** [_segment_clear] does not depend on the direction of the segment. *)
Theorem segment_clear_symmetric (a b : Point) (obstacles : list Rect) :
  _segment_clear a b obstacles = _segment_clear b a obstacles.
Proof.
  destruct a as [x1 y1], b as [x2 y2]. unfold _segment_clear.
  rewrite (Qeq_bool_sym' x2 x1), (Qeq_bool_sym' y2 y1).
  destruct (Qeq_bool x1 x2) eqn:Ex, (Qeq_bool y1 y2) eqn:Ey;
    cbn [negb andb]; try reflexivity;
    destruct (Qle_bool y1 y2) eqn:L1, (Qle_bool y2 y1) eqn:L2;
    destruct (Qle_bool x1 x2) eqn:M1, (Qle_bool x2 x1) eqn:M2;
    bool_to_Prop; try (exfalso; lra);
    first [apply column_clear_comp | apply row_clear_comp]; lra.
Qed.

Lemma column_clear_complete (x y_lo y_hi : Q) (obstacles : list Rect) :
  column_clear x y_lo y_hi obstacles = false ->
  exists r y, In r obstacles /\ y_lo <= y <= y_hi /\
    (left r < x /\ x < right r) /\ (top r < y /\ y < bottom r).
Proof.
  unfold column_clear. induction obstacles as [|r obs IH]; [discriminate|].
  cbn [forallb]. intro H. apply andb_false_iff in H.
  destruct H as [H|H].
  - exists r, ((py_max y_lo (top r) + py_min y_hi (bottom r)) * (1 # 2)).
    split; [left; reflexivity|].
    revert H. unfold py_max, py_min.
    destruct (Qltb (left r) x) eqn:?, (Qltb x (right r)) eqn:?;
      cbn [negb andb]; try discriminate.
    destruct (Qltb y_lo (top r)) eqn:?, (Qltb (bottom r) y_hi) eqn:?;
      case_tests; cbn [negb]; intro; try discriminate;
      bool_to_Prop; repeat split; lra.
  - destruct (IH H) as (r' & y & Hin & Hy).
    exists r', y. split; [right; exact Hin|exact Hy].
Qed.

Lemma row_clear_complete (y x_lo x_hi : Q) (obstacles : list Rect) :
  row_clear y x_lo x_hi obstacles = false ->
  exists r x, In r obstacles /\ x_lo <= x <= x_hi /\
    (left r < x /\ x < right r) /\ (top r < y /\ y < bottom r).
Proof.
  unfold row_clear. induction obstacles as [|r obs IH]; [discriminate|].
  cbn [forallb]. intro H. apply andb_false_iff in H.
  destruct H as [H|H].
  - exists r, ((py_max x_lo (left r) + py_min x_hi (right r)) * (1 # 2)).
    split; [left; reflexivity|].
    revert H. unfold py_max, py_min.
    destruct (Qltb (top r) y) eqn:?, (Qltb y (bottom r)) eqn:?;
      cbn [negb andb]; try discriminate.
    destruct (Qltb x_lo (left r)) eqn:?, (Qltb (right r) x_hi) eqn:?;
      case_tests; cbn [negb]; intro; try discriminate;
      bool_to_Prop; repeat split; lra.
  - destruct (IH H) as (r' & x & Hin & Hx).
    exists r', x. split; [right; exact Hin|exact Hx].
Qed.

(** [_segment_clear] is exact.  It rejects a pair of points that share no
    coordinate; for two distinct points on a common axis line it returns
    [True] precisely when no point of the segment between them lies
    strictly inside an obstacle. *)
Theorem segment_clear_exact (a b : Point) (obstacles : list Rect) :
  (~ fst a == fst b -> ~ snd a == snd b ->
   _segment_clear a b obstacles = false) /\
  (aligned_distinct a b ->
   (_segment_clear a b obstacles = true <-> box_free obstacles a b)) /\
  (box_free obstacles a b ->
   forall t, 0 <= t <= 1 ->
   forall r, In r obstacles -> ~ strictly_inside r (point_on a b t)).
Proof.
  split; [|split].
  - destruct a as [x1 y1], b as [x2 y2]. cbn [fst snd]. intros Hx Hy.
    unfold _segment_clear.
    apply Qeq_bool_false in Hx, Hy. rewrite Hx, Hy. reflexivity.
  - intro Al. split.
    + intro C. apply segment_clear_good; [exact C|].
      intros [E1 E2]. unfold aligned_distinct in Al. lra.
    + intro F. destruct (_segment_clear a b obstacles) eqn:C; [reflexivity|].
      exfalso. destruct a as [x1 y1], b as [x2 y2].
      unfold _segment_clear in C. unfold aligned_distinct in Al.
      cbn [fst snd] in Al.
      destruct (Qeq_bool x1 x2) eqn:Ex; cbn [negb andb] in C.
      * destruct (Qle_bool y1 y2) eqn:L;
          apply column_clear_complete in C;
          destruct C as (r & y & Hr & Hy & Ix & Iy);
          refine (F (x1, y) _ r Hr _);
          bool_to_Prop;
          unfold in_box, between, strictly_inside; cbn [fst snd];
          repeat split; lra.
      * destruct (Qeq_bool y1 y2) eqn:Ey; cbn [negb] in C;
          [|bool_to_Prop; lra].
        destruct (Qle_bool x1 x2) eqn:L;
          apply row_clear_complete in C;
          destruct C as (r & x & Hr & Hx & Ix & Iy);
          refine (F (x, y1) _ r Hr _);
          bool_to_Prop;
          unfold in_box, between, strictly_inside; cbn [fst snd];
          repeat split; lra.
  - intros F t Ht r Hr.
    exact (F (point_on a b t) (point_on_in_box a b t Ht) r Hr).
Qed.

Lemma segment_clear_exact_witness :
  _segment_clear (0, 0) (0, 10) [mkRect 5 2 4 4] = true <->
  box_free [mkRect 5 2 4 4] (0, 0) (0, 10).
Proof.
  apply (proj1 (proj2 (segment_clear_exact (0, 0) (0, 10) [mkRect 5 2 4 4]))).
  left. cbn. split; [reflexivity|discriminate].
Defined.

(** ** The elbow of the direct router *)

Lemma py_min_le (a b : Q) : py_min a b <= a /\ py_min a b <= b.
Proof.
  unfold py_min. destruct (Qltb b a) eqn:E; bool_to_Prop; lra.
Qed.

Lemma py_max_ge (a b : Q) : a <= py_max a b /\ b <= py_max a b.
Proof.
  unfold py_max. destruct (Qltb a b) eqn:E; bool_to_Prop; lra.
Qed.

(** When the direct router returns a four-point elbow, the two middle
    points lie on one line parallel to the destination's side, on the
    outer side of the destination anchor and at least one margin away from
    it, and not beyond the middle between the two anchors; the first and
    the last leg are perpendicular to that line. *)
Theorem elbow_clearance (src dst : Rect) (margin : Q) (s m1 m2 e : Point) :
  orthogonal_points src dst margin = Ret [s; m1; m2; e] ->
  (snd (_pick_sides src dst) = "left"%string /\
   snd m1 == snd s /\ fst m1 == fst m2 /\ snd m2 == snd e /\
   fst m2 <= fst e - margin /\ fst m2 <= (fst s + fst e) / 2) \/
  (snd (_pick_sides src dst) = "right"%string /\
   snd m1 == snd s /\ fst m1 == fst m2 /\ snd m2 == snd e /\
   fst e + margin <= fst m2 /\ (fst s + fst e) / 2 <= fst m2) \/
  (snd (_pick_sides src dst) = "top"%string /\
   fst m1 == fst s /\ snd m1 == snd m2 /\ fst m2 == fst e /\
   snd m2 <= snd e - margin /\ snd m2 <= (snd s + snd e) / 2) \/
  (snd (_pick_sides src dst) = "bottom"%string /\
   fst m1 == fst s /\ snd m1 == snd m2 /\ fst m2 == fst e /\
   snd e + margin <= snd m2 /\ (snd s + snd e) / 2 <= snd m2).
Proof.
  unfold orthogonal_points.
  destruct (pick_sides_cases src dst) as [E|[E|[E|E]]]; rewrite E; cbn;
    match goal with
    | |- context [(?a =? ?b)%Z] => destruct (Z.eqb a b)
    end; intro H; inversion H; subst; clear H; cbn [fst snd].
  - left. split; [reflexivity|].
    pose proof (py_min_le (left dst - margin) ((right src + left dst) / 2)).
    repeat split; try reflexivity; tauto.
  - right. left. split; [reflexivity|].
    pose proof (py_max_ge (right dst + margin) ((left src + right dst) / 2)).
    repeat split; try reflexivity; tauto.
  - right. right. left. split; [reflexivity|].
    pose proof (py_min_le (top dst - margin) ((bottom src + top dst) / 2)).
    repeat split; try reflexivity; tauto.
  - right. right. right. split; [reflexivity|].
    pose proof (py_max_ge (bottom dst + margin) ((top src + bottom dst) / 2)).
    repeat split; try reflexivity; tauto.
Qed.

Lemma elbow_clearance_witness :
  (snd (_pick_sides box_a box_b_low) = "left"%string /\
   snd (140 # 2, 20 # 2) == snd (40, 20 # 2) /\
   fst (140 # 2, 20 # 2) == fst (140 # 2, 120 # 2) /\
   snd (140 # 2, 120 # 2) == snd (100, 120 # 2) /\
   fst (140 # 2, 120 # 2) <= fst (100, 120 # 2) - 14 /\
   fst (140 # 2, 120 # 2) <= (fst (40, 20 # 2) + fst (100, 120 # 2)) / 2) \/
  (snd (_pick_sides box_a box_b_low) = "right"%string /\
   snd (140 # 2, 20 # 2) == snd (40, 20 # 2) /\
   fst (140 # 2, 20 # 2) == fst (140 # 2, 120 # 2) /\
   snd (140 # 2, 120 # 2) == snd (100, 120 # 2) /\
   fst (100, 120 # 2) + 14 <= fst (140 # 2, 120 # 2) /\
   (fst (40, 20 # 2) + fst (100, 120 # 2)) / 2 <= fst (140 # 2, 120 # 2)) \/
  (snd (_pick_sides box_a box_b_low) = "top"%string /\
   fst (140 # 2, 20 # 2) == fst (40, 20 # 2) /\
   snd (140 # 2, 20 # 2) == snd (140 # 2, 120 # 2) /\
   fst (140 # 2, 120 # 2) == fst (100, 120 # 2) /\
   snd (140 # 2, 120 # 2) <= snd (100, 120 # 2) - 14 /\
   snd (140 # 2, 120 # 2) <= (snd (40, 20 # 2) + snd (100, 120 # 2)) / 2) \/
  (snd (_pick_sides box_a box_b_low) = "bottom"%string /\
   fst (140 # 2, 20 # 2) == fst (40, 20 # 2) /\
   snd (140 # 2, 20 # 2) == snd (140 # 2, 120 # 2) /\
   fst (140 # 2, 120 # 2) == fst (100, 120 # 2) /\
   snd (100, 120 # 2) + 14 <= snd (140 # 2, 120 # 2) /\
   (snd (40, 20 # 2) + snd (100, 120 # 2)) / 2 <= snd (140 # 2, 120 # 2)).
Proof.
  apply (elbow_clearance box_a box_b_low 14).
  vm_compute. reflexivity.
Defined.

(** * Further properties of the simplifier *)

Lemma subseq_refl (l : list Point) : subseq l l.
Proof.
  induction l as [|a l IH]; [exact I|]. left. split; [reflexivity|exact IH].
Qed.

Lemma subseq_length (l1 : list Point) :
  forall l2, subseq l1 l2 -> (length l1 <= length l2)%nat.
Proof.
  induction l1 as [|a t1 IH1]; intros l2; [cbn; lia|].
  induction l2 as [|b t2 IH2]; [intros []|].
  intros [[_ H]|H].
  - specialize (IH1 t2 H). cbn. lia.
  - specialize (IH2 H). cbn in *. lia.
Qed.

Lemma kept_subseq (rest : list Point) :
  forall prev, subseq (kept prev rest) rest.
Proof.
  induction rest as [|p1 rest IH]; intro prev; [exact I|].
  destruct rest as [|p2 tl]; [apply subseq_refl|].
  rewrite kept_step. destruct (collinear3 prev p1 p2).
  - destruct (kept prev (p2 :: tl)) eqn:K; [exact I|].
    right. rewrite <- K. apply IH.
  - left. split; [reflexivity|apply IH].
Qed.

Lemma kept_nonempty (rest : list Point) :
  forall prev, rest <> [] -> kept prev rest <> [].
Proof.
  induction rest as [|p1 rest IH]; intros prev H; [contradiction|].
  destruct rest as [|p2 tl]; [discriminate|].
  rewrite kept_step. destruct (collinear3 prev p1 p2).
  - apply IH. discriminate.
  - discriminate.
Qed.

(** The simplifier only drops points: its output is the input with some
    points left out, in the same order; a sequence of at most two points is
    returned as it is, and of a longer one at least two points remain. *)
Theorem compress_drops_points (points : list Point) :
  subseq (_compress_collinear points) points /\
  (length (_compress_collinear points) <= length points)%nat /\
  ((length points <= 2)%nat -> _compress_collinear points = points) /\
  ((2 <= length points)%nat -> (2 <= length (_compress_collinear points))%nat).
Proof.
  assert (S : subseq (_compress_collinear points) points).
  { destruct points as [|p0 rest]; [exact I|].
    rewrite compress_kept. left. split; [reflexivity|apply kept_subseq]. }
  split; [exact S|]. split; [apply subseq_length; exact S|]. split.
  - intro L. unfold _compress_collinear.
    destruct (Nat.leb_spec (length points) 2); [reflexivity|lia].
  - destruct points as [|p0 [|p1 rest]]; cbn [length]; try lia.
    intros _. rewrite compress_kept.
    pose proof (kept_nonempty (p1 :: rest) p0 ltac:(discriminate)) as N.
    destruct (kept p0 (p1 :: rest)); [contradiction|cbn; lia].
Qed.

(** When no point occurs twice in the input, no interior point of the
    simplified sequence shares its x or its y with both its neighbours:
    nothing is left to simplify. *)
Theorem compress_leaves_no_collinear (points : list Point) (p0 : Point)
    (rest : list Point) :
  pairwise_distinct points = true ->
  _compress_collinear points = p0 :: rest ->
  tight p0 rest.
Proof.
  intros D E. destruct points as [|q0 qs]; [discriminate|].
  rewrite compress_kept in E. inversion E; subst.
  apply pairwise_distinct_cons in D. destruct D as [D0 D].
  apply (kept_tight (length qs)); auto.
Qed.

Lemma compress_leaves_no_collinear_witness :
  tight (0, 0) [(0, 2); (5, 2)].
Proof.
  apply (compress_leaves_no_collinear [(0, 0); (0, 1); (0, 2); (5, 2)]).
  - vm_compute. reflexivity.
  - vm_compute. reflexivity.
Defined.

(** * Further properties of the search *)

Lemma set_mem_discard (n c : Point) (s : list Point) :
  set_mem point_eqb n (set_discard point_eqb c s)
  = set_mem point_eqb n s && negb (point_eqb n c).
Proof.
  unfold set_discard.
  induction s as [|k s IH]; [reflexivity|]. cbn [filter].
  change (set_mem point_eqb n (k :: s))
    with (point_eqb n k || set_mem point_eqb n s).
  destruct (point_eqb c k) eqn:E; cbn [negb].
  - rewrite IH. destruct (point_eqb n k) eqn:F; [|reflexivity].
    assert (G : point_eqb n c = true).
    { apply (point_eqb_trans n k c F). rewrite point_eqb_sym. exact E. }
    rewrite G. cbn. rewrite andb_false_r. reflexivity.
  - change (set_mem point_eqb n (k :: filter (fun k' => negb (point_eqb c k')) s))
      with (point_eqb n k
            || set_mem point_eqb n (filter (fun k' => negb (point_eqb c k')) s)).
    rewrite IH. destruct (point_eqb n k) eqn:F; [|reflexivity].
    destruct (point_eqb n c) eqn:G; [|reflexivity].
    exfalso. rewrite point_eqb_sym in G.
    rewrite (point_eqb_trans c n k G F) in E. discriminate.
Qed.

Lemma entry_eqb_node (e e' : entry) :
  entry_eqb e e' = true -> point_eqb (snd e) (snd e') = true.
Proof. unfold entry_eqb. intro H. apply andb_true_iff in H. apply H. Qed.

Lemma remove_first_frontier (e : entry) (h : list entry) :
  distinct point_eqb (map snd h) = true -> In e h ->
  distinct point_eqb (map snd (remove_first e h)) = true /\
  forall n, set_mem point_eqb n (map snd (remove_first e h))
            = set_mem point_eqb n (map snd h) && negb (point_eqb n (snd e)).
Proof.
  induction h as [|e' h IH]; intros D Hin; [contradiction|].
  cbn [map] in D.
  change (distinct point_eqb (snd e' :: map snd h))
    with (negb (set_mem point_eqb (snd e') (map snd h))
          && distinct point_eqb (map snd h)) in D.
  apply andb_true_iff in D. destruct D as [D1 D2].
  apply negb_true_iff in D1.
  cbn [remove_first]. destruct (entry_eqb e e') eqn:E.
  - apply entry_eqb_node in E. split; [exact D2|]. intro n. cbn [map].
    change (set_mem point_eqb n (snd e' :: map snd h))
      with (point_eqb n (snd e') || set_mem point_eqb n (map snd h)).
    destruct (point_eqb n (snd e)) eqn:F; cbn [negb].
    + rewrite andb_false_r.
      rewrite (set_mem_congr point_eqb point_eqb_sym point_eqb_trans
                 n (snd e') (map snd h)); [exact D1|].
      exact (point_eqb_trans _ _ _ F E).
    + rewrite andb_true_r.
      destruct (point_eqb n (snd e')) eqn:G; [|reflexivity].
      exfalso. rewrite point_eqb_sym in E.
      rewrite (point_eqb_trans _ _ _ G E) in F. discriminate.
  - assert (Hin' : In e h).
    { destruct Hin as [->|Hin]; [|exact Hin].
      rewrite entry_eqb_refl in E. discriminate. }
    destruct (IH D2 Hin') as [I1 I2].
    assert (N : point_eqb (snd e') (snd e) = false).
    { apply (proj1 (set_mem_false_iff point_eqb (snd e') (map snd h)) D1).
      apply in_map. exact Hin'. }
    split.
    + cbn [map].
      change (distinct point_eqb (snd e' :: map snd (remove_first e h)))
        with (negb (set_mem point_eqb (snd e') (map snd (remove_first e h)))
              && distinct point_eqb (map snd (remove_first e h))).
      rewrite I1, I2, D1. reflexivity.
    + intro n. cbn [map].
      change (set_mem point_eqb n (snd e' :: map snd (remove_first e h)))
        with (point_eqb n (snd e')
              || set_mem point_eqb n (map snd (remove_first e h))).
      change (set_mem point_eqb n (snd e' :: map snd h))
        with (point_eqb n (snd e') || set_mem point_eqb n (map snd h)).
      rewrite I2.
      destruct (point_eqb n (snd e')) eqn:G; [|reflexivity].
      cbn [orb].
      destruct (point_eqb n (snd e)) eqn:F; [|reflexivity].
      exfalso. rewrite point_eqb_sym in G.
      rewrite (point_eqb_trans _ _ _ G F) in N. discriminate.
Qed.

Lemma nbrs_congr edges (a b : Point) : Peq a b -> nbrs edges a = nbrs edges b.
Proof. intro H. unfold nbrs. rewrite (pget_congr edges a b H). reflexivity. Qed.

Lemma discovered_congr st (a b : Point) :
  Peq a b -> discovered st a -> discovered st b.
Proof.
  intros E H. unfold discovered in *.
  rewrite <- (pget_congr (g_score st) a b E). exact H.
Qed.

(** One relaxation returns, keeps the invariant, scores [nxt] and forgets
    no score. *)
Lemma relax_frontier start goal edges current st nxt :
  frontier_inv start goal edges (Some current) st ->
  discovered st current ->
  exists st',
    relax goal current st nxt = Ret st' /\
    frontier_inv start goal edges (Some current) st' /\
    discovered st' nxt /\
    (forall n, discovered st n -> discovered st' n).
Proof.
  intros Inv Dc. unfold relax. unfold discovered in Dc.
  destruct (dict_get point_eqb (g_score st) current) as [gc|] eqn:Gc;
    [|contradiction].
  destruct (match dict_get point_eqb (g_score st) nxt with
            | Some g_nxt => Qltb (gc + _manhattan current nxt) g_nxt
            | None => true
            end) eqn:Imp.
  2:{ exists st. split; [reflexivity|]. split; [exact Inv|].
      split; [|auto]. unfold discovered.
      destruct (dict_get point_eqb (g_score st) nxt); discriminate. }
  set (t := gc + _manhattan current nxt) in *.
  assert (Mono : forall h cf io n, discovered st n ->
            discovered (mkState h cf (dict_set point_eqb (g_score st) nxt t) io) n).
  { intros h cf io n H. unfold discovered in *. cbn [g_score].
    rewrite pget_set. destruct (point_eqb n nxt); [discriminate|exact H]. }
  assert (Dn : forall h cf io,
            discovered (mkState h cf (dict_set point_eqb (g_score st) nxt t) io) nxt).
  { intros h cf io. unfold discovered. cbn [g_score].
    rewrite pget_set, point_eqb_refl. discriminate. }
  destruct (set_mem point_eqb nxt (in_open st)) eqn:Mo; cbn [negb].
  - (* already on the frontier *)
    eexists. split; [reflexivity|]. split; [|split; [apply Dn|apply Mono]].
    destruct Inv as [I1 I2 I3 I4 I5].
    constructor; unfold frontier in *; cbn [open_heap in_open] in *.
    + exact I1.
    + exact I2.
    + intros n H. apply Mono. apply I3. exact H.
    + apply Mono. exact I4.
    + intros n H. unfold discovered in H. cbn [g_score] in H.
      rewrite pget_set in H. destruct (point_eqb n nxt) eqn:E.
      * left. rewrite <- I2.
        rewrite (set_mem_congr point_eqb point_eqb_sym point_eqb_trans
                   n nxt _ E). exact Mo.
      * destruct (I5 n H) as [A|[[A B]|A]]; [auto| |auto].
        right. left. split; [exact A|]. intros m Hm. apply Mono.
        exact (B m Hm).
  - (* pushed *)
    eexists. split; [reflexivity|]. split; [|split; [apply Dn|apply Mono]].
    destruct Inv as [I1 I2 I3 I4 I5].
    assert (Fr : forall n,
      set_mem point_eqb n
        (map snd (heappush (open_heap st) (t + _manhattan nxt goal, nxt)))
      = set_mem point_eqb n (map snd (open_heap st)) || point_eqb n nxt).
    { intro n. unfold heappush. rewrite map_app.
      rewrite (set_mem_app point_eqb). cbn. rewrite orb_false_r.
      reflexivity. }
    constructor; unfold frontier in *; cbn [open_heap in_open] in *.
    + unfold heappush. rewrite map_app. cbn [map snd].
      rewrite (distinct_snoc point_eqb point_eqb_sym).
      apply andb_true_iff. split; [exact I1|].
      apply negb_true_iff. exact (eq_trans (eq_sym (I2 nxt)) Mo).
    + intro n. rewrite Fr, (set_mem_add point_eqb point_eqb_trans), I2.
      reflexivity.
    + intros n H. rewrite Fr in H. apply orb_true_iff in H.
      destruct H as [H|H].
      * apply Mono. apply I3. exact H.
      * apply (discovered_congr _ nxt n); [|apply Dn].
        symmetry. apply point_eqb_Peq. exact H.
    + apply Mono. exact I4.
    + intros n H. rewrite Fr. unfold discovered in H. cbn [g_score] in H.
      rewrite pget_set in H. destruct (point_eqb n nxt) eqn:E.
      * left. apply orb_true_r.
      * rewrite orb_false_r.
        destruct (I5 n H) as [A|[[A B]|A]]; [auto| |auto].
        right. left. split; [exact A|]. intros m Hm. apply Mono.
        exact (B m Hm).
Qed.

Lemma relax_all_frontier start goal edges current (l : list Point) :
  forall st,
    frontier_inv start goal edges (Some current) st ->
    discovered st current ->
    exists st',
      relax_all goal current st l = Ret st' /\
      frontier_inv start goal edges (Some current) st' /\
      (forall m, In m l -> discovered st' m) /\
      (forall n, discovered st n -> discovered st' n).
Proof.
  induction l as [|nxt l IH]; intros st Inv Dc.
  - exists st. split; [reflexivity|]. split; [exact Inv|].
    split; [intros m []|auto].
  - destruct (relax_frontier _ _ _ _ _ nxt Inv Dc)
      as (st1 & R1 & Inv1 & Dn & Mono1).
    destruct (IH st1 Inv1 (Mono1 _ Dc)) as (st2 & R2 & Inv2 & Dl & Mono2).
    exists st2. cbn [relax_all]. rewrite R1. cbn [bind].
    split; [exact R2|]. split; [exact Inv2|]. split.
    + intros m [<-|Hm]; [apply Mono2; exact Dn|apply Dl; exact Hm].
    + intros n H. apply Mono2, Mono1. exact H.
Qed.

Lemma walk_back_returns cf :
  forall fuel current path,
    (exists r, walk_back fuel cf current path = Ret r) \/
    walk_back fuel cf current path = OutOfFuel.
Proof.
  induction fuel as [|fuel IH]; intros current path; cbn;
    destruct (dict_get point_eqb cf current); eauto.
Qed.

(** Once every scored node has been expanded, the scored nodes are all the
    nodes that can be reached, and the goal is not among them. *)
Lemma exhausted_unreachable start goal edges st :
  frontier_inv start goal edges None st ->
  open_heap st = [] ->
  ~ reachable edges start goal.
Proof.
  intros [I1 I2 I3 I4 I5] He.
  unfold frontier in I5. rewrite He in I5. cbn in I5.
  assert (R : forall n, reachable edges start n ->
                        discovered st n /\ ~ Peq n goal).
  { intros n H. induction H as [b E|b c H [IHd IHg] (c' & Ec & Hc)].
    - assert (D : discovered st b) by (apply (discovered_congr st start); auto).
      split; [exact D|].
      destruct (I5 b D) as [A|[[A _]|(x & A & _)]];
        [discriminate|exact A|discriminate].
    - destruct (I5 b IHd) as [A|[[_ B]|(x & A & _)]];
        [discriminate| |discriminate].
      assert (D : discovered st c).
      { apply (discovered_congr st c'); [symmetry; exact Ec|].
        apply B. exact Hc. }
      split; [exact D|].
      destruct (I5 c D) as [A|[[A _]|(x & A & _)]];
        [discriminate|exact A|discriminate]. }
  intro H. destruct (R goal H) as [_ N]. apply N. reflexivity.
Qed.

Lemma a_star_loop_sound start goal edges :
  forall fuel st,
    frontier_inv start goal edges None st ->
    (forall e, a_star_loop fuel goal edges st <> Raise e) /\
    (a_star_loop fuel goal edges st = Ret None ->
     ~ reachable edges start goal).
Proof.
  induction fuel as [|fuel IH]; intros st Inv; cbn [a_star_loop];
    destruct (heappop (open_heap st)) as [[[f current] heap']|] eqn:P.
  - split; [discriminate|discriminate].
  - split; [discriminate|]. intros _.
    apply (exhausted_unreachable start goal edges st Inv).
    unfold heappop in P. destruct (open_heap st); [reflexivity|discriminate].
  - destruct (heappop_In _ _ _ P) as [Hin _].
    assert (Hrest : heap' = remove_first (f, current) (open_heap st)).
    { unfold heappop in P. destruct (open_heap st) as [|e0 h]; [discriminate|].
      inversion P. reflexivity. }
    destruct (point_eqb current goal) eqn:G.
    + cbn [came_from].
      destruct (walk_back_returns (came_from st) fuel current [current])
        as [[r W]|W]; rewrite W; cbn [bind]; split; discriminate.
    + pose proof Inv as [I1 I2 I3 I4 I5]. unfold frontier in *.
      destruct (remove_first_frontier (f, current) (open_heap st) I1 Hin)
        as [R1 R2]. rewrite <- Hrest in R1, R2. cbn [snd] in R2.
      assert (Dc : discovered st current).
      { apply I3. unfold set_mem. apply existsb_exists. exists current.
        split; [|apply point_eqb_refl].
        apply (in_map snd) in Hin. exact Hin. }
      assert (Inv1 : frontier_inv start goal edges (Some current)
                 (mkState heap' (came_from st) (g_score st)
                    (set_discard point_eqb current (in_open st)))).
      { constructor; unfold frontier, discovered in *;
          cbn [open_heap in_open g_score].
        - exact R1.
        - intro n. rewrite set_mem_discard, R2, I2. reflexivity.
        - intros n H. rewrite R2 in H. apply andb_true_iff in H.
          apply I3. apply H.
        - exact I4.
        - intros n H. rewrite R2.
          destruct (point_eqb n current) eqn:E.
          + right. right. exists current. split; [reflexivity|].
            apply point_eqb_Peq. exact E.
          + rewrite andb_true_r.
            destruct (I5 n H) as [A|[A|(x & A & _)]]; auto. discriminate. }
      destruct (relax_all_frontier start goal edges current
                  (nbrs edges current) _ Inv1 Dc)
        as (st2 & R & Inv2 & Dl & Mono).
      unfold nbrs in R. rewrite R. cbn [bind].
      apply IH.
      destruct Inv2 as [J1 J2 J3 J4 J5].
      constructor; try assumption.
      intros n H. destruct (J5 n H) as [A|[A|(c & A & B)]]; auto.
      inversion A; subst c. right. left. split.
      * intro N. apply point_eqb_false in G. apply G.
        transitivity n; [symmetry; exact B|exact N].
      * intros m Hm. apply Dl. rewrite <- (nbrs_congr edges n current B).
        exact Hm.
  - split; [discriminate|]. intros _.
    apply (exhausted_unreachable start goal edges st Inv).
    unfold heappop in P. destruct (open_heap st); [reflexivity|discriminate].
Qed.

Lemma initial_frontier_inv start goal edges :
  frontier_inv start goal edges None
    (mkState (heappush [] (_manhattan start goal, start)) []
       [(start, 0)] [start]).
Proof.
  constructor; unfold frontier, discovered;
    cbn [open_heap in_open g_score heappush app map snd].
  - reflexivity.
  - reflexivity.
  - intros n H. cbn in *. rewrite orb_false_r in H. rewrite H. discriminate.
  - cbn. rewrite point_eqb_refl. discriminate.
  - intros n H. left. cbn in *.
    destruct (point_eqb n start); [reflexivity|contradiction].
Qed.

Lemma reachable_congr_l edges (a a' b : Point) :
  Peq a a' -> reachable edges a b -> reachable edges a' b.
Proof.
  intros E H. induction H as [b H|b c H IH L].
  - apply reach_here. transitivity a; [symmetry; exact E|exact H].
  - exact (reach_step edges a' b c IH L).
Qed.

Lemma reachable_congr_r edges (a b b' : Point) :
  Peq b b' -> reachable edges a b -> reachable edges a b'.
Proof.
  intros E H. destruct H as [b H|b0 b H L].
  - apply reach_here. transitivity b; assumption.
  - apply (reach_step edges a b0 b' H). exact (linked_congr _ _ _ _ E L).
Qed.

Lemma walk_reachable edges (path : list Point) :
  forall a,
    (forall x y, In (x, y) (segments (a :: path)) -> linked edges x y) ->
    reachable edges a (last path a).
Proof.
  induction path as [|z init IH] using rev_ind; intros a H.
  - apply reach_here. reflexivity.
  - rewrite last_last.
    change (a :: init ++ [z]) with ((a :: init) ++ [z]) in H.
    rewrite segments_snoc in H.
    apply (reach_step edges a (last init a) z).
    + apply IH. intros x y Hxy. apply H. apply in_or_app. left. exact Hxy.
    + apply H. apply in_or_app. right. left.
      rewrite last_cons_default. reflexivity.
Qed.

(** [_a_star] raises nothing, whatever graph it is given: every node it
    pops has a score, so [g_score[current]] is always found. *)
Theorem astar_never_raises (fuel : nat) (start goal : Point)
    (nodes : list Point) (edges : list (Point * list Point)) (e : exn) :
  _a_star fuel start goal nodes edges <> Raise e.
Proof.
  unfold _a_star.
  apply (a_star_loop_sound start goal edges fuel _
           (initial_frontier_inv start goal edges)).
Qed.

(** [_a_star] answers [None] only when the goal cannot be reached from the
    start along the edges it was given. *)
Theorem astar_none_unreachable (fuel : nat) (start goal : Point)
    (nodes : list Point) (edges : list (Point * list Point)) :
  _a_star fuel start goal nodes edges = Ret None ->
  ~ reachable edges start goal.
Proof.
  unfold _a_star.
  apply (a_star_loop_sound start goal edges fuel _
           (initial_frontier_inv start goal edges)).
Qed.

Lemma astar_none_unreachable_witness :
  ~ reachable (g_edges covered_grid) (40, 20 # 2) (100, 20 # 2).
Proof.
  apply (astar_none_unreachable 100 (40, 20 # 2) (100, 20 # 2)
           (g_nodes covered_grid) (g_edges covered_grid)).
  vm_compute. reflexivity.
Defined.

(** A path that [_a_star] returns is a walk of the graph from the start to
    the goal that visits no node twice: it is not empty, each of its steps
    follows an edge listed for the node it leaves, and so the goal is
    reachable. *)
Theorem astar_path_is_walk (fuel : nat) (start goal : Point)
    (nodes : list Point) (edges : list (Point * list Point))
    (path : list Point) :
  _a_star fuel start goal nodes edges = Ret (Some path) ->
  (exists first rest, path = first :: rest /\ Peq first start /\
                      Peq (last rest first) goal) /\
  (forall a b, In (a, b) (segments path) -> linked edges a b) /\
  pairwise_distinct path = true /\
  reachable edges start goal.
Proof.
  intro A.
  destruct (a_star_path_facts _ _ _ _ _ _ A)
    as ((first & rest & -> & F) & (init & final & P & G) & L & D).
  assert (E : last rest first = final).
  { rewrite <- (last_cons_default rest first first), P, last_last.
    reflexivity. }
  split; [|split; [exact L|split; [exact D|]]].
  - exists first, rest. split; [reflexivity|]. split; [exact F|].
    rewrite E. exact G.
  - apply (reachable_congr_l edges first start); [exact F|].
    apply (reachable_congr_r edges first (last rest first) goal).
    + rewrite E. exact G.
    + apply walk_reachable. exact L.
Qed.

Lemma astar_path_is_walk_witness :
  (exists first rest, detour_path = first :: rest /\
                      Peq first (40, 20 # 2) /\
                      Peq (last rest first) (100, 20 # 2)) /\
  (forall a b, In (a, b) (segments detour_path) ->
               linked (g_edges detour_grid) a b) /\
  pairwise_distinct detour_path = true /\
  reachable (g_edges detour_grid) (40, 20 # 2) (100, 20 # 2).
Proof.
  apply (astar_path_is_walk 100 (40, 20 # 2) (100, 20 # 2)
           (g_nodes detour_grid) (g_edges detour_grid) detour_path).
  vm_compute. reflexivity.
Defined.

(** * Further properties of the grid graph *)

Lemma adds_In (ops : list (Point * Point)) (a v : Point) :
  In v (adds ops a) <-> exists k, In (k, v) ops /\ point_eqb a k = true.
Proof.
  unfold adds. rewrite in_flat_map. split.
  - intros ([k v'] & Hin & H). cbn [fst snd] in H.
    destruct (point_eqb a k) eqn:E; [|contradiction].
    destruct H as [<-|[]]. exists k. auto.
  - intros (k & Hin & E). exists (k, v). split; [exact Hin|].
    cbn [fst snd]. rewrite E. left. reflexivity.
Qed.

Lemma nbrs_build_edges set_iter obstacles node_set (a : Point) :
  nbrs (build_edges set_iter obstacles node_set) a
  = if set_mem point_eqb a (set_iter Point node_set)
    then adds (edge_ops set_iter obstacles node_set) a else [].
Proof.
  unfold nbrs.
  rewrite build_edges_as_ops, dict_get_append_all, dict_get_fresh.
  destruct (set_mem point_eqb a (set_iter Point node_set)); reflexivity.
Qed.

Lemma line_ops_sym obstacles key pts (k v : Point) :
  In (k, v) (line_ops obstacles key pts) ->
  In (v, k) (line_ops obstacles key pts).
Proof.
  unfold line_ops. rewrite !in_flat_map.
  intros (ab & Hab & H). exists ab. split; [exact Hab|].
  unfold link_ops in *.
  destruct (_segment_clear (fst ab) (snd ab) obstacles); [|contradiction].
  destruct H as [H|[H|[]]]; inversion H; subst; cbn; auto.
Qed.

Lemma edge_ops_sym set_iter obstacles node_set (k v : Point) :
  In (k, v) (edge_ops set_iter obstacles node_set) ->
  In (v, k) (edge_ops set_iter obstacles node_set).
Proof.
  unfold edge_ops. intro H. apply in_app_or in H. apply in_or_app.
  destruct H as [H|H]; [left|right];
    apply in_flat_map in H; destruct H as (g & Hg & H);
    apply in_flat_map; exists g; (split; [exact Hg|]);
    apply line_ops_sym; exact H.
Qed.

Lemma edge_ops_source set_iter obstacles node_set (k v : Point) :
  In (k, v) (edge_ops set_iter obstacles node_set) ->
  In k (set_iter Point node_set).
Proof.
  unfold edge_ops. intro H. apply in_app_or in H.
  destruct H as [H|H]; exact (group_ops_sources _ _ _ _ (k, v) H).
Qed.

Lemma In_set_mem (a : Point) (l : list Point) :
  In a l -> set_mem point_eqb a l = true.
Proof.
  intro H. apply set_mem_true. exists a. split; [exact H|reflexivity].
Qed.

(** The graph is undirected and lives on the node set: when [b] is listed
    among the neighbours of [a], then [a] is listed among the neighbours of
    [b], and both are nodes. *)
Theorem graph_undirected set_iter (obstacles : list Rect)
    (node_set : list Point) (a b : Point) :
  (forall A (l : list A), Permutation (set_iter A l) l) ->
  linked (build_edges set_iter obstacles node_set) a b ->
  linked (build_edges set_iter obstacles node_set) b a /\
  set_mem point_eqb a node_set = true /\
  set_mem point_eqb b node_set = true.
Proof.
  intros Hperm (b' & Eb & Hb). rewrite nbrs_build_edges in Hb.
  destruct (set_mem point_eqb a (set_iter Point node_set)) eqn:Ma;
    [|contradiction].
  apply adds_In in Hb. destruct Hb as (k & Hk & Ek).
  apply point_eqb_Peq in Ek.
  pose proof (edge_ops_sym _ _ _ _ _ Hk) as Hk'.
  pose proof (edge_ops_source _ _ _ _ _ Hk') as Vb.
  split; [|split].
  - exists k. split; [exact Ek|].
    rewrite (nbrs_congr _ b b' Eb), nbrs_build_edges, (In_set_mem _ _ Vb).
    apply adds_In. exists b'. split; [exact Hk'|apply point_eqb_refl].
  - rewrite <- (set_mem_perm a _ _ (Hperm Point node_set)). exact Ma.
  - rewrite <- (set_mem_perm b _ _ (Hperm Point node_set)).
    rewrite (set_mem_congr point_eqb point_eqb_sym point_eqb_trans b b');
      [apply In_set_mem; exact Vb|apply point_eqb_Peq; exact Eb].
Qed.

Lemma graph_undirected_witness :
  linked (build_edges iter_insertion (g_obstacles detour_grid)
            (g_node_set detour_grid)) (52, 20 # 2) (40, 20 # 2) /\
  set_mem point_eqb (40, 20 # 2) (g_node_set detour_grid) = true /\
  set_mem point_eqb (52, 20 # 2) (g_node_set detour_grid) = true.
Proof.
  apply (graph_undirected iter_insertion (g_obstacles detour_grid)
           (g_node_set detour_grid) (40, 20 # 2) (52, 20 # 2)).
  - intros A l. apply Permutation_refl.
  - exists (52, 20 # 2). split; [reflexivity|].
    vm_compute. auto.
Defined.

Lemma blocked_iff obstacles (x y : Q) :
  blocked obstacles x y = true <->
  exists r, In r obstacles /\ strictly_inside r (x, y).
Proof.
  unfold blocked, strictly_inside. rewrite existsb_exists. cbn [fst snd].
  split; intros (r & Hr & H); exists r; (split; [exact Hr|]).
  - apply andb_true_iff in H. destruct H as [H H4].
    apply andb_true_iff in H. destruct H as [H H3].
    apply andb_true_iff in H. destruct H as [H1 H2].
    bool_to_Prop. tauto.
  - destruct H as [[H1 H2] [H3 H4]].
    apply Qltb_lt in H1, H2, H3, H4. rewrite H1, H2, H3, H4. reflexivity.
Qed.

(** The nodes of the grid are exactly the crossings of the grid lines that
    are not strictly inside a padded obstacle; the node set holds them and,
    blocked or not, the start and the goal, and nothing else, each once. *)
Theorem grid_nodes_spec (obstacles : list Rect) (xs_list ys_list : list Q)
    (start goal : Point) :
  let nodes := grid_nodes obstacles xs_list ys_list in
  (forall p, In p nodes <->
     In (fst p) xs_list /\ In (snd p) ys_list /\
     forall r, In r obstacles -> ~ strictly_inside r p) /\
  set_mem point_eqb start (node_set_of start goal nodes) = true /\
  set_mem point_eqb goal (node_set_of start goal nodes) = true /\
  (forall p, set_mem point_eqb p (node_set_of start goal nodes) = true <->
     Peq p start \/ Peq p goal \/ set_mem point_eqb p nodes = true) /\
  pairwise_distinct (node_set_of start goal nodes) = true.
Proof.
  cbv zeta.
  assert (M : forall p,
    set_mem point_eqb p
      (node_set_of start goal (grid_nodes obstacles xs_list ys_list)) = true <->
    Peq p start \/ Peq p goal \/
    set_mem point_eqb p (grid_nodes obstacles xs_list ys_list) = true).
  { intro p. unfold node_set_of.
    rewrite !(set_mem_add point_eqb point_eqb_trans),
      (set_mem_update point_eqb point_eqb_trans).
    cbn [set_mem existsb orb].
    rewrite !orb_true_iff, !point_eqb_Peq. tauto. }
  split; [|split; [|split; [|split]]].
  - intros [x y]. unfold grid_nodes. rewrite in_flat_map. cbn [fst snd].
    split.
    + intros (x' & Hx & H). apply in_flat_map in H.
      destruct H as (y' & Hy & H).
      destruct (blocked obstacles x' y') eqn:B; cbn [negb] in H;
        [contradiction|].
      destruct H as [H|[]]. inversion H; subst x' y'.
      split; [exact Hx|]. split; [exact Hy|].
      intros r Hr I.
      assert (T : blocked obstacles x y = true)
        by (apply blocked_iff; exists r; auto).
      congruence.
    + intros (Hx & Hy & H). exists x. split; [exact Hx|].
      apply in_flat_map. exists y. split; [exact Hy|].
      destruct (blocked obstacles x y) eqn:B; cbn [negb];
        [|left; reflexivity].
      apply blocked_iff in B. destruct B as (r & Hr & I).
      exact (H r Hr I).
  - apply M. left. reflexivity.
  - apply M. right. left. reflexivity.
  - exact M.
  - apply node_set_distinct.
Qed.

Lemma set_mem_permutation {K : Type} (keqb : K -> K -> bool) (x : K)
    (l l' : list K) :
  Permutation l l' -> set_mem keqb x l = set_mem keqb x l'.
Proof.
  intro H. unfold set_mem.
  induction H as [|y l l' H IH|y z l|l l' l'' H1 IH1 H2 IH2]; cbn.
  - reflexivity.
  - rewrite IH. reflexivity.
  - destruct (keqb x y), (keqb x z); reflexivity.
  - congruence.
Qed.

Lemma fold_update_mem {B : Type} (F : B -> list Q) (v : Q) (l : list B) :
  forall s,
    set_mem Qeq_bool v
      (fold_left (fun xs r => set_update Qeq_bool xs (F r)) l s)
    = set_mem Qeq_bool v s || existsb (fun r => set_mem Qeq_bool v (F r)) l.
Proof.
  induction l as [|r l IH]; intro s; cbn [fold_left existsb].
  - rewrite orb_false_r. reflexivity.
  - rewrite IH, (set_mem_update Qeq_bool Qeq_bool_trans'), orb_assoc.
    reflexivity.
Qed.

Lemma sorted_lines set_iter (s : list Q) :
  (forall A (l : list A), Permutation (set_iter A l) l) ->
  distinct Qeq_bool s = true ->
  sorted_by (fun v => v) (sort_by (fun v => v) (set_iter Q s)) /\
  distinct Qeq_bool (sort_by (fun v => v) (set_iter Q s)) = true /\
  forall v, set_mem Qeq_bool v (sort_by (fun v => v) (set_iter Q s))
            = set_mem Qeq_bool v s.
Proof.
  intros Hperm D.
  assert (P : Permutation (sort_by (fun v => v) (set_iter Q s)) s).
  { rewrite sort_by_perm. apply Hperm. }
  split; [apply sort_by_sorted|]. split.
  - rewrite (distinct_perm Qeq_bool Qeq_bool_sym' _ s P). exact D.
  - intro v. apply set_mem_permutation. exact P.
Qed.

Lemma mem2 (v a b : Q) :
  set_mem Qeq_bool v [a; b] = true <-> v == a \/ v == b.
Proof.
  cbn. rewrite !orb_true_iff, !Qeq_bool_iff. intuition discriminate.
Qed.

Lemma mem4 (v a b c d : Q) :
  set_mem Qeq_bool v [a; b; c; d] = true <->
  v == a \/ v == b \/ v == c \/ v == d.
Proof.
  cbn. rewrite !orb_true_iff, !Qeq_bool_iff. intuition discriminate.
Qed.

Lemma lines_mem {B C : Type} (v : Q) (a b : Q) (F : B -> list Q)
    (G : C -> list Q) (l : list B) (m : list C) :
  set_mem Qeq_bool v
    (fold_left (fun xs r => set_update Qeq_bool xs (G r)) m
       (fold_left (fun xs r => set_update Qeq_bool xs (F r)) l
          (set_update Qeq_bool [] [a; b]))) = true <->
  v == a \/ v == b \/
  (exists r, In r l /\ set_mem Qeq_bool v (F r) = true) \/
  (exists r, In r m /\ set_mem Qeq_bool v (G r) = true).
Proof.
  rewrite (fold_update_mem G), (fold_update_mem F),
    (set_mem_update Qeq_bool Qeq_bool_trans').
  rewrite !orb_true_iff, !existsb_exists, mem2.
  cbn [set_mem existsb]. intuition discriminate.
Qed.

(** The grid lines are sorted, hold no coordinate twice, and are exactly:
    the coordinates of the start and of the goal, the two edges of every
    padded obstacle and the lines one margin outside them, and the two
    edges of every rectangle of the collection. *)
Theorem grid_lines_spec set_iter (start goal : Point)
    (obstacles : list Rect) (all_table_rects : list (string * Rect))
    (margin : Q) :
  (forall A (l : list A), Permutation (set_iter A l) l) ->
  let xs := grid_xs set_iter start goal obstacles all_table_rects margin in
  let ys := grid_ys set_iter start goal obstacles all_table_rects margin in
  (sorted_by (fun v => v) xs /\ distinct Qeq_bool xs = true /\
   forall v, set_mem Qeq_bool v xs = true <->
     v == fst start \/ v == fst goal \/
     (exists r, In r obstacles /\
        (v == left r - margin \/ v == left r \/ v == right r \/
         v == right r + margin)) \/
     (exists tr, In tr all_table_rects /\
        (v == left (snd tr) \/ v == right (snd tr)))) /\
  (sorted_by (fun v => v) ys /\ distinct Qeq_bool ys = true /\
   forall v, set_mem Qeq_bool v ys = true <->
     v == snd start \/ v == snd goal \/
     (exists r, In r obstacles /\
        (v == top r - margin \/ v == top r \/ v == bottom r \/
         v == bottom r + margin)) \/
     (exists tr, In tr all_table_rects /\
        (v == top (snd tr) \/ v == bottom (snd tr)))).
Proof.
  intro Hperm. cbv zeta. unfold grid_xs, grid_ys. split.
  - destruct (sorted_lines set_iter
      (fold_left (fun xs (tr : string * Rect) =>
                    set_update Qeq_bool xs [left (snd tr); right (snd tr)])
         all_table_rects
         (fold_left (fun xs r =>
                       set_update Qeq_bool xs
                         [left r - margin; left r; right r; right r + margin])
            obstacles (set_update Qeq_bool [] [fst start; fst goal])))
      Hperm) as (S & D & M).
    { apply (@fold_update_distinct (string * Rect)%type
               (fun tr => [left (snd tr); right (snd tr)]) all_table_rects).
      apply (@fold_update_distinct Rect
               (fun r => [left r - margin; left r; right r; right r + margin])
               obstacles).
      apply (set_update_distinct Qeq_bool Qeq_bool_sym'). reflexivity. }
    split; [exact S|]. split; [exact D|].
    intro v. rewrite M.
    rewrite (lines_mem v (fst start) (fst goal)
               (fun r => [left r - margin; left r; right r; right r + margin])
               (fun tr : string * Rect => [left (snd tr); right (snd tr)])).
    split.
    + intros [H|[H|[(r & Hr & H)|(tr & Htr & H)]]]; auto.
      * right. right. left. exists r. split; [exact Hr|].
        apply mem4 in H. exact H.
      * right. right. right. exists tr. split; [exact Htr|].
        apply mem2 in H. exact H.
    + intros [H|[H|[(r & Hr & H)|(tr & Htr & H)]]]; auto.
      * right. right. left. exists r. split; [exact Hr|].
        apply mem4. exact H.
      * right. right. right. exists tr. split; [exact Htr|].
        apply mem2. exact H.
  - destruct (sorted_lines set_iter
      (fold_left (fun ys (tr : string * Rect) =>
                    set_update Qeq_bool ys [top (snd tr); bottom (snd tr)])
         all_table_rects
         (fold_left (fun ys r =>
                       set_update Qeq_bool ys
                         [top r - margin; top r; bottom r; bottom r + margin])
            obstacles (set_update Qeq_bool [] [snd start; snd goal])))
      Hperm) as (S & D & M).
    { apply (@fold_update_distinct (string * Rect)%type
               (fun tr => [top (snd tr); bottom (snd tr)]) all_table_rects).
      apply (@fold_update_distinct Rect
               (fun r => [top r - margin; top r; bottom r; bottom r + margin])
               obstacles).
      apply (set_update_distinct Qeq_bool Qeq_bool_sym'). reflexivity. }
    split; [exact S|]. split; [exact D|].
    intro v. rewrite M.
    rewrite (lines_mem v (snd start) (snd goal)
               (fun r => [top r - margin; top r; bottom r; bottom r + margin])
               (fun tr : string * Rect => [top (snd tr); bottom (snd tr)])).
    split.
    + intros [H|[H|[(r & Hr & H)|(tr & Htr & H)]]]; auto.
      * right. right. left. exists r. split; [exact Hr|].
        apply mem4 in H. exact H.
      * right. right. right. exists tr. split; [exact Htr|].
        apply mem2 in H. exact H.
    + intros [H|[H|[(r & Hr & H)|(tr & Htr & H)]]]; auto.
      * right. right. left. exists r. split; [exact Hr|].
        apply mem4. exact H.
      * right. right. right. exists tr. split; [exact Htr|].
        apply mem2. exact H.
Qed.

Lemma grid_lines_spec_witness :
  let obstacles := obstacles_of diagram_detour "a" "b" 8 in
  let xs := grid_xs iter_insertion (40, 20 # 2) (100, 20 # 2) obstacles
              diagram_detour 14 in
  let ys := grid_ys iter_insertion (40, 20 # 2) (100, 20 # 2) obstacles
              diagram_detour 14 in
  (sorted_by (fun v => v) xs /\ distinct Qeq_bool xs = true /\
   forall v, set_mem Qeq_bool v xs = true <->
     v == 40 \/ v == 100 \/
     (exists r, In r obstacles /\
        (v == left r - 14 \/ v == left r \/ v == right r \/
         v == right r + 14)) \/
     (exists tr, In tr diagram_detour /\
        (v == left (snd tr) \/ v == right (snd tr)))) /\
  (sorted_by (fun v => v) ys /\ distinct Qeq_bool ys = true /\
   forall v, set_mem Qeq_bool v ys = true <->
     v == 20 # 2 \/ v == 20 # 2 \/
     (exists r, In r obstacles /\
        (v == top r - 14 \/ v == top r \/ v == bottom r \/
         v == bottom r + 14)) \/
     (exists tr, In tr diagram_detour /\
        (v == top (snd tr) \/ v == bottom (snd tr)))).
Proof.
  apply (grid_lines_spec iter_insertion (40, 20 # 2) (100, 20 # 2)
           (obstacles_of diagram_detour "a" "b" 8) diagram_detour 14).
  intros A l. apply Permutation_refl.
Defined.

(** * Further properties of the router *)

Lemma compress_nonempty (p0 : Point) (rest : list Point) :
  _compress_collinear (p0 :: rest) <> [].
Proof. rewrite compress_kept. discriminate. Qed.

Lemma route_outcome set_iter (fuel : nat) (src dst : Rect)
    (all_table_rects : list (string * Rect)) (src_id dst_id : string)
    (pad margin : Q) :
  _route_avoiding_tables set_iter fuel src dst all_table_rects
    src_id dst_id pad margin = OutOfFuel \/
  exists p0 rest,
    route_points set_iter fuel src dst all_table_rects src_id dst_id
      pad margin = Ret (p0 :: rest) /\
    _route_avoiding_tables set_iter fuel src dst all_table_rects
      src_id dst_id pad margin
    = Ret (join " " (move_cmd p0 :: map line_cmd rest)).
Proof.
  unfold _route_avoiding_tables, route_points.
  destruct (endpoints_cases src dst) as [E|[E|[E|E]]]; rewrite E;
    cbn [bind]; cbv zeta;
    match goal with
    | |- context [_a_star ?f ?s ?g ?n ?ed] =>
        pose proof (a_star_loop_sound s g ed f _ (initial_frontier_inv s g ed))
          as [NR _];
        fold (_a_star f s g n ed) in NR;
        destruct (_a_star f s g n ed) as [[[|q0 path]|]| |] eqn:A;
        cbn [bind]
    end;
    try (left; reflexivity);
    try (exfalso; eapply NR; reflexivity);
    try (destruct (orthogonal_points_total src dst margin) as (pts & O & L);
         unfold _orthogonal_path; rewrite O; cbn [bind];
         destruct pts as [|p0 rest]; [cbn in L; lia|];
         right; exists p0, rest; split; reflexivity);
    try (destruct (_compress_collinear (q0 :: path)) as [|p0 rest] eqn:C;
         [exfalso; exact (compress_nonempty q0 path C)|];
         right; exists p0, rest; split; reflexivity).
Qed.

(** [_route_avoiding_tables] raises nothing, whatever the rectangles, ids,
    padding and margin.  What it returns is the serialization of the point
    sequence of [route_points]: one move command to its first point and one
    line command to each of the others, separated by single spaces. *)
Theorem route_never_raises set_iter (fuel : nat) (src dst : Rect)
    (all_table_rects : list (string * Rect)) (src_id dst_id : string)
    (pad margin : Q) :
  (forall e,
     _route_avoiding_tables set_iter fuel src dst all_table_rects
       src_id dst_id pad margin <> Raise e) /\
  (forall d,
     _route_avoiding_tables set_iter fuel src dst all_table_rects
       src_id dst_id pad margin = Ret d ->
     exists p0 rest,
       route_points set_iter fuel src dst all_table_rects src_id dst_id
         pad margin = Ret (p0 :: rest) /\
       d = join " " (move_cmd p0 :: map line_cmd rest)).
Proof.
  destruct (route_outcome set_iter fuel src dst all_table_rects src_id dst_id
              pad margin) as [O|(p0 & rest & P & R)].
  - rewrite O. split; [discriminate|]. intros d H. discriminate.
  - rewrite R. split; [discriminate|].
    intros d H. inversion H; subst d. exists p0, rest.
    split; [exact P|reflexivity].
Qed.

(** ** Reading the model *)

Lemma string_eqb_trans (a b c : string) :
  String.eqb a b = true -> String.eqb b c = true -> String.eqb a c = true.
Proof. rewrite !String.eqb_eq. congruence. Qed.

Lemma sget_set {V : Type} (d : list (string * V)) (k : string) (v : V)
    (k' : string) :
  dict_get String.eqb (dict_set String.eqb d k v) k'
  = if String.eqb k' k then Some v else dict_get String.eqb d k'.
Proof. apply dict_get_set; [apply String.eqb_sym | apply string_eqb_trans]. Qed.

Lemma bind_ret_inv {A B : Type} (m : outcome A) (k : A -> outcome B) (b : B) :
  bind m k = Ret b -> exists a, m = Ret a /\ k a = Ret b.
Proof. destruct m; cbn; try discriminate. intro H. eauto. Qed.

Lemma relations_loop_acc rels out :
  relations_loop rels out = out ++ relations_loop rels [].
Proof.
  revert out. induction rels as [|r rels IH]; intro out; cbn.
  - now rewrite app_nil_r.
  - destruct r; try apply IH.
    destruct (py_get entries "from"); try apply IH.
    destruct (py_get entries "to"); try apply IH.
    rewrite IH, (IH [(s, s0)]). cbn. now rewrite <- app_assoc.
Qed.

Lemma relations_loop_cons r rels :
  relations_loop (r :: rels) [] =
  match r with
  | PDict e =>
      match py_get e "from", py_get e "to" with
      | PStr f, PStr t => [(f, t)]
      | _, _ => []
      end
  | _ => []
  end ++ relations_loop rels [].
Proof.
  cbn. destruct r; try reflexivity.
  destruct (py_get entries "from"); try reflexivity.
  destruct (py_get entries "to"); try reflexivity.
  apply relations_loop_acc.
Qed.

Lemma relations_loop_app l1 l2 :
  relations_loop (l1 ++ l2) [] = relations_loop l1 [] ++ relations_loop l2 [].
Proof.
  induction l1 as [|r l1 IH]; [reflexivity|].
  rewrite <- app_comm_cons, !relations_loop_cons, IH. apply app_assoc.
Qed.

Lemma relations_loop_In rels f t :
  In (f, t) (relations_loop rels []) <->
  exists r, In (PDict r) rels /\ py_get r "from" = PStr f /\
            py_get r "to" = PStr t.
Proof.
  induction rels as [|r rels IH].
  - cbn. split; [intros []|intros (r & [] & _)].
  - rewrite relations_loop_cons, in_app_iff, IH. split.
    + intros [H|(r' & H1 & H2)].
      * destruct r; try contradiction.
        destruct (py_get entries "from") eqn:Ef; try contradiction.
        destruct (py_get entries "to") eqn:Et; try contradiction.
        destruct H as [H|[]]. inversion H; subst.
        exists entries. split; [left; reflexivity|]. split; assumption.
      * exists r'. split; [right; exact H1|exact H2].
    + intros (r' & [H|H] & Hf & Ht).
      * subst r. rewrite Hf, Ht. left. left. reflexivity.
      * right. exists r'. auto.
Qed.

Lemma relations_loop_length rels :
  (List.length (relations_loop rels []) <= List.length rels)%nat.
Proof.
  induction rels as [|r rels IH]; [cbn; lia|].
  rewrite relations_loop_cons, List.length_app. cbn [List.length].
  destruct r; cbn [List.length]; try lia.
  destruct (py_get entries "from"); cbn [List.length]; try lia.
  destruct (py_get entries "to"); cbn [List.length]; lia.
Qed.

(** [_relations] raises [ValueError] when the model has no list
    [relations].  Otherwise it returns, in the order of the list and
    skipping every other item, the pair of each mapping whose [from] and
    [to] are both strings: the result is no longer than the list, holds
    exactly these pairs, and the result of a list cut in two is the result
    of the first part followed by that of the second. *)
Theorem relations_reads_pairs (model : list (pyval * pyval)) :
  ((forall rels, py_get model "relations" <> PList rels) ->
   _relations model = Raise (ValueError "missing relations")) /\
  (forall rels, py_get model "relations" = PList rels ->
   exists out,
     _relations model = Ret out /\
     (List.length out <= List.length rels)%nat /\
     (forall f t,
        In (f, t) out <->
        exists r, In (PDict r) rels /\ py_get r "from" = PStr f /\
                  py_get r "to" = PStr t) /\
     (forall l1 l2, rels = l1 ++ l2 ->
        exists o1 o2, out = o1 ++ o2 /\
          _relations [(PStr "relations"%string, PList l1)] = Ret o1 /\
          _relations [(PStr "relations"%string, PList l2)] = Ret o2)).
Proof.
  unfold _relations. split.
  - intro H. destruct (py_get model "relations"); try reflexivity.
    exfalso. apply (H items). reflexivity.
  - intros rels ->. exists (relations_loop rels []).
    split; [reflexivity|]. split; [apply relations_loop_length|].
    split; [intros f t; apply relations_loop_In|].
    intros l1 l2 ->. exists (relations_loop l1 []), (relations_loop l2 []).
    split; [apply relations_loop_app|]. split; reflexivity.
Qed.

(** Reading back relations written as mappings with the keys [from] and
    [to] gives the same pairs in the same order, whatever else the model
    holds. *)
Theorem relations_round_trip (model : list (pyval * pyval))
    (ps : list (string * string)) :
  py_get model "relations" = PList (map encode_rel ps) ->
  _relations model = Ret ps.
Proof.
  unfold _relations. intros ->. f_equal.
  induction ps as [|[f t] ps IH]; [reflexivity|].
  cbn [map]. rewrite relations_loop_cons, IH. reflexivity.
Qed.

Lemma relations_round_trip_witness :
  _relations [(PStr "tables"%string, PList []);
              (PStr "relations"%string,
               PList (map encode_rel [("users", "orders"); ("orders", "items")]%string))]
  = Ret [("users", "orders"); ("orders", "items")]%string.
Proof.
  apply (relations_round_trip
           [(PStr "tables"%string, PList []);
            (PStr "relations"%string,
             PList (map encode_rel [("users", "orders"); ("orders", "items")]%string))]
           [("users", "orders"); ("orders", "items")]%string).
  reflexivity.
Defined.

Lemma names_loop_app l1 l2 out :
  names_loop (l1 ++ l2) out = names_loop l2 (names_loop l1 out).
Proof.
  revert out. induction l1 as [|v l1 IH]; intro out; [reflexivity|].
  cbn. destruct v; try apply IH.
  destruct (py_get entries "id"); try apply IH.
  destruct (py_get entries "name"); apply IH.
Qed.

Lemma no_name_for_tail v post k :
  no_name_for (v :: post) k -> no_name_for post k.
Proof. intros H t name Hin. apply H. right. exact Hin. Qed.

Lemma names_loop_keep post k :
  no_name_for post k ->
  forall out,
    dict_get String.eqb (names_loop post out) k = dict_get String.eqb out k.
Proof.
  induction post as [|v post IH]; intros H out; [reflexivity|].
  pose proof (IH (no_name_for_tail _ _ _ H)) as IH'.
  cbn. destruct v; try apply IH'.
  destruct (py_get entries "id") eqn:Ei; try apply IH'.
  destruct (py_get entries "name") eqn:En; try apply IH'.
  rewrite IH', sget_set.
  destruct (String.eqb k s) eqn:E; [|reflexivity].
  apply String.eqb_eq in E. subst s. exfalso.
  apply (H entries s0); [left; reflexivity|exact Ei|exact En].
Qed.

(** When the same id is given a name more than once, [_table_name_map]
    keeps the last one: the label of an id is the name of the last table
    that has this id and a name, whatever stands before it. *)
Theorem table_names_last_wins (model : list (pyval * pyval))
    (pre post : list pyval) (t : list (pyval * pyval)) (k name : string) :
  py_get model "tables" = PList (pre ++ PDict t :: post) ->
  py_get t "id" = PStr k ->
  py_get t "name" = PStr name ->
  no_name_for post k ->
  dict_get String.eqb (_table_name_map model) k = Some name /\
  label_of (_table_name_map model) k = name.
Proof.
  intros Hm Hi Hn Hpost.
  assert (G : dict_get String.eqb (_table_name_map model) k = Some name).
  { unfold _table_name_map. rewrite Hm, names_loop_app. cbn [names_loop].
    rewrite Hi, Hn, (names_loop_keep post k Hpost), sget_set.
    rewrite String.eqb_refl. reflexivity. }
  split; [exact G|]. unfold label_of. rewrite G. reflexivity.
Qed.

Lemma table_names_last_wins_witness :
  dict_get String.eqb (_table_name_map model_two_tables) "a"%string
  = Some "accounts"%string /\
  label_of (_table_name_map model_two_tables) "a"%string = "accounts"%string.
Proof.
  apply (table_names_last_wins model_two_tables
           [named_table "a" "users"; PNone; named_table "b" "orders"]
           [PDict [(PStr "id"%string, PStr "a"%string)]]
           [(PStr "id"%string, PStr "a"%string);
            (PStr "name"%string, PStr "accounts"%string)]
           "a"%string "accounts"%string).
  - reflexivity.
  - reflexivity.
  - reflexivity.
  - intros t name [H|[]] _. inversion H; subst. discriminate.
Defined.

(** An id that no table names has no entry in the map of
    [_table_name_map], so that its label is the id itself; this is so in
    particular when the model has no list of tables. *)
Theorem table_names_fallback (model : list (pyval * pyval)) (k : string) :
  (forall tables, py_get model "tables" = PList tables ->
                  no_name_for tables k) ->
  dict_get String.eqb (_table_name_map model) k = None /\
  label_of (_table_name_map model) k = k.
Proof.
  intro H.
  assert (G : dict_get String.eqb (_table_name_map model) k = None).
  { unfold _table_name_map.
    destruct (py_get model "tables"); try reflexivity.
    rewrite (names_loop_keep items k (H items eq_refl)). reflexivity. }
  split; [exact G|]. unfold label_of. rewrite G. reflexivity.
Qed.

Lemma table_names_fallback_witness :
  dict_get String.eqb (_table_name_map model_two_tables) "c"%string = None /\
  label_of (_table_name_map model_two_tables) "c"%string = "c"%string.
Proof.
  apply (table_names_fallback model_two_tables "c"%string).
  intros tables H. inversion H; subst. intros t name Hin Hid.
  cbn in Hin.
  repeat (destruct Hin as [Hin|Hin];
          [try discriminate; inversion Hin; subst; discriminate|]).
  destruct Hin.
Defined.

Section RectsFacts.
Variable py_float : pyval -> outcome Q.

Lemma rects_loop_app l1 l2 rects :
  rects_loop py_float (l1 ++ l2) rects
  = bind (rects_loop py_float l1 rects) (rects_loop py_float l2).
Proof.
  revert rects. induction l1 as [|v l1 IH]; intro rects; [reflexivity|].
  cbn. destruct v; try apply IH.
  destruct (py_get entries "id"); try apply IH.
  destruct (rect_of_table py_float entries); cbn;
    [apply IH|reflexivity|reflexivity].
Qed.

Lemma rects_loop_keep post k :
  no_table_with_id post k ->
  forall rects out,
    rects_loop py_float post rects = Ret out ->
    dict_get String.eqb out k = dict_get String.eqb rects k.
Proof.
  induction post as [|v post IH]; intros H rects out.
  - cbn. intro E. inversion E. reflexivity.
  - assert (H' : no_table_with_id post k)
      by (intros t Hin; apply H; right; exact Hin).
    cbn. destruct v; try apply (IH H').
    destruct (py_get entries "id") eqn:Ei; try apply (IH H').
    intro E. apply bind_ret_inv in E. destruct E as (r & _ & E).
    rewrite (IH H' _ _ E), sget_set.
    destruct (String.eqb k s) eqn:F; [|reflexivity].
    apply String.eqb_eq in F. subst s. exfalso.
    apply (H entries); [left; reflexivity|exact Ei].
Qed.

Lemma rects_loop_converts tables (t : list (pyval * pyval)) (k : string) :
  In (PDict t) tables -> py_get t "id" = PStr k ->
  forall rects out,
    rects_loop py_float tables rects = Ret out ->
    exists r, rect_of_table py_float t = Ret r.
Proof.
  intros Hin Hid rects out E.
  destruct (in_split _ _ Hin) as (pre & post & ->).
  rewrite rects_loop_app in E. apply bind_ret_inv in E.
  destruct E as (r1 & _ & E). cbn in E. rewrite Hid in E.
  apply bind_ret_inv in E. destruct E as (r & Hr & _). eauto.
Qed.

Lemma rect_of_table_needs (t : list (pyval * pyval)) (key : string) :
  In key ["x"; "y"; "w"; "h"]%string -> py_lookup t key = None ->
  forall r, rect_of_table py_float t <> Ret r.
Proof.
  intros Hk Hn r E. unfold rect_of_table in E.
  repeat (apply bind_ret_inv in E;
          let v := fresh "v" in let Hv := fresh "Hv" in
          destruct E as (v & Hv & E)).
  unfold py_item in *.
  cbn in Hk.
  repeat (destruct Hk as [Hk|Hk]; [subst key; rewrite Hn in *; discriminate|]).
  destruct Hk.
Qed.
End RectsFacts.

(** [_computed_table_rects] raises [ValueError] with the message of the
    missing part when the model has no mapping [computed] or this mapping
    has no list [tables].  It returns no dictionary when a table with a
    string id cannot be turned into a rectangle, which is the case of a
    table without one of the keys x, y, w, h. *)
Theorem computed_rects_errors (py_float : pyval -> outcome Q)
    (model : list (pyval * pyval)) :
  ((forall c, py_get model "computed" <> PDict c) ->
   _computed_table_rects py_float model
   = Raise (ValueError "missing computed")) /\
  (forall c,
     py_get model "computed" = PDict c ->
     (forall tables, py_get c "tables" <> PList tables) ->
     _computed_table_rects py_float model
     = Raise (ValueError "missing computed.tables")) /\
  (forall c tables t k,
     py_get model "computed" = PDict c ->
     py_get c "tables" = PList tables ->
     In (PDict t) tables -> py_get t "id" = PStr k ->
     (forall r, rect_of_table py_float t <> Ret r) ->
     forall rects, _computed_table_rects py_float model <> Ret rects) /\
  (forall t key,
     In key ["x"; "y"; "w"; "h"]%string -> py_lookup t key = None ->
     forall r, rect_of_table py_float t <> Ret r).
Proof.
  unfold _computed_table_rects. repeat split.
  - intro H. destruct (py_get model "computed"); try reflexivity.
    exfalso. apply (H entries). reflexivity.
  - intros c -> H. destruct (py_get c "tables"); try reflexivity.
    exfalso. apply (H items). reflexivity.
  - intros c tables t k -> -> Hin Hid Hbad rects E.
    destruct (rects_loop_converts py_float tables t k Hin Hid _ _ E)
      as (r & Hr).
    exact (Hbad r Hr).
  - intros t key. apply rect_of_table_needs.
Qed.

(** In the dictionary that [_computed_table_rects] returns, an id has the
    rectangle of the last table that carries it, and an id that no table
    carries has no entry. *)
Theorem computed_rects_last_wins (py_float : pyval -> outcome Q)
    (model c : list (pyval * pyval)) (tables : list pyval)
    (rects : list (string * Rect)) :
  py_get model "computed" = PDict c ->
  py_get c "tables" = PList tables ->
  _computed_table_rects py_float model = Ret rects ->
  (forall pre t post k,
     tables = pre ++ PDict t :: post ->
     py_get t "id" = PStr k ->
     no_table_with_id post k ->
     exists r, rect_of_table py_float t = Ret r /\
               dict_get String.eqb rects k = Some r) /\
  (forall k, no_table_with_id tables k ->
             dict_get String.eqb rects k = None).
Proof.
  unfold _computed_table_rects. intros -> -> E. split.
  - intros pre t post k -> Hid Hpost.
    rewrite rects_loop_app in E. apply bind_ret_inv in E.
    destruct E as (r1 & _ & E). cbn in E. rewrite Hid in E.
    apply bind_ret_inv in E. destruct E as (r & Hr & E).
    exists r. split; [exact Hr|].
    rewrite (rects_loop_keep py_float post k Hpost _ _ E), sget_set.
    rewrite String.eqb_refl. reflexivity.
  - intros k Hk. rewrite (rects_loop_keep py_float tables k Hk _ _ E).
    reflexivity.
Qed.

Lemma computed_rects_last_wins_witness :
  (forall pre t post k,
     [table_entry "a" 0 0 40 20; table_entry "b" 100 0 40 20;
      PStr "note"%string; table_entry "a" 0 50 40 20]
     = pre ++ PDict t :: post ->
     py_get t "id" = PStr k ->
     no_table_with_id post k ->
     exists r, rect_of_table float_of_number t = Ret r /\
               dict_get String.eqb
                 [("a"%string, mkRect 0 50 40 20);
                  ("b"%string, mkRect 100 0 40 20)] k = Some r) /\
  (forall k,
     no_table_with_id
       [table_entry "a" 0 0 40 20; table_entry "b" 100 0 40 20;
        PStr "note"%string; table_entry "a" 0 50 40 20] k ->
     dict_get String.eqb
       [("a"%string, mkRect 0 50 40 20); ("b"%string, mkRect 100 0 40 20)] k
     = None).
Proof.
  apply (computed_rects_last_wins float_of_number model_two_tables
           [(PStr "tables"%string,
             PList [table_entry "a" 0 0 40 20; table_entry "b" 100 0 40 20;
                    PStr "note"%string; table_entry "a" 0 50 40 20])]).
  - reflexivity.
  - reflexivity.
  - reflexivity.
Defined.

(** ** The block of paths *)

Section BlockFacts.
Variable set_iter : forall A : Type, list A -> list A.

Lemma render_lines_ret (fuel : nat) (rects : list (string * Rect))
    (names : list (string * string)) (rels : list (string * string)) :
  forall lines out,
    render_lines set_iter fuel rels rects names lines = Ret out ->
    exists ds,
      Forall2 (routed set_iter fuel rects) rels ds /\
      out = lines ++ flat_map (block_lines names) (combine rels ds).
Proof.
  induction rels as [|[f t] rels IH]; intros lines out H; cbn in H.
  - inversion H. exists []. split; [constructor|].
    cbn. rewrite app_nil_r. reflexivity.
  - destruct (dict_get String.eqb rects f) as [src|] eqn:Ef; [|discriminate].
    destruct (dict_get String.eqb rects t) as [dst|] eqn:Et; [|discriminate].
    apply bind_ret_inv in H. destruct H as (d & Hd & H).
    apply IH in H. destruct H as (ds & F & ->).
    exists (d :: ds). split.
    + constructor; [|exact F]. exists src, dst. auto.
    + cbn [combine flat_map]. rewrite <- app_assoc. reflexivity.
Qed.

Lemma render_lines_raise (fuel : nat) (rects : list (string * Rect))
    (names : list (string * string)) (rels : list (string * string)) :
  forall lines e,
    render_lines set_iter fuel rels rects names lines = Raise e ->
    exists f t,
      In (f, t) rels /\
      (dict_get String.eqb rects f = None \/
       dict_get String.eqb rects t = None) /\
      e = ValueError
            ("missing computed.tables for relation: " ++ f ++ " -> " ++ t).
Proof.
  induction rels as [|[f t] rels IH]; intros lines e H; cbn in H.
  - discriminate.
  - destruct (dict_get String.eqb rects f) as [src|] eqn:Ef.
    + destruct (dict_get String.eqb rects t) as [dst|] eqn:Et.
      * destruct (_route_avoiding_tables set_iter fuel src dst rects f t 8 14)
          as [d|e'|] eqn:R; cbn in H.
        -- apply IH in H. destruct H as (f' & t' & Hin & Hm & He).
           exists f', t'. split; [right; exact Hin|]. auto.
        -- exfalso.
           destruct (route_outcome set_iter fuel src dst rects f t 8 14)
             as [O|(p0 & ps & _ & O)]; rewrite O in R; discriminate.
        -- discriminate.
      * inversion H. exists f, t. split; [left; reflexivity|]. auto.
    + inversion H. exists f, t. split; [left; reflexivity|]. auto.
Qed.

Lemma render_lines_missing (fuel : nat) (rects : list (string * Rect))
    (names : list (string * string)) (rels : list (string * string))
    (f t : string) :
  In (f, t) rels ->
  dict_get String.eqb rects f = None \/ dict_get String.eqb rects t = None ->
  forall lines out,
    render_lines set_iter fuel rels rects names lines <> Ret out.
Proof.
  intros Hin Hm. induction rels as [|[f' t'] rels IH]; [destruct Hin|].
  intros lines out H. cbn in H.
  destruct (dict_get String.eqb rects f') as [src|] eqn:Ef; [|discriminate].
  destruct (dict_get String.eqb rects t') as [dst|] eqn:Et; [|discriminate].
  destruct Hin as [Hin|Hin].
  - inversion Hin; subst. destruct Hm as [Hm|Hm]; congruence.
  - apply bind_ret_inv in H. destruct H as (d & _ & H).
    exact (IH Hin _ _ H).
Qed.
End BlockFacts.

(** The only exception of [_render_paths_block] is the [ValueError] of a
    relation one of whose ends has no rectangle, with the two ids in its
    message; and as soon as the list has such a relation, wherever it
    stands, no block is returned. *)
Theorem render_block_errors set_iter (fuel : nat)
    (rels : list (string * string)) (rects : list (string * Rect))
    (names : list (string * string)) :
  (forall e,
     _render_paths_block set_iter fuel rels rects names = Raise e ->
     exists f t,
       In (f, t) rels /\
       (dict_get String.eqb rects f = None \/
        dict_get String.eqb rects t = None) /\
       e = ValueError
             ("missing computed.tables for relation: " ++ f ++ " -> " ++ t)) /\
  (forall f t,
     In (f, t) rels ->
     dict_get String.eqb rects f = None \/
     dict_get String.eqb rects t = None ->
     forall block,
       _render_paths_block set_iter fuel rels rects names <> Ret block).
Proof.
  unfold _render_paths_block. split.
  - intros e H.
    destruct (render_lines set_iter fuel rels rects names ["  paths:"%string])
      as [lines|e'|] eqn:R; cbn in H; try discriminate.
    inversion H; subst e'.
    exact (render_lines_raise set_iter fuel rects names rels _ _ R).
  - intros f t Hin Hm block H. apply bind_ret_inv in H.
    destruct H as (lines & R & _).
    exact (render_lines_missing set_iter fuel rects names rels f t Hin Hm
             _ _ R).
Qed.

(** A block that [_render_paths_block] returns is the header line followed,
    for each relation in the order of the list, by a comment line with the
    labels of its two ends and a line with the route of the router between
    their rectangles; every line, the last one too, ends in a line feed. *)
Theorem render_block_layout set_iter (fuel : nat)
    (rels : list (string * string)) (rects : list (string * Rect))
    (names : list (string * string)) (block : string) :
  _render_paths_block set_iter fuel rels rects names = Ret block ->
  exists ds,
    Forall2 (routed set_iter fuel rects) rels ds /\
    block = (join nl ("  paths:"%string
                      :: flat_map (block_lines names) (combine rels ds))
             ++ nl)%string.
Proof.
  unfold _render_paths_block. intro H. apply bind_ret_inv in H.
  destruct H as (lines & R & H). inversion H; subst block.
  apply render_lines_ret in R. destruct R as (ds & F & ->).
  exists ds. split; [exact F|reflexivity].
Qed.

Lemma render_block_layout_witness :
  exists ds,
    Forall2 (routed iter_insertion 100 diagram_detour)
      [("a", "b"); ("c", "a")]%string ds /\
    detour_block
    = (join nl ("  paths:"%string
                :: flat_map (block_lines [("a", "users")]%string)
                     (combine [("a", "b"); ("c", "a")]%string ds))
       ++ nl)%string.
Proof.
  apply (render_block_layout iter_insertion 100
           [("a", "b"); ("c", "a")]%string diagram_detour
           [("a", "users")]%string detour_block).
  vm_compute. reflexivity.
Defined.

(** ** Termination of the search *)

Lemma manhattan_congr (a a' b b' : Point) :
  Peq a a' -> Peq b b' -> _manhattan a b == _manhattan a' b'.
Proof.
  unfold Peq, _manhattan. intros [H1 H2] [H3 H4].
  rewrite H1, H2, H3, H4. reflexivity.
Qed.

Lemma manhattan_pos (a b : Point) : ~ Peq a b -> 0 < _manhattan a b.
Proof.
  unfold Peq, _manhattan. intro H.
  destruct (Qabs_cases (fst a - fst b)) as [[? ?]|[? ?]],
           (Qabs_cases (snd a - snd b)) as [[? ?]|[? ?]];
    destruct (Qlt_le_dec 0 (Qabs (fst a - fst b) + Qabs (snd a - snd b)))
      as [L|L]; try exact L; exfalso; apply H; split; lra.
Qed.

Lemma trail_len_cons (a b : Point) (tl : list Point) :
  trail_len (a :: b :: tl) = trail_len (b :: tl) + _manhattan b a.
Proof. reflexivity. Qed.

Lemma trail_len_nonneg (p : list Point) : 0 <= trail_len p.
Proof.
  induction p as [|a p IH]; [cbn; lra|].
  destruct p as [|b tl]; [cbn; lra|].
  rewrite trail_len_cons. pose proof (manhattan_nonneg b a). lra.
Qed.

Lemma trail_len_congr (p q : list Point) :
  Forall2 Peq p q -> trail_len p == trail_len q.
Proof.
  induction 1 as [|a a' p q Ha F IH]; [reflexivity|].
  destruct F as [|b b' p q Hb F]; [reflexivity|].
  rewrite !trail_len_cons, IH, (manhattan_congr b b' a a' Hb Ha).
  reflexivity.
Qed.

(** A point of a scored trail has a score no larger than the length of the
    whole trail. *)
Lemma scored_In gs (p : list Point) (m : Point) :
  scored gs p -> In m p ->
  exists g, dict_get point_eqb gs m = Some g /\ g <= trail_len p.
Proof.
  induction p as [|a tl IH]; [intros _ []|].
  intros [(g & G & L) S] [<-|Hin].
  - exists g. auto.
  - destruct (IH S Hin) as (g' & G' & L'). exists g'. split; [exact G'|].
    destruct tl as [|b tl]; [destruct Hin|].
    rewrite trail_len_cons. pose proof (manhattan_nonneg b a). lra.
Qed.

Lemma scored_mono gs gs' (p : list Point) :
  (forall a g, dict_get point_eqb gs a = Some g ->
     exists g', dict_get point_eqb gs' a = Some g' /\ g' <= g) ->
  scored gs p -> scored gs' p.
Proof.
  intro H. induction p as [|a tl IH]; [auto|].
  intros [(g & G & L) S]. split; [|apply IH; exact S].
  destruct (H a g G) as (g' & G' & L'). exists g'. split; [exact G'|lra].
Qed.

(** *** Counting trails *)

Lemma filter_length_le {A : Type} (f : A -> bool) (l : list A) :
  (List.length (filter f l) <= List.length l)%nat.
Proof.
  induction l as [|a l IH]; cbn; [lia|]. destruct (f a); cbn; lia.
Qed.

Lemma filter_length_lt {A : Type} (f h : A -> bool) (l : list A) (x : A) :
  (forall a, f a = true -> h a = true) ->
  In x l -> h x = true -> f x = false ->
  (List.length (filter f l) < List.length (filter h l))%nat.
Proof.
  intros Hfh Hin Hx Fx.
  assert (Le : forall l', (List.length (filter f l')
                           <= List.length (filter h l'))%nat).
  { induction l' as [|a l' IH]; cbn; [lia|].
    destruct (f a) eqn:E.
    - rewrite (Hfh a E). cbn. lia.
    - destruct (h a); cbn; lia. }
  induction l as [|a l IH]; [destruct Hin|].
  cbn. destruct Hin as [->|Hin].
  - rewrite Fx, Hx. cbn. specialize (Le l). lia.
  - specialize (IH Hin). destruct (f a) eqn:E.
    + rewrite (Hfh a E). cbn. lia.
    + destruct (h a); cbn; lia.
Qed.

Lemma filter_length_drop {A : Type} (f : A -> bool) (l : list A) (x : A) :
  In x l -> f x = false ->
  (List.length (filter f l) < List.length l)%nat.
Proof.
  intros Hin Fx. induction l as [|a l IH]; [destruct Hin|].
  cbn. destruct Hin as [->|Hin].
  - rewrite Fx. pose proof (filter_length_le f l). lia.
  - specialize (IH Hin). destruct (f a); cbn; lia.
Qed.

(** As many points without repetition as one likes cannot be taken from
    [U]: a sequence of distinct points of [U] is no longer than [U]. *)
Lemma distinct_length_le (p : list Point) :
  forall U,
    pairwise_distinct p = true ->
    (forall x, In x p -> set_mem point_eqb x U = true) ->
    (List.length p <= List.length U)%nat.
Proof.
  induction p as [|a p IH]; intros U D H; [cbn; lia|].
  apply pairwise_distinct_cons in D. destruct D as [Da D].
  assert (Ha : set_mem point_eqb a U = true) by (apply H; left; reflexivity).
  apply set_mem_true in Ha. destruct Ha as (u0 & Hu0 & Eu0).
  pose (U' := filter (fun u => negb (point_eqb a u)) U).
  assert (L : (List.length U' < List.length U)%nat).
  { apply (filter_length_drop _ U u0); [exact Hu0|].
    apply negb_false_iff. apply point_eqb_Peq. exact Eu0. }
  assert (Le : (List.length p <= List.length U')%nat).
  { apply IH; [exact D|]. intros x Hx.
    assert (Hx' : set_mem point_eqb x U = true) by (apply H; right; exact Hx).
    apply set_mem_true in Hx'. destruct Hx' as (u & Hu & Eu).
    apply set_mem_true. exists u. split; [|exact Eu].
    apply filter_In. split; [exact Hu|].
    apply negb_true_iff. apply point_eqb_false. intro E.
    apply (Da x Hx). transitivity u; [exact E|symmetry; exact Eu]. }
  cbn [List.length]. lia.
Qed.

Lemma seqs_complete (U : list Point) :
  forall k p,
    (List.length p <= k)%nat ->
    (forall x, In x p -> set_mem point_eqb x U = true) ->
    exists q, In q (seqs U k) /\ Forall2 Peq p q.
Proof.
  induction k as [|k IH]; intros p L H.
  - destruct p; [|cbn in L; lia]. exists []. split; [left; reflexivity|constructor].
  - destruct p as [|a p].
    + exists []. split; [left; reflexivity|constructor].
    + destruct (IH p) as (q & Hq & F).
      * cbn in L. lia.
      * intros x Hx. apply H. right. exact Hx.
      * assert (Ha : set_mem point_eqb a U = true)
          by (apply H; left; reflexivity).
        apply set_mem_true in Ha. destruct Ha as (u & Hu & Eu).
        exists (u :: q). split; [|constructor; assumption].
        cbn [seqs]. right. apply in_flat_map. exists q. split; [exact Hq|].
        apply in_map_iff. exists u. auto.
Qed.

(** The length of a trail without repetition over [U] is one of the
    values of [trail_lengths U]. *)
Lemma trail_length_listed (U : list Point) (p : list Point) :
  pairwise_distinct p = true ->
  (forall x, In x p -> set_mem point_eqb x U = true) ->
  exists v, In v (trail_lengths U) /\ v == trail_len p.
Proof.
  intros D H.
  destruct (seqs_complete U (List.length U) p (distinct_length_le p U D H) H)
    as (q & Hq & F).
  exists (trail_len q). split.
  - unfold trail_lengths. apply in_map. exact Hq.
  - symmetry. apply trail_len_congr. exact F.
Qed.

Lemma count_below_le (M : list Q) (g : Q) :
  (count_below M g <= List.length M)%nat.
Proof. apply filter_length_le. Qed.

Lemma count_below_mono (M : list Q) (g g' : Q) :
  g' <= g -> (count_below M g' <= count_below M g)%nat.
Proof.
  intro L. unfold count_below. induction M as [|v M IH]; cbn; [lia|].
  destruct (Qltb v g') eqn:A.
  - assert (B : Qltb v g = true) by (apply Qltb_lt; apply Qltb_lt in A; lra).
    rewrite B. cbn. lia.
  - destruct (Qltb v g); cbn; lia.
Qed.

Lemma count_below_lt (M : list Q) (g g' v : Q) :
  In v M -> v == g' -> g' < g ->
  (count_below M g' < count_below M g)%nat.
Proof.
  intros Hin Ev L. unfold count_below.
  apply (filter_length_lt _ _ M v); [|exact Hin| |].
  - intros a Ha. apply Qltb_lt. apply Qltb_lt in Ha. lra.
  - apply Qltb_lt. lra.
  - apply Qltb_ge. lra.
Qed.

Lemma list_sum_cons (a : nat) (l : list nat) :
  list_sum (a :: l) = (a + list_sum l)%nat.
Proof. reflexivity. Qed.

Lemma list_sum_le {A : Type} (c c' : A -> nat) (l : list A) :
  (forall a, In a l -> (c' a <= c a)%nat) ->
  (list_sum (map c' l) <= list_sum (map c l))%nat.
Proof.
  induction l as [|a l IH]; intro H; cbn [map]; [cbn; lia|].
  rewrite !list_sum_cons.
  pose proof (H a (or_introl eq_refl)).
  assert ((list_sum (map c' l) <= list_sum (map c l))%nat)
    by (apply IH; intros b Hb; apply H; right; exact Hb).
  lia.
Qed.

Lemma list_sum_lt {A : Type} (c c' : A -> nat) (l : list A) (x : A) :
  (forall a, In a l -> (c' a <= c a)%nat) ->
  In x l -> (c' x < c x)%nat ->
  (list_sum (map c' l) < list_sum (map c l))%nat.
Proof.
  intros Hle Hin Hx.
  induction l as [|a l IH]; [destruct Hin|].
  cbn [map]. rewrite !list_sum_cons. destruct Hin as [->|Hin].
  - assert ((list_sum (map c' l) <= list_sum (map c l))%nat)
      by (apply list_sum_le; intros b Hb; apply Hle; right; exact Hb).
    lia.
  - assert ((list_sum (map c' l) < list_sum (map c l))%nat)
      by (apply IH; [intros b Hb; apply Hle; right; exact Hb|exact Hin]).
    pose proof (Hle a (or_introl eq_refl)). lia.
Qed.

Lemma slack_le (M : list Q) gs (u : Point) :
  (slack M gs u <= S (List.length M))%nat.
Proof.
  unfold slack. destruct (dict_get point_eqb gs u); [|lia].
  pose proof (count_below_le M q). lia.
Qed.

Lemma potential_le (U : list Point) (M : list Q) gs :
  (potential U M gs <= List.length U * S (List.length M))%nat.
Proof.
  unfold potential. induction U as [|u U IH]; [cbn; lia|].
  cbn [map List.length]. rewrite list_sum_cons.
  pose proof (slack_le M gs u). lia.
Qed.

Section Termination.
Variables (start goal : Point) (edges : list (Point * list Point)).

Let U := universe start edges.
Let M := trail_lengths U.

Lemma nbrs_In_universe (current nxt : Point) :
  In nxt (nbrs edges current) -> In nxt U.
Proof.
  unfold nbrs. intro H. right.
  destruct (dict_get point_eqb edges current) as [l|] eqn:E; [|destruct H].
  apply pget_In in E. destruct E as (k & Hk & _).
  apply in_flat_map. exists (k, l). split; [exact Hk|]. right. exact H.
Qed.

Lemma nbrs_universe (current nxt : Point) :
  In nxt (nbrs edges current) -> set_mem point_eqb nxt U = true.
Proof. intro H. apply In_set_mem. exact (nbrs_In_universe current nxt H). Qed.

Lemma initial_score_inv :
  score_inv U (mkState (heappush [] (_manhattan start goal, start)) []
                 [(start, 0)] [start]).
Proof.
  constructor; cbn [g_score came_from].
  - intros n g H. cbn in H.
    destruct (point_eqb n start) eqn:E; [|discriminate].
    inversion H; subst g. exists start, [].
    split; [symmetry; apply point_eqb_Peq; exact E|].
    split; [reflexivity|]. split; [|split].
    + split; [|exact I]. exists 0. cbn. rewrite point_eqb_refl.
      split; [reflexivity|lra].
    + reflexivity.
    + intros x [<-|[]]. apply In_set_mem. left. reflexivity.
  - intros n c H. discriminate.
Qed.

Lemma score_inv_heap h h' cf gs o o' :
  score_inv U (mkState h cf gs o) -> score_inv U (mkState h' cf gs o').
Proof. intros [T P]. constructor; assumption. Qed.

(** One relaxation keeps the invariant, and what it adds to the frontier
    it takes from the potential. *)
Lemma relax_progress (current nxt : Point) (st st' : astar_state) :
  score_inv U st ->
  In nxt (nbrs edges current) ->
  relax goal current st nxt = Ret st' ->
  score_inv U st' /\
  (List.length (open_heap st') + potential U M (g_score st')
   <= List.length (open_heap st) + potential U M (g_score st))%nat.
Proof.
  intros Inv Hnxt. unfold relax.
  destruct (dict_get point_eqb (g_score st) current) as [gc|] eqn:Gc;
    [|discriminate].
  set (t := gc + _manhattan current nxt).
  destruct (match dict_get point_eqb (g_score st) nxt with
            | Some g_nxt => Qltb t g_nxt
            | None => true
            end) eqn:Imp.
  2:{ intro H; inversion H; subst. split; [assumption|lia]. }
  pose proof Inv as [T P].
  (* the new score is below the old one of any point equal to [nxt] *)
  assert (Old : forall m g, Peq m nxt ->
                  dict_get point_eqb (g_score st) m = Some g -> t < g).
  { intros m g E G. rewrite (pget_congr (g_score st) m nxt E) in G.
    rewrite G in Imp. apply Qltb_lt. exact Imp. }
  assert (Hne : ~ Peq current nxt).
  { intro E. pose proof (Old current gc E Gc) as L. unfold t in L.
    pose proof (manhattan_nonneg current nxt). lra. }
  pose proof (manhattan_pos current nxt Hne) as Wpos.
  set (gs' := dict_set point_eqb (g_score st) nxt t).
  assert (Mono : forall a g, dict_get point_eqb (g_score st) a = Some g ->
                   exists g', dict_get point_eqb gs' a = Some g' /\ g' <= g).
  { intros a g G. unfold gs'. rewrite pget_set.
    destruct (point_eqb a nxt) eqn:E.
    - exists t. split; [reflexivity|].
      apply point_eqb_Peq in E. pose proof (Old a g E G). lra.
    - exists g. split; [exact G|lra]. }
  (* the trail of [nxt] *)
  destruct (T current gc Gc) as (a & tl & Ea & La & Sa & Da & Ua).
  assert (Fresh : forall q, In q (a :: tl) -> ~ Peq nxt q).
  { intros q Hq E.
    destruct (scored_In _ _ _ Sa Hq) as (g & G & L).
    assert (E' : Peq q nxt) by (symmetry; exact E).
    pose proof (Old q g E' G). unfold t in *. lra. }
  assert (Lt : trail_len (nxt :: a :: tl) == t).
  { rewrite trail_len_cons, La. unfold t.
    rewrite (manhattan_congr a current nxt nxt Ea); [reflexivity|].
    split; reflexivity. }
  assert (T' : forall n g, dict_get point_eqb gs' n = Some g ->
    exists a tl,
      Peq a n /\ trail_len (a :: tl) == g /\ scored gs' (a :: tl) /\
      pairwise_distinct (a :: tl) = true /\
      (forall x, In x (a :: tl) -> set_mem point_eqb x U = true)).
  { intros n g. unfold gs' at 1. rewrite pget_set.
    destruct (point_eqb n nxt) eqn:E.
    - intro H; inversion H; subst g. exists nxt, (a :: tl).
      split; [symmetry; apply point_eqb_Peq; exact E|].
      split; [exact Lt|]. split; [|split].
      + split.
        * exists t. unfold gs'. rewrite pget_set, point_eqb_refl.
          split; [reflexivity|]. rewrite Lt. lra.
        * apply (scored_mono (g_score st)); assumption.
      + apply pairwise_distinct_cons. split; [exact Fresh|exact Da].
      + intros x [<-|Hx]; [exact (nbrs_universe current nxt Hnxt)|].
        apply Ua. exact Hx.
    - intro G. destruct (T n g G) as (b & tb & Eb & Lb & Sb & Db & Ub).
      exists b, tb. split; [exact Eb|]. split; [exact Lb|].
      split; [|split; assumption].
      apply (scored_mono (g_score st)); assumption. }
  assert (P' : forall n c,
    dict_get point_eqb (dict_set point_eqb (came_from st) nxt current) n
      = Some c ->
    exists gn gc0,
      dict_get point_eqb gs' n = Some gn /\
      dict_get point_eqb gs' c = Some gc0 /\ gc0 < gn).
  { intros n c. rewrite pget_set. destruct (point_eqb n nxt) eqn:E.
    - intro H; inversion H; subst c. exists t, gc. unfold gs'.
      rewrite !pget_set, E.
      assert (F : point_eqb current nxt = false)
        by (apply point_eqb_false; exact Hne).
      rewrite F. split; [reflexivity|]. split; [exact Gc|].
      unfold t. lra.
    - intro H. destruct (P n c H) as (gn & gc0 & Gn & Gc0 & L).
      unfold gs'. rewrite !pget_set, E.
      destruct (point_eqb c nxt) eqn:F.
      + exists gn, t. split; [exact Gn|]. split; [reflexivity|].
        apply point_eqb_Peq in F. pose proof (Old c gc0 F Gc0). lra.
      + exists gn, gc0. auto. }
  (* the potential goes down *)
  assert (Pot : (potential U M gs' < potential U M (g_score st))%nat).
  { unfold potential. apply (list_sum_lt _ _ U nxt).
    - intros u _. unfold slack, gs'. rewrite pget_set.
      destruct (point_eqb u nxt) eqn:E; [|lia].
      destruct (dict_get point_eqb (g_score st) u) as [g|] eqn:G.
      + apply point_eqb_Peq in E. pose proof (Old u g E G).
        apply count_below_mono. lra.
      + pose proof (count_below_le M t). lia.
    - exact (nbrs_In_universe current nxt Hnxt).
    - unfold slack, gs'. rewrite pget_set, point_eqb_refl.
      destruct (T' nxt t) as (b & tb & Eb & Lb & _ & Db & Ub).
      { unfold gs'. rewrite pget_set, point_eqb_refl. reflexivity. }
      destruct (trail_length_listed U (b :: tb) Db Ub) as (v & Hv & Ev).
      destruct (dict_get point_eqb (g_score st) nxt) as [g|] eqn:G.
      + apply (count_below_lt M g t v); [exact Hv|lra|].
        apply (Old nxt g); [reflexivity|exact G].
      + pose proof (count_below_le M t). lia. }
  destruct (negb (set_mem point_eqb nxt (in_open st)));
    intro H; inversion H; subst; clear H;
    cbn [open_heap g_score came_from]; fold t; fold gs'.
  - split; [constructor; assumption|].
    unfold heappush. rewrite List.length_app. cbn [List.length]. lia.
  - split; [constructor; assumption|]. lia.
Qed.

Lemma relax_all_progress (current : Point) (l : list Point) :
  forall st st',
    score_inv U st ->
    incl l (nbrs edges current) ->
    relax_all goal current st l = Ret st' ->
    score_inv U st' /\
    (List.length (open_heap st') + potential U M (g_score st')
     <= List.length (open_heap st) + potential U M (g_score st))%nat.
Proof.
  induction l as [|nxt l IH]; intros st st' Inv Hl; cbn [relax_all].
  - intro H; inversion H; subst. split; [assumption|lia].
  - destruct (relax goal current st nxt) as [st1| |] eqn:R; cbn [bind];
      try discriminate.
    intro H.
    destruct (relax_progress current nxt st st1 Inv
                (Hl nxt (or_introl eq_refl)) R) as [Inv1 L1].
    destruct (IH st1 st' Inv1 (fun x Hx => Hl x (or_intror Hx)) H)
      as [Inv' L'].
    split; [exact Inv'|lia].
Qed.

Lemma relax_all_no_fuel (current : Point) (l : list Point) :
  forall st, relax_all goal current st l <> OutOfFuel.
Proof.
  induction l as [|nxt l IH]; intro st; cbn [relax_all]; [discriminate|].
  destruct (relax goal current st nxt) as [st1|e|] eqn:R; cbn [bind].
  - apply IH.
  - discriminate.
  - exfalso. unfold relax in R.
    destruct (dict_get point_eqb (g_score st) current); [|discriminate].
    destruct (match dict_get point_eqb (g_score st) nxt with
              | Some g_nxt => Qltb (q + _manhattan current nxt) g_nxt
              | None => true
              end); [|discriminate].
    destruct (negb (set_mem point_eqb nxt (in_open st))); discriminate.
Qed.

Lemma walk_back_fuel (st : astar_state) :
  score_inv U st ->
  forall fuel current path,
    (forall prev, dict_get point_eqb (came_from st) current = Some prev ->
       exists g, dict_get point_eqb (g_score st) current = Some g /\
                 (count_below M g < fuel)%nat) ->
    walk_back fuel (came_from st) current path <> OutOfFuel.
Proof.
  intros [T P]. induction fuel as [|fuel IH]; intros current path H;
    cbn [walk_back];
    destruct (dict_get point_eqb (came_from st) current) as [prev|] eqn:E;
    try discriminate.
  - destruct (H prev eq_refl) as (g & _ & L). lia.
  - apply IH. intros prev' E'.
    destruct (H prev eq_refl) as (g & G & L).
    destruct (P current prev E) as (gn & gc & Gn & Gc & Lt).
    rewrite G in Gn. inversion Gn; subst gn.
    exists gc. split; [exact Gc|].
    destruct (T prev gc Gc) as (b & tb & _ & Lb & _ & Db & Ub).
    destruct (trail_length_listed U (b :: tb) Db Ub) as (v & Hv & Ev).
    assert ((count_below M gc < count_below M g)%nat)
      by (apply (count_below_lt M g gc v); [exact Hv|lra|exact Lt]).
    lia.
Qed.

Lemma remove_first_length (e : entry) (h : list entry) :
  In e h -> S (List.length (remove_first e h)) = List.length h.
Proof.
  induction h as [|e' h IH]; [intros []|].
  cbn [remove_first]. destruct (entry_eqb e e') eqn:E; [reflexivity|].
  intros [->|Hin].
  - rewrite entry_eqb_refl in E. discriminate.
  - cbn [List.length]. rewrite (IH Hin). reflexivity.
Qed.

Lemma a_star_loop_fuel :
  forall fuel st,
    score_inv U st ->
    (List.length (open_heap st) + potential U M (g_score st)
     + List.length M + 1 <= fuel)%nat ->
    a_star_loop fuel goal edges st <> OutOfFuel.
Proof.
  induction fuel as [|fuel IH]; intros st Inv L; cbn [a_star_loop];
    destruct (heappop (open_heap st)) as [[[f current] heap']|] eqn:Pop;
    try discriminate.
  - lia.
  - destruct (heappop_In _ _ _ Pop) as [Hin _].
    assert (Hrest : heap' = remove_first (f, current) (open_heap st)).
    { unfold heappop in Pop.
      destruct (open_heap st) as [|e0 h]; [discriminate|].
      inversion Pop. reflexivity. }
    pose proof (remove_first_length _ _ Hin) as Len. rewrite <- Hrest in Len.
    destruct (point_eqb current goal).
    + cbn [came_from].
      pose proof (walk_back_fuel st Inv fuel current [current]) as W.
      destruct (walk_back fuel (came_from st) current [current]);
        cbn [bind]; try discriminate.
      intros _. apply W; [|reflexivity]. intros prev E.
      destruct Inv as [T P].
      destruct (P current prev E) as (gn & gc & Gn & _ & _).
      exists gn. split; [exact Gn|].
      pose proof (count_below_le M gn). lia.
    + fold (nbrs edges current).
      assert (Inv1 : score_inv U
                (mkState heap' (came_from st) (g_score st)
                   (set_discard point_eqb current (in_open st)))).
      { destruct st. eapply score_inv_heap. exact Inv. }
      destruct (relax_all goal current _ (nbrs edges current))
        as [st2| |] eqn:R; cbn [bind]; try discriminate.
      2:{ exfalso. exact (relax_all_no_fuel current _ _ R). }
      destruct (relax_all_progress current (nbrs edges current) _ st2 Inv1
                  (incl_refl _) R) as [Inv2 L2].
      cbn [open_heap g_score] in L2.
      apply IH; [exact Inv2|lia].
Qed.

Lemma a_star_returns (nodes : list Point) (fuel : nat) :
  (fuel_bound start edges <= fuel)%nat ->
  exists r, _a_star fuel start goal nodes edges = Ret r.
Proof.
  intro L. unfold _a_star. cbv zeta.
  pose proof (a_star_loop_fuel fuel _ initial_score_inv) as F.
  pose proof (a_star_loop_sound start goal edges fuel _
                (initial_frontier_inv start goal edges)) as [NR _].
  destruct (a_star_loop fuel goal edges _) as [r|e|] eqn:A.
  - exists r. reflexivity.
  - exfalso. exact (NR e eq_refl).
  - exfalso. apply F; [|reflexivity].
    cbn [open_heap g_score heappush app List.length].
    unfold fuel_bound in L. cbv zeta in L. fold U in L. fold M in L.
    pose proof (potential_le U M [(start, 0)]). lia.
Qed.
End Termination.

(** [_a_star] terminates: on every graph there is a number of iterations
    within which the search returns, and what it returns does not depend
    on the number of iterations it is allowed beyond that. *)
Theorem astar_terminates (start goal : Point) (nodes : list Point)
    (edges : list (Point * list Point)) :
  exists fuel0 r,
    (forall fuel, (fuel0 <= fuel)%nat ->
                  _a_star fuel start goal nodes edges = Ret r) /\
    (forall fuel r', _a_star fuel start goal nodes edges = Ret r' -> r' = r).
Proof.
  destruct (a_star_returns start goal edges nodes (fuel_bound start edges)
              (le_n _)) as [r A].
  assert (Up : forall fuel, (fuel_bound start edges <= fuel)%nat ->
                 _a_star fuel start goal nodes edges = Ret r).
  { intros fuel L. unfold _a_star in *. cbv zeta in *.
    apply (a_star_loop_mono goal edges (fuel_bound start edges)); assumption. }
  exists (fuel_bound start edges), r. split; [exact Up|].
  intros fuel r' A'.
  assert (B : _a_star (Nat.max fuel (fuel_bound start edges)) start goal
                nodes edges = Ret r') .
  { unfold _a_star in *. cbv zeta in *.
    apply (a_star_loop_mono goal edges fuel); [exact A'|lia]. }
  rewrite (Up _ (Nat.le_max_r _ _)) in B. inversion B. reflexivity.
Qed.

(** *** The router and the block return *)

Lemma route_returns_at set_iter (src dst : Rect)
    (all_table_rects : list (string * Rect)) (src_id dst_id : string)
    (pad margin : Q) (start goal : Point) (fuel : nat) :
  endpoints src dst = Ret (start, goal) ->
  (fuel_bound start
     (g_edges (build_grid set_iter start goal all_table_rects src_id dst_id
                 pad margin)) <= fuel)%nat ->
  exists d,
    _route_avoiding_tables set_iter fuel src dst all_table_rects
      src_id dst_id pad margin = Ret d.
Proof.
  intros E L. unfold _route_avoiding_tables. rewrite E. cbn [bind]. cbv zeta.
  destruct (a_star_returns start goal _
              (g_nodes (build_grid set_iter start goal all_table_rects
                          src_id dst_id pad margin)) fuel L) as [r A].
  rewrite A. cbn [bind].
  destruct r as [[|q0 path]|];
    try (destruct (orthogonal_path_total src dst margin) as (d & O);
         exists d; exact O).
  destruct (_compress_collinear (q0 :: path)) as [|p0 rest] eqn:C;
    [exfalso; exact (compress_nonempty q0 path C)|].
  eexists. reflexivity.
Qed.

Lemma route_settles set_iter (src dst : Rect)
    (all_table_rects : list (string * Rect)) (src_id dst_id : string)
    (pad margin : Q) :
  exists fuel0 d,
    forall fuel, (fuel0 <= fuel)%nat ->
      _route_avoiding_tables set_iter fuel src dst all_table_rects
        src_id dst_id pad margin = Ret d.
Proof.
  assert (E : exists start goal, endpoints src dst = Ret (start, goal)).
  { destruct (endpoints_cases src dst) as [E|[E|[E|E]]]; rewrite E; eauto. }
  destruct E as (start & goal & E).
  destruct (route_returns_at set_iter src dst all_table_rects src_id dst_id
              pad margin start goal _ E (le_n _)) as [d R].
  eexists. exists d. intros fuel L.
  exact (route_mono set_iter _ fuel src dst all_table_rects src_id dst_id
           pad margin d R L).
Qed.

(** [_route_avoiding_tables] always returns a path string: for all
    rectangles, ids, padding and margin there is a number of search
    iterations within which it returns, and the string does not depend on
    the number of iterations allowed. *)
Theorem route_always_returns set_iter (src dst : Rect)
    (all_table_rects : list (string * Rect)) (src_id dst_id : string)
    (pad margin : Q) :
  exists fuel0 d,
    (forall fuel, (fuel0 <= fuel)%nat ->
       _route_avoiding_tables set_iter fuel src dst all_table_rects
         src_id dst_id pad margin = Ret d) /\
    (forall fuel d',
       _route_avoiding_tables set_iter fuel src dst all_table_rects
         src_id dst_id pad margin = Ret d' -> d' = d).
Proof.
  destruct (route_settles set_iter src dst all_table_rects src_id dst_id
              pad margin) as (fuel0 & d & Up).
  exists fuel0, d. split; [exact Up|].
  intros fuel d' R.
  pose proof (route_mono set_iter fuel (Nat.max fuel fuel0) src dst
                all_table_rects src_id dst_id pad margin d' R
                (Nat.le_max_l _ _)) as B.
  rewrite (Up _ (Nat.le_max_r _ _)) in B. inversion B. reflexivity.
Qed.

Lemma render_lines_returns set_iter (rects : list (string * Rect))
    (names : list (string * string)) (rels : list (string * string)) :
  (forall f t, In (f, t) rels ->
     dict_get String.eqb rects f <> None /\
     dict_get String.eqb rects t <> None) ->
  exists fuel0 ext,
    forall fuel, (fuel0 <= fuel)%nat ->
    forall lines,
      render_lines set_iter fuel rels rects names lines = Ret (lines ++ ext).
Proof.
  induction rels as [|[f t] rels IH]; intro H.
  - exists O, []. intros fuel _ lines. cbn. rewrite app_nil_r. reflexivity.
  - destruct (H f t (or_introl eq_refl)) as [Hf Ht].
    destruct (dict_get String.eqb rects f) as [src|] eqn:Ef;
      [|exfalso; apply Hf; reflexivity].
    destruct (dict_get String.eqb rects t) as [dst|] eqn:Et;
      [|exfalso; apply Ht; reflexivity].
    destruct (route_settles set_iter src dst rects f t 8 14)
      as (f1 & d & R).
    destruct (IH (fun f' t' Hin => H f' t' (or_intror Hin)))
      as (f2 & ext & B).
    exists (Nat.max f1 f2), (block_lines names ((f, t), d) ++ ext).
    intros fuel L lines. cbn [render_lines]. rewrite Ef, Et.
    rewrite (R fuel) by lia. cbn [bind]. cbv zeta.
    rewrite (B fuel) by lia. rewrite <- app_assoc. reflexivity.
Qed.

(** When both ends of every relation have a rectangle,
    [_render_paths_block] returns a block: there is a number of search
    iterations from which on it returns one and the same block. *)
Theorem render_block_returns set_iter (rels : list (string * string))
    (rects : list (string * Rect)) (names : list (string * string)) :
  (forall f t, In (f, t) rels ->
     dict_get String.eqb rects f <> None /\
     dict_get String.eqb rects t <> None) ->
  exists fuel0 block,
    forall fuel, (fuel0 <= fuel)%nat ->
      _render_paths_block set_iter fuel rels rects names = Ret block.
Proof.
  intro H.
  destruct (render_lines_returns set_iter rects names rels H)
    as (fuel0 & ext & R).
  exists fuel0. eexists. intros fuel L. unfold _render_paths_block.
  rewrite (R fuel L). cbn [bind]. reflexivity.
Qed.

Lemma render_block_returns_witness :
  exists fuel0 block,
    forall fuel, (fuel0 <= fuel)%nat ->
      _render_paths_block iter_insertion fuel
        [("a", "b"); ("c", "a")]%string diagram_detour
        [("a", "users")]%string = Ret block.
Proof.
  apply (render_block_returns iter_insertion
           [("a", "b"); ("c", "a")]%string diagram_detour
           [("a", "users")]%string).
  intros f t [H|[H|[]]]; inversion H; subst; split; discriminate.
Defined.
